(** * Caption timing of utility/captions/timed_captions_generator.py

    A shallow embedding of the caption-timing functions
    [splitWordsBySize], [getTimestampMapping], [cleanWord],
    [interpolateTimeFromDict] and [getCaptionsWithTime], and the proofs of
    the properties the specification states about them.  The functions
    around them are embedded as well, with properties of their own:
    [generate_timed_captions] and the transcription methods it tries, and,
    of utility/video/video_search_query_generator.py,
    [merge_empty_intervals] and [create_fallback_search_terms].

    Modelling conventions.
    - A Python [str] is a list of characters; a character is a code point
      below 256 (Rocq's [ascii]), classified the way CPython classifies
      that code point ([str.isspace], [str.isalnum]).
    - A Python [int] is a [Z]; [len] returns a [Z].
    - A time in seconds (a Python [float]) is a binary64 number, given by
      the rational [Q] it denotes.  Where the code multiplies, divides or
      adds times, the result is the exact result rounded to the nearest
      binary64 number, ties to even ([fl]); an [int] that meets a float
      is converted first ([float_of_int]).  Infinities, NaN and the sign
      of zero are outside the model.
    - A [dict] is an association list in insertion order, which is the
      order CPython iterates it in.
    - [raise] and [try]/[except] are an explicit result type.
    - The transcription result has the shape of the data model: a text, and
      segments of word entries with numeric timestamps; every key the code
      tests for is optional.  Values of other Python types under these keys
      are outside the model. *)

From Stdlib Require Import String Ascii List Sorted ZArith QArith Qround Qminmax
  Qpower Bool Lia Lqa.
Import ListNotations.

Local Open Scope Z_scope.

(** ** Python strings *)

Abbreviation str := (list ascii) (only parsing).

(** A string literal. *)
Definition lit (s : string) : str := list_ascii_of_string s.

Definition len {A : Type} (l : list A) : Z := Z.of_nat (List.length l).

(** Truth value of a sequence: [if words], [if caption_text]. *)
Definition truthy {A : Type} (l : list A) : bool :=
  match l with [] => false | _ :: _ => true end.

Definition ord (c : ascii) : N := N_of_ascii c.

Definition in_range (lo hi n : N) : bool := ((lo <=? n) && (n <=? hi))%N.

(** [str.isspace] on one code point; also the class [\s] of [re] and the
    separators of [str.split()] and [str.strip()]. *)
Definition isspace (c : ascii) : bool :=
  let n := ord c in
  in_range 9 13 n || in_range 28 32 n || (n =? 133)%N || (n =? 160)%N.

(** [str.isalnum] on one code point. *)
Definition isalnum (c : ascii) : bool :=
  let n := ord c in
  in_range 48 57 n || in_range 65 90 n || in_range 97 122 n
  || (n =? 170)%N || in_range 178 179 n || (n =? 181)%N
  || in_range 185 186 n || in_range 188 190 n
  || in_range 192 214 n || in_range 216 246 n || in_range 248 255 n.

Definition underscore : ascii := "_"%char.
Definition hyphen : ascii := "-"%char.
Definition dquote : ascii := ascii_of_nat 34.
Definition squote : ascii := "'"%char.
Definition space : ascii := " "%char.

(** The class [\w] of [re]. *)
Definition isword (c : ascii) : bool := isalnum c || Ascii.eqb c underscore.

Fixpoint lstrip (s : str) : str :=
  match s with
  | [] => []
  | c :: r => if isspace c then lstrip r else s
  end.

Definition rstrip (s : str) : str := rev (lstrip (rev s)).

(** [s.strip()] *)
Definition strip (s : str) : str := rstrip (lstrip s).

(** [s.split()]: the maximal runs of non-whitespace characters; [cur] is
    the run being read. *)
Fixpoint split_from (cur : str) (s : str) : list str :=
  match s with
  | [] => if truthy cur then [cur] else []
  | c :: r =>
      if isspace c
      then (if truthy cur then cur :: split_from [] r else split_from [] r)
      else split_from (cur ++ [c]) r
  end.

Definition split (s : str) : list str := split_from [] s.

(** [s.split(sep)] for a one-character separator. *)
Fixpoint split_on_from (sep : ascii) (cur : str) (s : str) : list str :=
  match s with
  | [] => [cur]
  | c :: r =>
      if Ascii.eqb c sep
      then cur :: split_on_from sep [] r
      else split_on_from sep (cur ++ [c]) r
  end.

Definition split_on (sep : ascii) (s : str) : list str :=
  split_on_from sep [] s.

(** [sep.join(l)] *)
Fixpoint join (sep : str) (l : list str) : str :=
  match l with
  | [] => []
  | x :: r =>
      match r with
      | [] => x
      | _ :: _ => x ++ sep ++ join sep r
      end
  end.

(** ** splitWordsBySize *)

Section Chunker.

Variable maxCaptionSize : Z.

(** [halfCaptionSize = maxCaptionSize / 2] (true division). *)
Definition halfCaptionSize : Q := inject_Z maxCaptionSize / 2.

(** The inner [while]: grows [caption] with the leading words of
    [words]; returns the caption and the words left. *)
Fixpoint grow_caption (caption : str) (words : list str) : str * list str :=
  match words with
  | [] => (caption, [])
  | w :: rest =>
      if len (caption ++ [space] ++ w) <=? maxCaptionSize
      then
        let caption' := caption ++ [space] ++ w in
        if Qle_bool halfCaptionSize (inject_Z (len caption')) && truthy rest
        then (caption', rest)
        else grow_caption caption' rest
      else (caption, words)
  end.

(** The outer [while words:]; every round removes at least one word, so
    [length words] rounds are enough. *)
Fixpoint split_rounds (fuel : nat) (words : list str) : list str :=
  match fuel with
  | O => []
  | S fuel' =>
      match words with
      | [] => []
      | w :: rest =>
          let (caption, words') := grow_caption w rest in
          caption :: split_rounds fuel' words'
      end
  end.

End Chunker.

Definition splitWordsBySize (words : list str) (maxCaptionSize : Z) : list str :=
  split_rounds maxCaptionSize (List.length words) words.

(** ** cleanWord *)

(** The characters the pattern of [cleanWord] does not match: its class is
    the complement of word characters, whitespace, hyphen, underscore, the
    double quote and the single quote. *)
Definition kept (c : ascii) : bool :=
  isword c || isspace c || Ascii.eqb c hyphen || Ascii.eqb c underscore
  || Ascii.eqb c dquote || Ascii.eqb c squote.

(** [re.sub] of that pattern by the empty string: every matched character
    is deleted. *)
Definition cleanWord (word : str) : str := filter kept word.

(** ** The transcription result

    The fields [getTimestampMapping] and [getCaptionsWithTime] read, each
    one optional the way the code tests for it. *)

(** A word entry that is a dict: the keys [text], [word], [start] and
    [end], each present or not.  The timestamps are numbers, so [float] of
    them does not fail. *)
Record WordTiming : Type := {
  wt_text : option str;
  wt_word : option str;
  wt_start : option Q;
  wt_end : option Q
}.

(** An element of a segment's [words]: a dict, or anything that
    [isinstance(word, dict)] rejects. *)
Inductive word_entry : Type :=
| NotADictWord
| WordDict (w : WordTiming).

Record Segment : Type := {
  seg_end : option Q;
  seg_words : option (list word_entry)
}.

(** The value under the key [text]: [None] or a string. *)
Inductive pytext : Type :=
| TextNone
| TextStr (s : str).

Record TranscriptionResult : Type := {
  tr_text : option pytext;
  tr_segments : option (list Segment)
}.

(** The argument of [getCaptionsWithTime]: a non-empty dict, or a value
    that is falsy or not a dict. *)
Inductive whisper_analysis : Type :=
| NotADict
| Analysis (r : TranscriptionResult).

(** ** The time index *)

Record timestamps : Type := { ts_start : Q; ts_end : Q }.

(** [locationToTimestamp]: keys [(start_index, end_index)]. *)
Definition TimeIndex : Type := list ((Z * Z) * timestamps).

Definition key_eqb (k k' : Z * Z) : bool :=
  (fst k =? fst k') && (snd k =? snd k').

(** [d[k] = v]: replaces the value of an existing key in place, appends a
    new key. *)
Fixpoint dict_set (d : TimeIndex) (k : Z * Z) (v : timestamps) : TimeIndex :=
  match d with
  | [] => [(k, v)]
  | (k', v') :: r =>
      if key_eqb k k' then (k', v) :: r else (k', v') :: dict_set r k v
  end.

(** [timestamps.get(search_type)] *)
Definition ts_get (search_type : string) (t : timestamps) : option Q :=
  if String.eqb search_type "start" then Some (ts_start t)
  else if String.eqb search_type "end" then Some (ts_end t)
  else None.

(** ** getTimestampMapping *)

(** The text of a word entry: the key [text] if present, else the key
    [word], stripped. *)
Definition word_text_of (w : WordTiming) : option str :=
  match wt_text w with
  | Some t => Some (strip t)
  | None =>
      match wt_word w with
      | Some t => Some (strip t)
      | None => None
      end
  end.

(** One round of the loop over a segment's words; the state is
    [(index, locationToTimestamp)]. *)
Definition word_round (st : Z * TimeIndex) (word : word_entry) : Z * TimeIndex :=
  let (index, locationToTimestamp) := st in
  match word with
  | NotADictWord => st
  | WordDict w =>
      match word_text_of w, wt_start w, wt_end w with
      | Some word_text, Some s, Some e =>
          if truthy word_text
          then
            let start_index := index in
            let end_index := index + len word_text in
            (end_index + 1,
             dict_set locationToTimestamp (start_index, end_index)
               {| ts_start := s; ts_end := e |})
          else st
      | _, _, _ => st
      end
  end.

(** One round of the loop over the segments. *)
Definition segment_round (st : Z * TimeIndex) (segment : Segment) : Z * TimeIndex :=
  match seg_words segment with
  | None => st
  | Some words => if truthy words then fold_left word_round words st else st
  end.

(** The function body sits in a [try] whose handler returns the empty
    dict; with numeric timestamps no operation of the body raises, so the
    body alone is the function. *)
Definition getTimestampMapping (r : TranscriptionResult) : TimeIndex :=
  match tr_segments r with
  | None => []
  | Some segments => snd (fold_left segment_round segments (0, []))
  end.

(** ** interpolateTimeFromDict *)

(** The first loop: the first range that contains the position. *)
Fixpoint find_containing (word_position : Z) (d : TimeIndex) : option timestamps :=
  match d with
  | [] => None
  | ((start, end_), ts) :: r =>
      if (start <=? word_position) && (word_position <? end_)
      then Some ts
      else find_containing word_position r
  end.

(** [distance < min_distance], where [None] is [float('inf')]. *)
Definition below (distance : Z) (min_distance : option Z) : bool :=
  match min_distance with
  | None => true
  | Some m => distance <? m
  end.

(** The second loop, with its two variables. *)
Fixpoint closest_preceding (search_type : string) (word_position : Z)
    (d : TimeIndex) (closest_time : option Q) (min_distance : option Z)
    : option Q :=
  match d with
  | [] => closest_time
  | ((start, end_), ts) :: r =>
      if word_position >=? end_
      then
        let distance := word_position - end_ in
        if below distance min_distance
        then closest_preceding search_type word_position r
               (ts_get search_type ts) (Some distance)
        else closest_preceding search_type word_position r
               closest_time min_distance
      else closest_preceding search_type word_position r
             closest_time min_distance
  end.

Definition interpolateTimeFromDict (word_position : Z) (d : TimeIndex)
    (search_type : string) : option Q :=
  if negb (truthy d) then None
  else
    match find_containing word_position d with
    | Some ts => ts_get search_type ts
    | None => closest_preceding search_type word_position d None None
    end.

(** ** Exceptions *)

Inductive exn : Type :=
| ValueError (msg : string).

Inductive result (A : Type) : Type :=
| Return (a : A)
| Raise (e : exn).

Arguments Return {A} a.
Arguments Raise {A} e.

(** [try: body  except Exception as e: handler e] *)
Definition try_except {A : Type} (body : result A) (handler : exn -> result A)
    : result A :=
  match body with
  | Return a => Return a
  | Raise e => handler e
  end.

(** ** Floats

    The result of an arithmetic operation on binary64 numbers is the exact
    result, rounded: to a number of 53 significant bits whose last place
    is not below [2^-1074], the nearest one, and of two nearest ones the
    one whose last bit is 0.  A result beyond the largest binary64 number
    is outside the model. *)

(** The integer nearest to [m], the even one of the two when [m] is half
    way between them. *)
Definition nearest_even (m : Q) : Z :=
  let f := Qfloor m in
  match (m - inject_Z f ?= 1 # 2)%Q with
  | Lt => f
  | Gt => f + 1
  | Eq => if Z.even f then f else f + 1
  end.

(** The exponent [e] with [2^e <= x < 2^(e+1)], for [x > 0]. *)
Definition binade (x : Q) : Z :=
  let e := Z.log2 (Qnum x) - Z.log2 (Zpos (Qden x)) in
  if Qle_bool (2 ^ e) x then e else e - 1.

(** The exponent of the last place of the binary64 numbers in the binade
    of [x]. *)
Definition last_place (x : Q) : Z := Z.max (binade x - 52) (-1074).

Definition round_positive (x : Q) : Q :=
  let e := last_place x in
  (inject_Z (nearest_even (x / 2 ^ e)) * 2 ^ e)%Q.

(** The binary64 number nearest to [x], in lowest terms. *)
Definition fl (x : Q) : Q :=
  match Qnum x with
  | Z0 => 0%Q
  | Zpos _ => Qred (round_positive x)
  | Zneg _ => Qred (- round_positive (- x))
  end.

(** [float(n)], as in [n * x] for an [int] [n] and a [float] [x]. *)
Definition float_of_int (n : Z) : Q := fl (inject_Z n).

Definition fmul (a b : Q) : Q := fl (a * b).
Definition fdiv (a b : Q) : Q := fl (a / b).
Definition fadd (a b : Q) : Q := fl (a + b).

(** ** getCaptionsWithTime *)

(** [((start_time, end_time), caption_text)] *)
Definition CaptionEntry : Type := (Q * Q) * str.

Definition entry_start (e : CaptionEntry) : Q := fst (fst e).
Definition entry_end (e : CaptionEntry) : Q := snd (fst e).
Definition entry_text (e : CaptionEntry) : str := snd e.

(** The pieces of [re.split] for the pattern of a run of spaces that
    follows one of [.], [!], [?].  [in_gap]: the scan is inside such a
    run; [after_end]: the previous character is one of the three. *)
Definition sentence_end (c : ascii) : bool :=
  Ascii.eqb c "."%char || Ascii.eqb c "!"%char || Ascii.eqb c "?"%char.

Fixpoint re_split_from (in_gap after_end : bool) (cur : str) (s : str)
    : list str :=
  match s with
  | [] => [cur]
  | c :: r =>
      if Ascii.eqb c space
      then
        if in_gap then re_split_from true false cur r
        else if after_end then cur :: re_split_from true false [] r
        else re_split_from false false (cur ++ [c]) r
      else re_split_from false (sentence_end c) (cur ++ [c]) r
  end.

Definition re_split_sentences (text : str) : list str :=
  re_split_from false false [] text.

(** The variables of the loop of the normal path. *)
Record loop_state : Type := {
  text_position : Z;
  start_time : Q;
  CaptionsPairs : list CaptionEntry
}.

Definition no_entry : CaptionEntry := ((0%Q, 0%Q), []).

Section Assembler.

Variable maxCaptionSize : Z.
Variable considerPunctuation : bool.

(** The caption chunks of the stripped text. *)
Definition caption_chunks (text : str) : list str :=
  if considerPunctuation
  then flat_map (fun sentence => splitWordsBySize (split sentence) maxCaptionSize)
         (re_split_sentences text)
  else splitWordsBySize (split text) maxCaptionSize.

(** The total duration of the estimated timing: the last segment's
    [end] when the key is there and its value is truthy, else the default
    10.0.  (The [try] around the lookup has nothing to catch here: the
    list is not empty and the value is a number.) *)
Definition total_duration (r : TranscriptionResult) : Q :=
  match tr_segments r with
  | Some segments =>
      if truthy segments
      then
        match seg_end (last segments {| seg_end := None; seg_words := None |}) with
        | Some e => if Qeq_bool e 0 then 10%Q else e
        | None => 10%Q
        end
      else 10%Q
  | None => 10%Q
  end.

(** The loop of the estimated timing over [enumerate(words)], from
    index [i] on. *)
Fixpoint estimated_loop (duration_per_caption : Q) (i : nat)
    (words : list str) (pairs : list CaptionEntry) : list CaptionEntry :=
  match words with
  | [] => pairs
  | caption_text :: rest =>
      let pairs' :=
        if truthy (strip caption_text)
        then
          let start_time := fmul (float_of_int (Z.of_nat i)) duration_per_caption in
          let end_time :=
            fmul (float_of_int (Z.of_nat i + 1)) duration_per_caption in
          let caption_text :=
            if considerPunctuation then caption_text else cleanWord caption_text in
          let caption_text := strip caption_text in
          if truthy caption_text
          then pairs ++ [((start_time, end_time), caption_text)]
          else pairs
        else pairs in
      estimated_loop duration_per_caption (S i) rest pairs'
  end.

Definition estimated_captions (r : TranscriptionResult) (words : list str)
    : list CaptionEntry :=
  let duration_per_caption :=
    if truthy words
    then fdiv (total_duration r) (float_of_int (len words))
    else 1%Q in
  estimated_loop duration_per_caption 0 words [].

Variable wordLocationToTime : TimeIndex.

(** One round of the loop of the normal path, for the chunk of index
    [i]. *)
Definition timed_round (i : nat) (caption_text : str) (st : loop_state)
    : loop_state :=
  let caption_text := strip caption_text in
  if negb (truthy caption_text) then st
  else
    let text_position' :=
      if (i =? 0)%nat then len caption_text
      else text_position st + len caption_text + 1 in
    let end_time :=
      match interpolateTimeFromDict text_position' wordLocationToTime "end" with
      | Some t => Some t
      | None =>
          if truthy (CaptionsPairs st)
          then
            let last_end := entry_end (last (CaptionsPairs st) no_entry) in
            let estimated_duration :=
              fmul (float_of_int (len caption_text)) (fl (1 # 10)) in
            Some (fadd last_end estimated_duration)
          else Some (fmul (float_of_int (len caption_text)) (fl (1 # 10)))
      end in
    let end_time :=
      match end_time with
      | Some t => Some t
      | None =>
          Some (fadd (start_time st)
                  (fmul (float_of_int (len caption_text)) (fl (1 # 10))))
      end in
    let caption_text :=
      if considerPunctuation then caption_text else cleanWord caption_text in
    let caption_text := strip caption_text in
    match end_time with
    | Some e =>
        if truthy caption_text
        then {| text_position := text_position';
                start_time := e;
                CaptionsPairs :=
                  CaptionsPairs st ++ [((start_time st, e), caption_text)] |}
        else {| text_position := text_position';
                start_time := start_time st;
                CaptionsPairs := CaptionsPairs st |}
    | None =>
        {| text_position := text_position';
           start_time := start_time st;
           CaptionsPairs := CaptionsPairs st |}
    end.

Fixpoint timed_loop (i : nat) (words : list str) (st : loop_state) : loop_state :=
  match words with
  | [] => st
  | caption_text :: rest => timed_loop (S i) rest (timed_round i caption_text st)
  end.

End Assembler.

(** The body of the [try]. *)
Definition getCaptionsWithTime_body (wa : whisper_analysis) (maxCaptionSize : Z)
    (considerPunctuation : bool) : result (list CaptionEntry) :=
  match wa with
  | NotADict => Raise (ValueError "Invalid whisper_analysis")
  | Analysis r =>
      match tr_text r with
      | None => Raise (ValueError "No 'text' field in whisper_analysis")
      | Some TextNone => Return []
      | Some (TextStr text) =>
          if negb (truthy text) || negb (truthy (strip text)) then Return []
          else
            let text := strip text in
            let wordLocationToTime := getTimestampMapping r in
            let words := caption_chunks maxCaptionSize considerPunctuation text in
            if negb (truthy wordLocationToTime)
            then Return (estimated_captions considerPunctuation r words)
            else
              Return
                (CaptionsPairs
                   (timed_loop considerPunctuation wordLocationToTime 0%nat words
                      {| text_position := 0; start_time := 0%Q; CaptionsPairs := [] |}))
      end
  end.

(** The whole function: the handler prints the error and returns the
    empty list. *)
Definition getCaptionsWithTime_result (wa : whisper_analysis) (maxCaptionSize : Z)
    (considerPunctuation : bool) : result (list CaptionEntry) :=
  try_except (getCaptionsWithTime_body wa maxCaptionSize considerPunctuation)
    (fun _ => Return []).

(** The list the caller receives when the call returns. *)
Definition returned {A : Type} (r : result (list A)) : list A :=
  match r with
  | Return l => l
  | Raise _ => []
  end.

Definition getCaptionsWithTime (wa : whisper_analysis) (maxCaptionSize : Z)
    (considerPunctuation : bool) : list CaptionEntry :=
  returned (getCaptionsWithTime_result wa maxCaptionSize considerPunctuation).

(** ** The transcription methods and generate_timed_captions

    The calls of the speech model and of the file system are inputs of the
    model: a call either raises or returns a value.  A value a method
    returns is [None] (for Python's [None] or any falsy value) or a dict
    that is not empty. *)

Inductive outcome (A : Type) : Type :=
| Raised
| Returned (a : A).

Arguments Raised {A}.
Arguments Returned {A} a.

(** [max(a, b)] of two numbers: [b] when it is greater, else [a]. *)
Definition py_max (a b : Q) : Q := if Qle_bool b a then a else b.

(** [create_simple_timed_captions]; [transcribed] is the outcome of
    [model.transcribe(audio_filename, language="en")], reduced to the
    value under the key [text] of its result if the key is there.  The
    keys [start] and [text] of the segment it builds are read by no
    function modelled here and are left out of the record. *)
Definition create_simple_timed_captions (transcribed : outcome (option pytext))
    : option TranscriptionResult :=
  match transcribed with
  | Raised => None
  | Returned value =>
      let text := match value with Some v => v | None => TextStr [] end in
      match text with
      | TextNone => None
      | TextStr s =>
          if negb (truthy s) then None
          else
            let estimated_duration :=
              fmul (float_of_int (len s)) (fl (5 # 100)) in
            Some {| tr_text := Some (TextStr s);
                    tr_segments :=
                      Some [ {| seg_end := Some (py_max estimated_duration 5);
                                seg_words := Some [] |} ] |}
      end
  end.

(** [transcribe_with_regular_whisper]; [transcribed] is the outcome of
    [model.transcribe(audio_filename, language="en", word_timestamps=True)]. *)
Definition transcribe_with_regular_whisper (transcribed : outcome TranscriptionResult)
    : option TranscriptionResult :=
  match transcribed with
  | Raised => None
  | Returned result =>
      match tr_segments result with
      | Some _ => Some result
      | None =>
          Some {| tr_text :=
                    Some (match tr_text result with
                          | Some v => v
                          | None => TextStr []
                          end);
                  tr_segments :=
                    Some [ {| seg_end := Some 10%Q; seg_words := Some [] |} ] |}
      end
  end.

(** [transcribe_with_conservative_settings] and
    [transcribe_with_basic_settings]: the result of
    [transcribe_timestamped], an exception raised again. *)
Definition transcribe_with_settings {A : Type} (called : outcome A) : outcome A :=
  match called with
  | Raised => Raised
  | Returned v => Returned v
  end.

(** What [generate_timed_captions] gets from outside. *)
Record transcription_calls : Type := {
  audio_exists : bool;
  audio_size : Z;
  model_loaded : outcome unit;
  timestamped_conservative : outcome (option TranscriptionResult);
  timestamped_basic : outcome (option TranscriptionResult);
  whisper_words : outcome TranscriptionResult;
  whisper_plain : outcome (option pytext)
}.

(** The list [methods], each method applied to the model and the file. *)
Definition methods (calls : transcription_calls)
    : list (outcome (option TranscriptionResult)) :=
  [ transcribe_with_settings (timestamped_conservative calls);
    transcribe_with_settings (timestamped_basic calls);
    Returned (transcribe_with_regular_whisper (whisper_words calls));
    Returned (create_simple_timed_captions (whisper_plain calls)) ].

(** The loop over the methods: a method that raises or returns a falsy
    value is passed over; the first other result is turned into
    captions, with the default size 15 and punctuation not kept. *)
Fixpoint try_methods (ms : list (outcome (option TranscriptionResult)))
    : list CaptionEntry :=
  match ms with
  | [] => []
  | Raised :: rest => try_methods rest
  | Returned None :: rest => try_methods rest
  | Returned (Some result) :: _ => getCaptionsWithTime (Analysis result) 15 false
  end.

(** The body of the [try] of [generate_timed_captions]. *)
Definition generate_timed_captions_body (calls : transcription_calls)
    : outcome (list CaptionEntry) :=
  if negb (audio_exists calls) then Raised
  else if audio_size calls =? 0 then Raised
  else
    match model_loaded calls with
    | Raised => Raised
    | Returned _ => Returned (try_methods (methods calls))
    end.

Definition generate_timed_captions (calls : transcription_calls)
    : list CaptionEntry :=
  match generate_timed_captions_body calls with
  | Returned captions => captions
  | Raised => []
  end.

(** ** merge_empty_intervals (utility/video/video_search_query_generator.py)

    A segment is an interval of two times and the url of a video, or
    [None] when no video was found. *)

Definition video_segment : Type := (Q * Q) * option str.

Definition no_segment : video_segment := ((0%Q, 0%Q), None).

(** The inner [while]: from [segments[i+1:]], the segments without url at
    its head ([segments[i+1:j]]) and what follows them ([segments[j:]]). *)
Fixpoint none_run (segments : list video_segment)
    : list video_segment * list video_segment :=
  match segments with
  | (interval, None) :: tl =>
      let (run, rest) := none_run tl in ((interval, None) :: run, rest)
  | _ => ([], segments)
  end.

(** The branch [url is None] for the segment [segments[i]] of interval
    [interval]; [first] is [i == 0], [run] is [segments[i+1:j]]. *)
Definition merge_none (first : bool) (interval : Q * Q)
    (run merged : list video_segment) : list video_segment :=
  if negb first && truthy merged
  then
    let (prev_interval, prev_url) := last merged no_segment in
    match prev_url with
    | Some url =>
        if Qeq_bool (snd prev_interval) (fst interval)
        then
          let end_time :=
            if truthy run then snd (fst (last run no_segment)) else snd interval in
          removelast merged ++ [((fst prev_interval, end_time), Some url)]
        else merged ++ [(interval, Some url)]
    | None => merged ++ [(interval, None)]
    end
  else merged ++ [(interval, None)].

(** The outer [while i < len(segments)], on [segments[i:]]; every round
    moves [i] forward, so [len(segments)] rounds are enough. *)
Fixpoint merge_rounds (fuel : nat) (first : bool)
    (segments merged : list video_segment) : list video_segment :=
  match fuel with
  | O => merged
  | S fuel' =>
      match segments with
      | [] => merged
      | (interval, None) :: tl =>
          let (run, rest) := none_run tl in
          merge_rounds fuel' false rest (merge_none first interval run merged)
      | (interval, Some url) :: tl =>
          merge_rounds fuel' false tl (merged ++ [(interval, Some url)])
      end
  end.

Definition merge_empty_intervals (segments : list video_segment)
    : list video_segment :=
  if negb (truthy segments) then []
  else merge_rounds (List.length segments) true segments [].

(** ** create_fallback_search_terms *)

(** A time interval and its search keywords. *)
Definition search_terms : Type := (Q * Q) * list str.

Definition no_terms : search_terms := ((0%Q, 0%Q), []).

(** [min(a, b)] of two numbers: [b] when it is smaller, else [a]. *)
Definition py_min (a b : Q) : Q := if Qle_bool a b then a else b.

Definition generic_terms : list str :=
  [lit "nature scene"; lit "landscape view"; lit "abstract background"].

(** The segments returned when there is no caption. *)
Definition simple_segments : list search_terms :=
  [((0%Q, 10%Q),
    [lit "nature scene"; lit "landscape view"; lit "abstract background"]);
   ((10%Q, 20%Q), [lit "city view"; lit "modern building"; lit "urban scene"]);
   ((20%Q, 30%Q), [lit "sky view"; lit "clouds"; lit "peaceful scene"])].

Section Fallback.

(** The list [unique_words] the function computes from the script:
    [list(set(words))[:10]], whose order Python leaves open.  The rest of
    the function only reads it by index. *)
Variable unique_words : list str.

(** One pass of [for i in range(3)], on [keywords] and [word_index]. *)
Definition next_keyword (state : list str * nat) (i : nat) : list str * nat :=
  let (keywords, word_index) := state in
  if (word_index <? List.length unique_words)%nat then
    (keywords ++ [nth word_index unique_words []], S word_index)
  else
    (keywords ++ [nth (i mod List.length generic_terms) generic_terms []],
     word_index).

Definition segment_keywords (word_index : nat) : list str * nat :=
  fold_left next_keyword (seq 0 3) ([], word_index).

(** The loop [while current_time < total_duration].  The sum
    [current_time + segment_duration] is written without rounding:
    [current_time] is a multiple of 3 there, and the multiples of 3 up to
    [2^53] are binary64 numbers. *)
Fixpoint fallback_rounds (fuel : nat) (total_duration current_time : Q)
    (word_index : nat) (fallback_terms : list search_terms)
    : list search_terms :=
  match fuel with
  | O => fallback_terms
  | S fuel' =>
      if negb (Qle_bool total_duration current_time) then
        let end_time := py_min (current_time + 3) total_duration in
        let (keywords, word_index') := segment_keywords word_index in
        fallback_rounds fuel' total_duration end_time word_index'
          (fallback_terms ++ [((current_time, end_time), keywords)])
      else fallback_terms
  end.

(** Every round but the last moves [current_time] forward by 3, so the
    loop is over after [total_duration / 3] rounds, rounded up. *)
Definition fallback_fuel (total_duration : Q) : nat :=
  Z.to_nat (Qceiling (total_duration / 3)).

Definition create_fallback_search_terms (captions_timed : list CaptionEntry)
    : list search_terms :=
  if truthy captions_timed then
    let total_duration := entry_end (last captions_timed no_entry) in
    fallback_rounds (fallback_fuel total_duration) total_duration 0 0 []
  else simple_segments.

End Fallback.

(** ** Vocabulary of the properties *)

(** What a group of consecutive words that forms one chunk satisfies: it
    is a single word, or its words joined by spaces fit the size. *)
Definition chunk_group (maxCaptionSize : Z) (g : list str) : Prop :=
  g <> [] /\ (List.length g = 1%nat \/ len (join [space] g) <= maxCaptionSize).

(** The range [[s, e)] of a key contains the position. *)
Definition contains (word_position : Z) (k : Z * Z) : Prop :=
  fst k <= word_position < snd k.

(** The range of a key ends at or before the position. *)
Definition precedes (word_position : Z) (k : Z * Z) : Prop :=
  snd k <= word_position.

(** The entry is, among the entries of [d] that precede the position, one
    at the least distance [word_position - e]. *)
Definition nearest_preceding (word_position : Z) (d : TimeIndex)
    (kv : (Z * Z) * timestamps) : Prop :=
  In kv d /\ precedes word_position (fst kv)
  /\ forall kv', In kv' d -> precedes word_position (fst kv') ->
       word_position - snd (fst kv) <= word_position - snd (fst kv').

(** The index as the specification describes it ([specified_index]
    below), not as the code builds it.  A word is usable when it is a dict
    whose text, stripped, is not empty and whose two timestamps are
    present; the usable words are taken segment by segment, in order. *)
Definition usable_word (word : word_entry) : option (str * timestamps) :=
  match word with
  | NotADictWord => None
  | WordDict w =>
      match word_text_of w, wt_start w, wt_end w with
      | Some word_text, Some s, Some e =>
          if truthy word_text
          then Some (word_text, {| ts_start := s; ts_end := e |})
          else None
      | _, _, _ => None
      end
  end.

Fixpoint usable_in (words : list word_entry) : list (str * timestamps) :=
  match words with
  | [] => []
  | word :: rest =>
      match usable_word word with
      | Some u => u :: usable_in rest
      | None => usable_in rest
      end
  end.

Definition usable_words (r : TranscriptionResult) : list (str * timestamps) :=
  match tr_segments r with
  | None => []
  | Some segments =>
      flat_map (fun segment =>
                  match seg_words segment with
                  | None => []
                  | Some words => usable_in words
                  end) segments
  end.

(** Each usable word gets the range [[cursor, cursor + len)], and the
    cursor moves on by [len + 1]. *)
Fixpoint record_ranges (cursor : Z) (ws : list (str * timestamps)) : TimeIndex :=
  match ws with
  | [] => []
  | (word_text, ts) :: rest =>
      ((cursor, cursor + len word_text), ts)
      :: record_ranges (cursor + len word_text + 1) rest
  end.

Fixpoint cursor_after (cursor : Z) (ws : list (str * timestamps)) : Z :=
  match ws with
  | [] => cursor
  | (word_text, _) :: rest => cursor_after (cursor + len word_text + 1) rest
  end.

(** The index of the specification: the ranges of the usable words, laid
    out from the cursor 0. *)
Definition specified_index (r : TranscriptionResult) : TimeIndex :=
  record_ranges 0 (usable_words r).

(** The state of the loops of [getTimestampMapping]: every key of the dict
    ends before the cursor. *)
Definition keys_below (st : Z * TimeIndex) : Prop :=
  forall kv, In kv (snd st) -> snd (fst kv) < fst st.

(** The text is absent, [None], empty or made of whitespace only. *)
Definition text_blank (r : TranscriptionResult) : Prop :=
  match tr_text r with
  | None => True
  | Some TextNone => True
  | Some (TextStr s) => Forall (fun c => isspace c = true) s
  end.

(** The string has a character that is not whitespace. *)
Definition has_text (s : str) : Prop :=
  exists c, In c s /\ isspace c = false.

(** [R] holds between every entry and the next one. *)
Definition consecutive (R : CaptionEntry -> CaptionEntry -> Prop)
    (l : list CaptionEntry) : Prop :=
  forall i e e',
    nth_error l i = Some e -> nth_error l (S i) = Some e' -> R e e'.

(** The first entry, if there is one, starts at [t]. *)
Definition starts_at (t : Q) (l : list CaptionEntry) : Prop :=
  forall e, nth_error l 0 = Some e -> entry_start e = t.

(** The text of an entry, from the text of its chunk. *)
Definition shown_text (considerPunctuation : bool) (chunk : str) : str :=
  strip (if considerPunctuation then chunk else cleanWord chunk).

(** The interval of the chunk of index [i] in the estimated timing. *)
Definition slice (duration_per_caption : Q) (i : nat) : Q * Q :=
  (fmul (float_of_int (Z.of_nat i)) duration_per_caption,
   fmul (float_of_int (Z.of_nat i + 1)) duration_per_caption).

(** The entries of the estimated timing: one for every chunk whose shown
    text is not empty, with the slice of the chunk's index. *)
Fixpoint sliced_entries (considerPunctuation : bool) (duration_per_caption : Q)
    (i : nat) (chunks : list str) : list CaptionEntry :=
  match chunks with
  | [] => []
  | chunk :: rest =>
      (if truthy (shown_text considerPunctuation chunk)
       then [(slice duration_per_caption i, shown_text considerPunctuation chunk)]
       else [])
      ++ sliced_entries considerPunctuation duration_per_caption (S i) rest
  end.

(** The end times of the usable words, in the order of the transcript. *)
Definition word_end_times (r : TranscriptionResult) : list Q :=
  map (fun u => ts_end (snd u)) (usable_words r).

(** An entry of the index comes before another one: its range ends before
    the other range starts, and its end time is not later. *)
Definition index_before (kv kv' : (Z * Z) * timestamps) : Prop :=
  snd (fst kv) < fst (fst kv') /\ (ts_end (snd kv) <= ts_end (snd kv'))%Q.

(** The entry whose field a lookup at the position returns: one whose
    range contains the position, or the nearest one before it when no
    range contains it. *)
Definition selected (word_position : Z) (d : TimeIndex)
    (kv : (Z * Z) * timestamps) : Prop :=
  In kv d
  /\ (contains word_position (fst kv)
      \/ ((forall kv', In kv' d -> ~ contains word_position (fst kv'))
          /\ nearest_preceding word_position d kv)).

(** The position of the end of a chunk, in the normal path. *)
Definition next_position (i : nat) (chunk : str) (st : loop_state) : Z :=
  if (i =? 0)%nat then len (strip chunk)
  else text_position st + len (strip chunk) + 1.

(** [t <= x1 <= x2 <= ...], as a check that runs. *)
Fixpoint rising_from (t : Q) (l : list Q) : bool :=
  match l with
  | [] => true
  | x :: r => Qle_bool t x && rising_from x r
  end.

(** A word entry with the key [text] and both timestamps. *)
Definition timed_word (text : string) (s e : Q) : word_entry :=
  WordDict {| wt_text := Some (lit text); wt_word := None;
              wt_start := Some s; wt_end := Some e |}.

(** The transcription of the specification's end-to-end example: nine
    words, each 0.3 seconds long, in one segment. *)
Definition quick_brown_fox : TranscriptionResult :=
  {| tr_text := Some (TextStr (lit "The quick brown fox jumps over the lazy dog"));
     tr_segments :=
       Some [ {| seg_end := Some (27 # 10)%Q;
                 seg_words :=
                   Some [ timed_word "The" 0 (3 # 10);
                          timed_word "quick" (3 # 10) (6 # 10);
                          timed_word "brown" (6 # 10) (9 # 10);
                          timed_word "fox" (9 # 10) (12 # 10);
                          timed_word "jumps" (12 # 10) (15 # 10);
                          timed_word "over" (15 # 10) (18 # 10);
                          timed_word "the" (18 # 10) (21 # 10);
                          timed_word "lazy" (21 # 10) (24 # 10);
                          timed_word "dog" (24 # 10) (27 # 10) ] |} ] |}.

(** Two words whose times are out of order. *)
Definition out_of_order : TranscriptionResult :=
  {| tr_text := Some (TextStr (lit "aaaaaaaa bbbbbbbb"));
     tr_segments :=
       Some [ {| seg_end := Some 6%Q;
                 seg_words :=
                   Some [ timed_word "aaaaaaaa" 5 6;
                          timed_word "bbbbbbbb" 0 1 ] |} ] |}.

(** The string has no whitespace at either end: [s.strip() == s]. *)
Definition trimmed (s : str) : Prop :=
  lstrip s = s /\ lstrip (rev s) = rev s.

(** The range of an entry of the index ends before the range of another
    one starts. *)
Definition key_before (kv kv' : (Z * Z) * timestamps) : Prop :=
  snd (fst kv) < fst (fst kv').

Definition no_word : str * timestamps :=
  ([], {| ts_start := 0%Q; ts_end := 0%Q |}).

(** The entries of a transcript whose text is its usable words: one for
    every group of words that forms a chunk and keeps a text, from the end
    of the previous entry to the end time of the last word of the group. *)
Fixpoint aligned_entries (considerPunctuation : bool) (start_time : Q)
    (groups : list (list (str * timestamps))) : list CaptionEntry :=
  match groups with
  | [] => []
  | g :: rest =>
      let shown := shown_text considerPunctuation (join [space] (map fst g)) in
      let end_time := ts_end (snd (last g no_word)) in
      if truthy shown
      then ((start_time, end_time), shown)
           :: aligned_entries considerPunctuation end_time rest
      else aligned_entries considerPunctuation start_time rest
  end.

(** Why a chunk made of the group [g] is closed before the word [w]: the
    word does not fit, or the chunk has at least two words and has reached
    half the size. *)
Definition closes_chunk (maxCaptionSize : Z) (g : list str) (w : str) : Prop :=
  maxCaptionSize < len (join [space] g ++ space :: w)
  \/ ((2 <= List.length g)%nat
      /\ (halfCaptionSize maxCaptionSize <= inject_Z (len (join [space] g)))%Q).

(** No proper prefix of two words or more of the group has reached half
    the size. *)
Definition grows_below_half (maxCaptionSize : Z) (g : list str) : Prop :=
  forall pre suf,
    g = pre ++ suf -> (2 <= List.length pre)%nat -> suf <> [] ->
    ~ (halfCaptionSize maxCaptionSize <= inject_Z (len (join [space] pre)))%Q.

(** All the word entries of the segments, in order. *)
Definition all_words (segments : list Segment) : list word_entry :=
  flat_map (fun segment =>
              match seg_words segment with
              | Some words => words
              | None => []
              end) segments.

Definition word_usable (word : word_entry) : bool :=
  match usable_word word with
  | Some _ => true
  | None => false
  end.

Definition has_url (segment : video_segment) : Prop := snd segment <> None.

(** Every interval starts where the one before it ends, the first one at
    [t]. *)
Fixpoint contiguous_from (t : Q) (segments : list video_segment) : Prop :=
  match segments with
  | [] => True
  | (interval, _) :: tl =>
      (t == fst interval)%Q /\ contiguous_from (snd interval) tl
  end.

(** The end of the last interval, [t] when there is none. *)
Fixpoint final_end (t : Q) (segments : list video_segment) : Q :=
  match segments with
  | [] => t
  | (interval, _) :: tl => final_end (snd interval) tl
  end.

(** The urls that are there, in order. *)
Fixpoint urls_of (segments : list video_segment) : list str :=
  match segments with
  | [] => []
  | (_, Some url) :: tl => url :: urls_of tl
  | (_, None) :: tl => urls_of tl
  end.

(** The keyword number [j] of the fallback search terms, counted over
    all segments: the word number [j] of [unique_words] while there is
    one, then the generic terms in turn. *)
Definition keyword_at (unique_words : list str) (j : nat) : str :=
  if (j <? List.length unique_words)%nat then nth j unique_words []
  else nth (j mod 3) generic_terms [].

(** A natural number as a time. *)
Definition seconds (n : nat) : Q := inject_Z (Z.of_nat n).

(** * Properties *)

(** ** Lists and strings *)

Lemma truthy_true_iff {A : Type} (l : list A) : truthy l = true <-> l <> [].
Proof. destruct l; simpl; split; congruence. Qed.

Lemma len_nonneg {A : Type} (l : list A) : 0 <= len l.
Proof. unfold len. lia. Qed.

Lemma len_app {A : Type} (l l' : list A) : len (l ++ l') = len l + len l'.
Proof. unfold len. rewrite length_app. lia. Qed.

Lemma join_cons_cons sep x y r :
  join sep (x :: y :: r) = x ++ sep ++ join sep (y :: r).
Proof. reflexivity. Qed.

(** A joined group is its first word followed by the other words, each
    behind a space. *)
Lemma join_head_tail w taken :
  join [space] (w :: taken) = w ++ concat (map (cons space) taken).
Proof.
  revert w. induction taken as [|v taken IH]; intro w.
  - simpl. now rewrite app_nil_r.
  - rewrite join_cons_cons, IH. reflexivity.
Qed.

Lemma join_app sep (g l : list str) :
  g <> [] -> l <> [] -> join sep (g ++ l) = join sep g ++ sep ++ join sep l.
Proof.
  intros Hg Hl. induction g as [|x g IH]; [congruence|].
  destruct g as [|y g].
  - destruct l; [congruence|]. reflexivity.
  - change ((x :: y :: g) ++ l) with (x :: (y :: g) ++ l).
    change ((y :: g) ++ l) with (y :: g ++ l) at 1.
    rewrite join_cons_cons.
    change (y :: g ++ l) with ((y :: g) ++ l).
    rewrite IH by congruence.
    rewrite join_cons_cons. now rewrite <- !app_assoc.
Qed.

Lemma join_groups sep (groups : list (list str)) :
  Forall (fun g => g <> []) groups ->
  join sep (map (join sep) groups) = join sep (concat groups).
Proof.
  induction 1 as [|g groups Hg Hgs IH]; [reflexivity|].
  destruct groups as [|g' groups].
  - simpl. now rewrite app_nil_r.
  - change (map (join sep) (g :: g' :: groups))
      with (join sep g :: join sep g' :: map (join sep) groups).
    rewrite join_cons_cons.
    change (join sep g' :: map (join sep) groups)
      with (map (join sep) (g' :: groups)).
    rewrite IH.
    change (concat (g :: g' :: groups)) with (g ++ concat (g' :: groups)).
    rewrite join_app; auto.
    inversion Hgs as [|? ? Hg' _]; subst.
    destruct g'; [congruence|]. simpl. congruence.
Qed.

Lemma split_on_from_word sep cur w rest :
  ~ In sep w ->
  split_on_from sep cur (w ++ rest) = split_on_from sep (cur ++ w) rest.
Proof.
  revert cur. induction w as [|c w IH]; intros cur Hw.
  - now rewrite app_nil_r.
  - simpl. destruct (Ascii.eqb c sep) eqn:E.
    + apply Ascii.eqb_eq in E. subst. exfalso. apply Hw. now left.
    + rewrite IH.
      * now rewrite <- app_assoc.
      * intro H. apply Hw. now right.
Qed.

(** Splitting a joined group on the separator gives the group back. *)
Lemma split_on_join sep g :
  g <> [] -> Forall (fun w => ~ In sep w) g ->
  split_on sep (join [sep] g) = g.
Proof.
  intros Hg Hall. unfold split_on.
  induction Hall as [|w g Hw Hall IH]; [congruence|].
  destruct g as [|v g].
  - simpl. rewrite <- (app_nil_r w) at 1.
    now rewrite split_on_from_word.
  - rewrite join_cons_cons, split_on_from_word by assumption.
    simpl. rewrite Ascii.eqb_refl. f_equal. apply IH. congruence.
Qed.

(** ** The chunks as groups of words *)

Section ChunkerFacts.

Variable maxCaptionSize : Z.

Lemma grow_caption_taken words caption :
  exists taken,
    words = taken ++ snd (grow_caption maxCaptionSize caption words)
    /\ fst (grow_caption maxCaptionSize caption words)
       = caption ++ concat (map (cons space) taken)
    /\ (taken = []
        \/ len (fst (grow_caption maxCaptionSize caption words)) <= maxCaptionSize).
Proof.
  revert caption. induction words as [|w rest IH]; intro caption.
  - exists []. simpl. rewrite app_nil_r. auto.
  - simpl.
    destruct (len (caption ++ space :: w) <=? maxCaptionSize) eqn:Hfit.
    + apply Z.leb_le in Hfit.
      destruct (Qle_bool (halfCaptionSize maxCaptionSize)
                  (inject_Z (len (caption ++ space :: w))) && truthy rest).
      * exists [w]. simpl. rewrite app_nil_r. auto.
      * destruct (IH (caption ++ space :: w)) as (taken & Hw & Hc & Hlen).
        exists (w :: taken). simpl. split; [congruence|]. split.
        -- rewrite Hc. now rewrite <- app_assoc.
        -- right. destruct Hlen as [-> | Hlen]; [|exact Hlen].
           rewrite Hc. simpl. now rewrite app_nil_r.
    + exists []. simpl. rewrite app_nil_r. auto.
Qed.

Lemma split_rounds_groups fuel words :
  (List.length words <= fuel)%nat ->
  exists groups,
    concat groups = words
    /\ Forall (chunk_group maxCaptionSize) groups
    /\ split_rounds maxCaptionSize fuel words = map (join [space]) groups.
Proof.
  revert words. induction fuel as [|fuel IH]; intros words Hfuel.
  - destruct words; [|simpl in Hfuel; lia]. exists []. auto.
  - destruct words as [|w rest]; [exists []; auto|].
    simpl.
    destruct (grow_caption_taken rest w) as (taken & Hrest & Hcap & Hlen).
    destruct (grow_caption maxCaptionSize w rest) as [caption words'].
    simpl in Hrest, Hcap, Hlen.
    destruct (IH words') as (groups & Hcat & Hall & Heq).
    { simpl in Hfuel. rewrite Hrest, length_app in Hfuel. lia. }
    exists ((w :: taken) :: groups). split; [|split].
    + simpl. now rewrite Hcat, Hrest.
    + constructor; [|exact Hall]. split; [congruence|].
      destruct Hlen as [-> | Hlen]; [now left|].
      right. now rewrite join_head_tail, <- Hcap.
    + rewrite map_cons, join_head_tail, <- Hcap, Heq. reflexivity.
Qed.

Lemma splitWordsBySize_groups words :
  exists groups,
    concat groups = words
    /\ Forall (chunk_group maxCaptionSize) groups
    /\ splitWordsBySize words maxCaptionSize = map (join [space]) groups.
Proof. apply split_rounds_groups. lia. Qed.

(** More fuel changes nothing: the rounds stop when the words run out. *)
Lemma split_rounds_fuel fuel fuel' words :
  (List.length words <= fuel)%nat -> (List.length words <= fuel')%nat ->
  split_rounds maxCaptionSize fuel words = split_rounds maxCaptionSize fuel' words.
Proof.
  revert fuel' words. induction fuel as [|fuel IH]; intros fuel' words H H'.
  - destruct words; [|simpl in H; lia]. now destruct fuel'.
  - destruct words as [|w rest]; [now destruct fuel'|].
    destruct fuel' as [|fuel']; [simpl in H'; lia|].
    simpl.
    destruct (grow_caption_taken rest w) as (taken & Hrest & _).
    destruct (grow_caption maxCaptionSize w rest) as [caption words'].
    simpl in Hrest, H, H'. f_equal.
    assert (Hlen : (List.length words' <= List.length rest)%nat).
    { rewrite Hrest, length_app. lia. }
    apply IH; lia.
Qed.

Lemma split_rounds_enough fuel words :
  (List.length words <= fuel)%nat ->
  split_rounds maxCaptionSize fuel words = splitWordsBySize words maxCaptionSize.
Proof. intro H. apply split_rounds_fuel; [exact H | lia]. Qed.

(** The loop as the source writes it: one chunk, then the rest. *)
Lemma splitWordsBySize_cons w rest :
  splitWordsBySize (w :: rest) maxCaptionSize
  = fst (grow_caption maxCaptionSize w rest)
    :: splitWordsBySize (snd (grow_caption maxCaptionSize w rest)) maxCaptionSize.
Proof.
  unfold splitWordsBySize at 1. simpl.
  destruct (grow_caption_taken rest w) as (taken & Hrest & _).
  destruct (grow_caption maxCaptionSize w rest) as [caption words'].
  simpl in *. f_equal. apply split_rounds_enough.
  rewrite Hrest, length_app. lia.
Qed.

End ChunkerFacts.

(** ** splitWordsBySize: size of the chunks *)

Lemma len_join_ge w g : In w g -> len w <= len (join [space] g).
Proof.
  induction g as [|x g IH]; [contradiction|].
  intros [-> | Hin].
  - destruct g as [|y g]; [simpl; lia|].
    rewrite join_cons_cons, len_app.
    pose proof (len_nonneg ([space] ++ join [space] (y :: g))). lia.
  - destruct g as [|y g]; [contradiction|].
    rewrite join_cons_cons, !len_app. specialize (IH Hin).
    pose proof (len_nonneg x). pose proof (len_nonneg [space]). lia.
Qed.

(** C4. Every chunk of [splitWordsBySize] is at most [maxCaptionSize]
    characters long, except a chunk that is a single input word longer
    than [maxCaptionSize]; and every input word longer than
    [maxCaptionSize] is a chunk of its own, unsplit. *)
Theorem splitWordsBySize_size_bound (words : list str) (maxCaptionSize : Z) :
  Forall (fun c => len c <= maxCaptionSize
                   \/ (In c words /\ maxCaptionSize < len c))
    (splitWordsBySize words maxCaptionSize)
  /\ Forall (fun w => maxCaptionSize < len w ->
                      In w (splitWordsBySize words maxCaptionSize))
      words.
Proof.
  destruct (splitWordsBySize_groups maxCaptionSize words)
    as (groups & Hcat & Hall & ->).
  rewrite Forall_forall in Hall. split.
  - apply Forall_forall. intros c Hc.
    apply in_map_iff in Hc. destruct Hc as (g & <- & Hg).
    destruct (Hall g Hg) as [Hne [Hone | Hfit]]; [|now left].
    destruct g as [|w [|v g]]; simpl in Hone; try discriminate.
    simpl. destruct (Z_le_gt_dec (len w) maxCaptionSize); [now left|].
    right. split; [|lia].
    rewrite <- Hcat. apply in_concat. exists [w]. split; [exact Hg|now left].
  - apply Forall_forall. intros w Hw Hlong.
    rewrite <- Hcat in Hw. apply in_concat in Hw.
    destruct Hw as (g & Hg & Hwg).
    apply in_map_iff. exists g. split; [|exact Hg].
    destruct (Hall g Hg) as [Hne [Hone | Hfit]].
    + destruct g as [|x [|y g]]; simpl in Hone; try discriminate.
      destruct Hwg as [-> | []]. reflexivity.
    + pose proof (len_join_ge w g Hwg). lia.
Qed.

(** ** splitWordsBySize: nothing lost, nothing reordered *)

Lemma Forall_concat_inv {A : Type} (P : A -> Prop) (ls : list (list A)) :
  Forall P (List.concat ls) -> Forall (Forall P) ls.
Proof.
  induction ls as [|l ls IH]; simpl; intro H; [constructor|].
  apply Forall_app in H. destruct H. constructor; auto.
Qed.

Lemma join_nonempty sep g :
  Forall (fun w : str => w <> []) g -> g <> [] -> join sep g <> [].
Proof.
  intros Hall Hg. destruct Hall as [|w g Hw _]; [congruence|].
  destruct w as [|c w]; [congruence|].
  destruct g; simpl; discriminate.
Qed.

(** C10. For non-empty words without a space, the chunks of
    [splitWordsBySize] joined by single spaces are the words joined by
    single spaces, splitting every chunk on the space and concatenating
    gives the word list back, and no chunk is empty. *)
Theorem splitWordsBySize_lossless (words : list str) (maxCaptionSize : Z) :
  Forall (fun w => w <> [] /\ ~ In space w) words ->
  join [space] (splitWordsBySize words maxCaptionSize) = join [space] words
  /\ flat_map (split_on space) (splitWordsBySize words maxCaptionSize) = words
  /\ Forall (fun c => c <> []) (splitWordsBySize words maxCaptionSize).
Proof.
  intro Hwords.
  destruct (splitWordsBySize_groups maxCaptionSize words)
    as (groups & Hcat & Hall & ->).
  assert (Hne : Forall (fun g : list str => g <> []) groups).
  { eapply Forall_impl; [|exact Hall]. intros g [Hg _]. exact Hg. }
  rewrite <- Hcat in Hwords. apply Forall_concat_inv in Hwords.
  split; [|split].
  - rewrite <- Hcat. now apply join_groups.
  - rewrite <- Hcat. clear Hcat Hall.
    induction groups as [|g groups IH]; [reflexivity|].
    inversion Hne as [|? ? Hg Hne']; subst.
    inversion Hwords as [|? ? Hgw Hwords']; subst.
    simpl. rewrite IH by assumption. f_equal.
    apply split_on_join; [exact Hg|].
    eapply Forall_impl; [|exact Hgw]. now intros w [_ Hw].
  - apply Forall_forall. intros c Hc.
    apply in_map_iff in Hc. destruct Hc as (g & <- & Hg).
    rewrite Forall_forall in Hne, Hwords.
    apply join_nonempty; [|now apply Hne].
    eapply Forall_impl; [|exact (Hwords g Hg)]. now intros w [Hw _].
Qed.

(** The hypothesis of C10 as a check that runs. *)
Lemma spaceless_words_check (words : list str) :
  forallb (fun w => truthy w && negb (existsb (Ascii.eqb space) w)) words = true ->
  Forall (fun w => w <> [] /\ ~ In space w) words.
Proof.
  rewrite forallb_forall. intro H. apply Forall_forall. intros w Hw.
  specialize (H w Hw). apply andb_true_iff in H. destruct H as [Hne Hsp].
  split; [now apply truthy_true_iff|].
  intro Hin. apply negb_true_iff in Hsp.
  assert (existsb (Ascii.eqb space) w = true); [|congruence].
  apply existsb_exists. exists space. split; [exact Hin|apply Ascii.eqb_refl].
Qed.

(** The sentence of the specification's example, chunked at 15. *)
Lemma splitWordsBySize_lossless_witness :
  let words := split (lit "The quick brown fox jumps over the lazy dog") in
  Forall (fun w => w <> [] /\ ~ In space w) words
  /\ join [space] (splitWordsBySize words 15) = join [space] words
  /\ flat_map (split_on space) (splitWordsBySize words 15) = words
  /\ Forall (fun c => c <> []) (splitWordsBySize words 15).
Proof.
  assert (H : Forall (fun w => w <> [] /\ ~ In space w)
                (split (lit "The quick brown fox jumps over the lazy dog"))).
  { apply spaceless_words_check. vm_compute. reflexivity. }
  split; [exact H|].
  exact (splitWordsBySize_lossless _ 15 H).
Defined.

(** ** cleanWord *)

Lemma filter_idempotent {A : Type} (f : A -> bool) (l : list A) :
  filter f (filter f l) = filter f l.
Proof.
  induction l as [|a l IH]; [reflexivity|].
  simpl. destruct (f a) eqn:E; [|exact IH].
  simpl. now rewrite E, IH.
Qed.

(** C8. [cleanWord] is idempotent, and the characters of [cleanWord s] are
    the characters of [s] that are a word character, whitespace, the
    hyphen, the underscore or a quotation mark. *)
Theorem cleanWord_idempotent (s : str) :
  cleanWord (cleanWord s) = cleanWord s
  /\ forall c, In c (cleanWord s) <->
               In c s /\ (isword c = true \/ isspace c = true \/ c = hyphen
                          \/ c = underscore \/ c = dquote \/ c = squote).
Proof.
  split; [apply filter_idempotent|].
  intro c. unfold cleanWord. rewrite filter_In. unfold kept.
  rewrite !orb_true_iff, !Ascii.eqb_eq. tauto.
Qed.


(** ** interpolateTimeFromDict *)

Lemma find_containing_some word_position d ts :
  find_containing word_position d = Some ts ->
  exists k, In (k, ts) d /\ contains word_position k.
Proof.
  induction d as [|[[s e] ts'] d IH]; simpl; [discriminate|].
  destruct ((s <=? word_position) && (word_position <? e)) eqn:E.
  - intros [= ->]. exists (s, e). split; [now left|].
    apply andb_true_iff in E. unfold contains. simpl. lia.
  - intro H. destruct (IH H) as (k & Hin & Hk). exists k. auto.
Qed.

Lemma find_containing_none word_position d :
  find_containing word_position d = None ->
  forall kv, In kv d -> ~ contains word_position (fst kv).
Proof.
  induction d as [|[[s e] ts'] d IH]; simpl; [contradiction|].
  destruct ((s <=? word_position) && (word_position <? e)) eqn:E;
    [discriminate|].
  intros H kv [<- | Hin]; [|now apply IH].
  unfold contains. simpl. apply andb_false_iff in E. lia.
Qed.

Lemma below_trans x y m : x < y -> below y m = true -> below x m = true.
Proof. destruct m as [m|]; simpl; [|reflexivity]. lia. Qed.

(** The second loop, started with a closest time and a least distance
    already found: it keeps them, or it ends on an entry of [d] that is
    strictly nearer and nearest in [d]. *)
Lemma closest_preceding_inv search_type word_position d :
  forall closest_time min_distance,
    (closest_preceding search_type word_position d closest_time min_distance
     = closest_time
     /\ forall kv, In kv d -> precedes word_position (fst kv) ->
          below (word_position - snd (fst kv)) min_distance = false)
    \/ exists kv,
         nearest_preceding word_position d kv
         /\ below (word_position - snd (fst kv)) min_distance = true
         /\ closest_preceding search_type word_position d closest_time min_distance
            = ts_get search_type (snd kv).
Proof.
  induction d as [|[[s e] ts] d IH]; intros closest_time min_distance.
  - left. simpl. split; [reflexivity|contradiction].
  - simpl. destruct (word_position >=? e) eqn:Hge.
    + destruct (below (word_position - e) min_distance) eqn:Hbelow.
      * right.
        destruct (IH (ts_get search_type ts) (Some (word_position - e)))
          as [[Heq Hnone] | (kv & (Hin & Hprec & Hmin) & Hlt & Heq)].
        -- exists ((s, e), ts). split; [|split; [exact Hbelow|exact Heq]].
           split; [now left|]. split; [unfold precedes; simpl; lia|].
           intros kv' [<- | Hin'] Hp'; simpl; [lia|].
           specialize (Hnone kv' Hin' Hp'). simpl in Hnone. lia.
        -- exists kv. simpl in Hlt. apply Z.ltb_lt in Hlt.
           split; [|split; [|exact Heq]].
           ++ split; [now right|]. split; [exact Hprec|].
              intros kv' [<- | Hin'] Hp'; simpl; [lia|now apply Hmin].
           ++ eapply below_trans; [|exact Hbelow]. lia.
      * destruct (IH closest_time min_distance)
          as [[Heq Hnone] | (kv & (Hin & Hprec & Hmin) & Hlt & Heq)].
        -- left. split; [exact Heq|].
           intros kv' [<- | Hin'] Hp'; [exact Hbelow|now apply Hnone].
        -- right. exists kv. split; [|split; [exact Hlt|exact Heq]].
           split; [now right|]. split; [exact Hprec|].
           intros kv' [<- | Hin'] Hp'; [|now apply Hmin].
           simpl. destruct min_distance as [m|]; simpl in *; [|discriminate].
           lia.
    + destruct (IH closest_time min_distance)
        as [[Heq Hnone] | (kv & (Hin & Hprec & Hmin) & Hlt & Heq)].
      * left. split; [exact Heq|].
        intros kv' [<- | Hin'] Hp'; [|now apply Hnone].
        unfold precedes in Hp'. simpl in Hp'. lia.
      * right. exists kv. split; [|split; [exact Hlt|exact Heq]].
        split; [now right|]. split; [exact Hprec|].
        intros kv' [<- | Hin'] Hp'; [|now apply Hmin].
        unfold precedes in Hp'. simpl in Hp'. lia.
Qed.

(** The lookup returns the field of the entry it selects, or [None] when
    no range contains the position or precedes it. *)
Lemma lookup_cases word_position d search_type :
  (exists kv, selected word_position d kv
              /\ interpolateTimeFromDict word_position d search_type
                 = ts_get search_type (snd kv))
  \/ ((forall kv, In kv d ->
         ~ contains word_position (fst kv) /\ ~ precedes word_position (fst kv))
      /\ interpolateTimeFromDict word_position d search_type = None).
Proof.
  unfold interpolateTimeFromDict.
  destruct d as [|kv0 d0] eqn:Hd.
  - right. simpl. auto.
  - rewrite <- Hd. replace (negb (truthy d)) with false by (subst; reflexivity).
    clear Hd kv0 d0.
    destruct (find_containing word_position d) as [ts|] eqn:Hfind.
    + left. apply find_containing_some in Hfind.
      destruct Hfind as (k & Hin & Hk). exists (k, ts).
      split; [|reflexivity]. split; [exact Hin|now left].
    + pose proof (find_containing_none _ _ Hfind) as Hno.
      destruct (closest_preceding_inv search_type word_position d None None)
        as [[Heq Hnone] | (kv & Hnear & _ & Heq)].
      * right. split; [|exact Heq].
        intros kv Hin. split; [now apply Hno|].
        intro Hp. specialize (Hnone kv Hin Hp). discriminate.
      * left. exists kv. split; [|exact Heq].
        split; [apply Hnear|]. right. auto.
Qed.

(** C5. [interpolateTimeFromDict] returns the requested field of a range
    that contains the position if there is one; otherwise the field of a
    range that ends at or before the position and is nearest to it, if
    there is one; otherwise, and on the empty index, [None]. *)
Theorem interpolateTimeFromDict_spec (word_position : Z) (d : TimeIndex)
    (search_type : string) :
  (exists kv, In kv d /\ contains word_position (fst kv)
              /\ interpolateTimeFromDict word_position d search_type
                 = ts_get search_type (snd kv))
  \/ ((forall kv, In kv d -> ~ contains word_position (fst kv))
      /\ exists kv, nearest_preceding word_position d kv
                    /\ interpolateTimeFromDict word_position d search_type
                       = ts_get search_type (snd kv))
  \/ ((forall kv, In kv d -> ~ contains word_position (fst kv))
      /\ (forall kv, In kv d -> ~ precedes word_position (fst kv))
      /\ interpolateTimeFromDict word_position d search_type = None).
Proof.
  destruct (lookup_cases word_position d search_type)
    as [(kv & [Hin [Hc | [Hno Hnear]]] & Heq) | (Hnone & Heq)].
  - left. exists kv. auto.
  - right. left. split; [exact Hno|]. exists kv. auto.
  - right. right. split; [|split; [|exact Heq]].
    + intros kv Hin. now destruct (Hnone kv Hin).
    + intros kv Hin. now destruct (Hnone kv Hin).
Qed.

(** The two lookups of the specification's example. *)
Example interpolateTimeFromDict_example :
  let index := [((0, 5), {| ts_start := 0; ts_end := 1 |})] in
  interpolateTimeFromDict 10 index "end" = Some 1%Q
  /\ interpolateTimeFromDict 3 index "end" = Some 1%Q.
Proof. split; reflexivity. Qed.


(** ** getTimestampMapping *)

Lemma dict_set_fresh d k v :
  (forall kv, In kv d -> snd (fst kv) < snd k) ->
  dict_set d k v = d ++ [(k, v)].
Proof.
  induction d as [|[k' v'] d IH]; intro Hfresh; [reflexivity|].
  simpl. pose proof (Hfresh (k', v') (or_introl eq_refl)) as Hk. simpl in Hk.
  replace (key_eqb k k') with false.
  - rewrite IH; [reflexivity|]. intros kv Hin. apply Hfresh. now right.
  - symmetry. unfold key_eqb. apply andb_false_iff. right.
    apply Z.eqb_neq. lia.
Qed.

Lemma cursor_after_ge cursor ws : cursor <= cursor_after cursor ws.
Proof.
  revert cursor. induction ws as [|[t ts] ws IH]; intro cursor; simpl; [lia|].
  specialize (IH (cursor + len t + 1)). pose proof (len_nonneg t). lia.
Qed.

Lemma record_ranges_app cursor ws ws' :
  record_ranges cursor (ws ++ ws')
  = record_ranges cursor ws ++ record_ranges (cursor_after cursor ws) ws'.
Proof.
  revert cursor. induction ws as [|[t ts] ws IH]; intro cursor; simpl;
    [reflexivity|].
  now rewrite IH.
Qed.

Lemma word_rounds_spec words :
  forall st, keys_below st ->
    fold_left word_round words st
    = (cursor_after (fst st) (usable_in words),
       snd st ++ record_ranges (fst st) (usable_in words))
    /\ keys_below (fold_left word_round words st).
Proof.
  induction words as [|word words IH]; intros [index d] Hst.
  - simpl. rewrite app_nil_r. auto.
  - assert (Hskip : usable_word word = None -> word_round (index, d) word = (index, d)).
    { unfold usable_word, word_round. destruct word as [|w]; [reflexivity|].
      destruct (word_text_of w) as [t|]; [|reflexivity].
      destruct (wt_start w); [|reflexivity].
      destruct (wt_end w); [|reflexivity].
      destruct (truthy t); [discriminate|reflexivity]. }
    assert (Huse : forall t ts, usable_word word = Some (t, ts) ->
                     word_round (index, d) word
                     = (index + len t + 1, dict_set d (index, index + len t) ts)).
    { unfold usable_word, word_round. destruct word as [|w]; [discriminate|].
      destruct (word_text_of w) as [t'|]; [|discriminate].
      destruct (wt_start w); [|discriminate].
      destruct (wt_end w); [|discriminate].
      destruct (truthy t'); [|discriminate].
      intros t ts [= <- <-]. reflexivity. }
    change (fold_left word_round (word :: words) (index, d))
      with (fold_left word_round words (word_round (index, d) word)).
    simpl usable_in. simpl fst. simpl snd.
    destruct (usable_word word) as [[t ts]|].
    + rewrite (Huse t ts eq_refl).
      rewrite dict_set_fresh.
      2:{ intros kv Hin. specialize (Hst kv Hin). simpl in *.
          pose proof (len_nonneg t). lia. }
      destruct (IH (index + len t + 1, d ++ [((index, index + len t), ts)]))
        as [Heq Hbelow].
      { intros kv Hin. simpl in *. apply in_app_iff in Hin.
        destruct Hin as [Hin | [<- | []]].
        - specialize (Hst kv Hin). simpl in Hst. pose proof (len_nonneg t). lia.
        - simpl. lia. }
      split; [|exact Hbelow].
      simpl in Heq. rewrite <- app_assoc in Heq. exact Heq.
    + rewrite (Hskip eq_refl). now apply IH.
Qed.

Lemma segment_rounds_spec segments :
  forall st, keys_below st ->
    snd (fold_left segment_round segments st)
    = snd st
      ++ record_ranges (fst st)
           (flat_map (fun segment =>
                        match seg_words segment with
                        | None => []
                        | Some words => usable_in words
                        end) segments).
Proof.
  induction segments as [|segment segments IH]; intros st Hst.
  - simpl. now rewrite app_nil_r.
  - simpl fold_left. simpl flat_map.
    assert (Hround : segment_round st segment
                     = fold_left word_round
                         (match seg_words segment with
                          | None => []
                          | Some words => words
                          end) st).
    { unfold segment_round. destruct (seg_words segment) as [[|w ws]|]; reflexivity. }
    assert (Husable : match seg_words segment with
                      | None => []
                      | Some words => usable_in words
                      end
                      = usable_in (match seg_words segment with
                                   | None => []
                                   | Some words => words
                                   end)).
    { destruct (seg_words segment); reflexivity. }
    rewrite Hround, Husable.
    destruct (word_rounds_spec
                (match seg_words segment with None => [] | Some words => words end)
                st Hst) as [Heq Hbelow].
    rewrite IH by exact Hbelow.
    rewrite Heq. simpl. rewrite record_ranges_app. now rewrite <- app_assoc.
Qed.

Lemma getTimestampMapping_ranges r :
  getTimestampMapping r = record_ranges 0 (usable_words r).
Proof.
  unfold getTimestampMapping, usable_words.
  destruct (tr_segments r) as [segments|]; [|reflexivity].
  rewrite segment_rounds_spec; [reflexivity|].
  intros kv Hin. contradiction.
Qed.

(** C6. [getTimestampMapping] records, for the usable words in order, the
    range [[cursor, cursor + len)] with the word's times, the cursor
    starting at 0 and moving on by [len + 1] after each; for the two
    timed words Hello and world the index is [[0,5)] with the times of the
    first and [[6,11)] with the times of the second. *)
Theorem getTimestampMapping_spec :
  (forall r : TranscriptionResult, getTimestampMapping r = specified_index r)
  /\ (forall (text : option pytext) (seg_end : option Q) (s1 e1 s2 e2 : Q),
        getTimestampMapping
          {| tr_text := text;
             tr_segments :=
               Some [ {| seg_end := seg_end;
                         seg_words :=
                           Some [ WordDict {| wt_text := Some (lit "Hello");
                                              wt_word := None;
                                              wt_start := Some s1;
                                              wt_end := Some e1 |};
                                  WordDict {| wt_text := None;
                                              wt_word := Some (lit "world");
                                              wt_start := Some s2;
                                              wt_end := Some e2 |} ] |} ] |}
        = [ ((0, 5), {| ts_start := s1; ts_end := e1 |});
            ((6, 11), {| ts_start := s2; ts_end := e2 |}) ]).
Proof.
  split.
  - apply getTimestampMapping_ranges.
  - intros. reflexivity.
Qed.


(** ** Whitespace *)

Lemma lstrip_nil_iff s : lstrip s = [] <-> Forall (fun c => isspace c = true) s.
Proof.
  induction s as [|c s IH]; simpl; [split; auto|].
  destruct (isspace c) eqn:E.
  - rewrite IH. split; intro H.
    + now constructor.
    + now inversion H.
  - split; [discriminate|]. intro H. inversion H. congruence.
Qed.

Lemma lstrip_blank_inv s :
  Forall (fun c => isspace c = true) (lstrip s) ->
  Forall (fun c => isspace c = true) s.
Proof.
  induction s as [|c s IH]; simpl; [auto|].
  destruct (isspace c) eqn:E; intro H.
  - constructor; auto.
  - inversion H. congruence.
Qed.

Lemma strip_nil_iff s : strip s = [] <-> Forall (fun c => isspace c = true) s.
Proof.
  unfold strip, rstrip. split.
  - intro H. apply lstrip_blank_inv.
    apply (f_equal (@rev ascii)) in H. rewrite rev_involutive in H. simpl in H.
    apply lstrip_nil_iff in H. apply Forall_rev in H.
    now rewrite rev_involutive in H.
  - intro H. apply lstrip_nil_iff in H. rewrite H. reflexivity.
Qed.

Lemma not_blank_has_text s :
  ~ Forall (fun c => isspace c = true) s -> has_text s.
Proof.
  induction s as [|c s IH]; intro H; [exfalso; apply H; constructor|].
  destruct (isspace c) eqn:E.
  - destruct IH as (x & Hin & Hx).
    + intro Hs. apply H. now constructor.
    + exists x. split; [now right|exact Hx].
  - exists c. split; [now left|exact E].
Qed.

Lemma strip_truthy_iff s : truthy (strip s) = true <-> has_text s.
Proof.
  rewrite truthy_true_iff, strip_nil_iff. split.
  - apply not_blank_has_text.
  - intros (c & Hin & Hc) Hall. rewrite Forall_forall in Hall.
    rewrite (Hall c Hin) in Hc. discriminate.
Qed.

Lemma has_text_cleanWord s : has_text (cleanWord s) -> has_text s.
Proof.
  intros (c & Hin & Hc). exists c. split; [|exact Hc].
  unfold cleanWord in Hin. now apply filter_In in Hin.
Qed.

Lemma shown_text_truthy considerPunctuation chunk :
  truthy (shown_text considerPunctuation chunk) = true ->
  truthy (strip chunk) = true.
Proof.
  unfold shown_text. rewrite !strip_truthy_iff.
  destruct considerPunctuation; [auto|apply has_text_cleanWord].
Qed.

(** ** The two loops of getCaptionsWithTime *)

Lemma estimated_loop_spec considerPunctuation d words :
  forall i pairs,
    estimated_loop considerPunctuation d i words pairs
    = pairs ++ sliced_entries considerPunctuation d i words.
Proof.
  induction words as [|chunk words IH]; intros i pairs; simpl.
  - now rewrite app_nil_r.
  - rewrite IH. fold (shown_text considerPunctuation chunk).
    destruct (truthy (shown_text considerPunctuation chunk)) eqn:E.
    + rewrite (shown_text_truthy _ _ E). now rewrite <- app_assoc.
    + destruct (truthy (strip chunk)); reflexivity.
Qed.

(** A property of the loop state that every round keeps holds when the
    loop ends. *)
Lemma timed_loop_invariant considerPunctuation index
    (Inv : nat -> loop_state -> Prop) :
  (forall i chunk st,
     Inv i st -> Inv (S i) (timed_round considerPunctuation index i chunk st)) ->
  forall words i st,
    Inv i st ->
    Inv (i + List.length words)%nat (timed_loop considerPunctuation index i words st).
Proof.
  intros Hround words. induction words as [|chunk words IH]; intros i st Hst.
  - simpl. now rewrite Nat.add_0_r.
  - simpl. rewrite <- Nat.add_succ_comm. apply IH. now apply Hround.
Qed.

(** What a round does to the list: nothing, or one entry appended whose
    start is the running start time and whose text is not empty. *)
Lemma timed_round_cases considerPunctuation index i chunk st :
  let st' := timed_round considerPunctuation index i chunk st in
  (CaptionsPairs st' = CaptionsPairs st /\ start_time st' = start_time st)
  \/ exists e text,
       text <> []
       /\ CaptionsPairs st' = CaptionsPairs st ++ [((start_time st, e), text)]
       /\ start_time st' = e.
Proof.
  unfold timed_round.
  destruct (truthy (strip chunk)); simpl; [|now left].
  set (shown := strip (if considerPunctuation then strip chunk
                       else cleanWord (strip chunk))).
  match goal with
  | |- context [match ?x with Some t => Some t | None => _ end] =>
      destruct x as [t|]; [|destruct (truthy (CaptionsPairs st))]
  end;
    simpl; destruct (truthy shown) eqn:E; simpl;
    solve [ now left
          | right; eexists _, _;
            split; [apply truthy_true_iff; exact E | split; reflexivity] ].
Qed.

(** ** Consecutive entries *)

Lemma nth_error_last_index {A : Type} (l : list A) (i : nat) (a d : A) :
  nth_error l i = Some a -> S i = List.length l -> last l d = a.
Proof.
  intros Hnth Hlen.
  destruct (exists_last (l := l)) as (l' & y & ->).
  { intros ->. discriminate. }
  rewrite last_last. rewrite length_app in Hlen. simpl in Hlen.
  assert (i = List.length l') as -> by lia.
  rewrite nth_error_app2, Nat.sub_diag in Hnth by lia.
  simpl in Hnth. congruence.
Qed.

Lemma consecutive_snoc R l x :
  consecutive R l -> (l <> [] -> R (last l no_entry) x) ->
  consecutive R (l ++ [x]).
Proof.
  intros Hl Hx i e e' Hi HSi.
  destruct (Nat.lt_trichotomy (S i) (List.length l)) as [Hlt | [Heq | Hgt]].
  - rewrite nth_error_app1 in Hi, HSi by lia. now apply (Hl i).
  - rewrite nth_error_app1 in Hi by lia.
    rewrite nth_error_app2, Heq, Nat.sub_diag in HSi by lia.
    simpl in HSi. injection HSi as <-.
    rewrite <- (nth_error_last_index l i e no_entry Hi Heq).
    apply Hx. intros ->. discriminate.
  - assert (Hnone : nth_error (l ++ [x]) (S i) = None).
    { apply nth_error_None. rewrite length_app. simpl. lia. }
    congruence.
Qed.

Lemma consecutive_cons R x l :
  consecutive R l -> (forall y, nth_error l 0 = Some y -> R x y) ->
  consecutive R (x :: l).
Proof.
  intros Hl Hx [|i] e e' Hi HSi; simpl in Hi, HSi.
  - injection Hi as <-. now apply Hx.
  - now apply (Hl i).
Qed.

Lemma starts_at_snoc t l x :
  starts_at t l -> (l = [] -> entry_start x = t) -> starts_at t (l ++ [x]).
Proof.
  intros Hl Hx e He. destruct l as [|y l].
  - simpl in He. injection He as <-. now apply Hx.
  - apply Hl. exact He.
Qed.

(** ** getCaptionsWithTime: no empty caption text *)

Lemma sliced_entries_text considerPunctuation d chunks :
  forall i,
    Forall (fun e => entry_text e <> [])
      (sliced_entries considerPunctuation d i chunks).
Proof.
  induction chunks as [|chunk chunks IH]; intro i; simpl; [constructor|].
  apply Forall_app. split; [|apply IH].
  destruct (truthy (shown_text considerPunctuation chunk)) eqn:E;
    constructor; [|constructor].
  now apply truthy_true_iff.
Qed.

(** C9. No entry of the list [getCaptionsWithTime] returns has an empty
    text, on the estimated-timing path and on the normal path alike. *)
Theorem getCaptionsWithTime_text_nonempty (wa : whisper_analysis)
    (maxCaptionSize : Z) (considerPunctuation : bool) :
  Forall (fun e => entry_text e <> [])
    (getCaptionsWithTime wa maxCaptionSize considerPunctuation).
Proof.
  unfold getCaptionsWithTime, getCaptionsWithTime_result, getCaptionsWithTime_body.
  destruct wa as [|r]; [constructor|].
  destruct (tr_text r) as [[|text]|]; try constructor.
  destruct (negb (truthy text) || negb (truthy (strip text))); [constructor|].
  destruct (negb (truthy (getTimestampMapping r))); simpl.
  - unfold estimated_captions. rewrite estimated_loop_spec.
    apply sliced_entries_text.
  - apply (timed_loop_invariant considerPunctuation (getTimestampMapping r)
             (fun _ st => Forall (fun e => entry_text e <> []) (CaptionsPairs st))).
    + intros i chunk st Hst.
      destruct (timed_round_cases considerPunctuation (getTimestampMapping r)
                  i chunk st) as [[-> _] | (e & shown & Htext & -> & _)];
        [exact Hst|].
      apply Forall_app. split; [exact Hst|]. now repeat constructor.
    + constructor.
Qed.

(** ** getCaptionsWithTime: blank text, and no exception *)

(** The body does raise: on a value that is not a dict, and on a dict
    without the key [text]. *)
Example getCaptionsWithTime_body_raises :
  getCaptionsWithTime_body NotADict 15 false
  = Raise (ValueError "Invalid whisper_analysis")
  /\ getCaptionsWithTime_body
       (Analysis {| tr_text := None; tr_segments := None |}) 15 false
     = Raise (ValueError "No 'text' field in whisper_analysis").
Proof. split; reflexivity. Qed.

(** C7. [getCaptionsWithTime] always returns a list (the handler turns
    every exception of the body into the empty list), and it returns the
    empty list whenever the text is absent, [None], empty or whitespace
    only, whatever the segments hold, and on a value that is not a
    dict. *)
Theorem getCaptionsWithTime_blank_text :
  (forall wa maxCaptionSize considerPunctuation,
     getCaptionsWithTime_result wa maxCaptionSize considerPunctuation
     = Return (getCaptionsWithTime wa maxCaptionSize considerPunctuation))
  /\ (forall r maxCaptionSize considerPunctuation,
        text_blank r ->
        getCaptionsWithTime (Analysis r) maxCaptionSize considerPunctuation = [])
  /\ (forall maxCaptionSize considerPunctuation,
        getCaptionsWithTime NotADict maxCaptionSize considerPunctuation = []).
Proof.
  split; [|split].
  - intros wa m p. unfold getCaptionsWithTime, getCaptionsWithTime_result.
    destruct (getCaptionsWithTime_body wa m p); reflexivity.
  - intros r m p Hblank.
    unfold getCaptionsWithTime, getCaptionsWithTime_result, getCaptionsWithTime_body.
    unfold text_blank in Hblank.
    destruct (tr_text r) as [[|text]|]; try reflexivity.
    apply strip_nil_iff in Hblank. rewrite Hblank.
    simpl. now rewrite orb_true_r.
  - reflexivity.
Qed.

(** A whitespace-only text over a segment with a timed word. *)
Lemma getCaptionsWithTime_blank_text_witness :
  let r := {| tr_text := Some (TextStr (lit "   "));
              tr_segments :=
                Some [ {| seg_end := Some 2%Q;
                          seg_words :=
                            Some [ WordDict {| wt_text := Some (lit "Hello");
                                               wt_word := None;
                                               wt_start := Some 0%Q;
                                               wt_end := Some 1%Q |} ] |} ] |} in
  text_blank r /\ getCaptionsWithTime (Analysis r) 15 false = [].
Proof.
  assert (H : text_blank
                {| tr_text := Some (TextStr (lit "   "));
                   tr_segments :=
                     Some [ {| seg_end := Some 2%Q;
                               seg_words :=
                                 Some [ WordDict {| wt_text := Some (lit "Hello");
                                                    wt_word := None;
                                                    wt_start := Some 0%Q;
                                                    wt_end := Some 1%Q |} ] |} ] |}).
  { simpl. repeat constructor. }
  split; [exact H|].
  exact (proj1 (proj2 getCaptionsWithTime_blank_text) _ 15 false H).
Defined.

(** ** getCaptionsWithTime: contiguity on the normal path *)

(** The state of the loop of the normal path: the entries so far are
    contiguous from 0, and the running start time is the end of the last
    one. *)
Lemma timed_loop_contiguous considerPunctuation index words :
  let st := timed_loop considerPunctuation index 0 words
              {| text_position := 0; start_time := 0%Q; CaptionsPairs := [] |} in
  consecutive (fun e e' => entry_end e = entry_start e') (CaptionsPairs st)
  /\ starts_at 0%Q (CaptionsPairs st)
  /\ start_time st = entry_end (last (CaptionsPairs st) no_entry).
Proof.
  apply (timed_loop_invariant considerPunctuation index
           (fun _ st =>
              consecutive (fun e e' => entry_end e = entry_start e') (CaptionsPairs st)
              /\ starts_at 0%Q (CaptionsPairs st)
              /\ start_time st = entry_end (last (CaptionsPairs st) no_entry))).
  - intros i chunk st (Hcons & Hfirst & Hstart).
    destruct (timed_round_cases considerPunctuation index i chunk st)
      as [[-> ->] | (e & text & Htext & -> & ->)]; [auto|].
    split; [|split].
    + apply consecutive_snoc; [exact Hcons|]. intros _. now rewrite <- Hstart.
    + apply starts_at_snoc; [exact Hfirst|]. intros Hnil.
      rewrite Hnil in Hstart. exact Hstart.
    + now rewrite last_last.
  - simpl. split; [|split; [|reflexivity]].
    + intros [|i] e e' H; discriminate.
    + intros e H. discriminate.
Qed.

(** C3. On the normal path (the time index is not empty) the entries are
    contiguous: each entry ends where the next one starts, and the first
    entry starts at 0. *)
Theorem getCaptionsWithTime_contiguous (r : TranscriptionResult)
    (maxCaptionSize : Z) (considerPunctuation : bool) :
  getTimestampMapping r <> [] ->
  let entries := getCaptionsWithTime (Analysis r) maxCaptionSize considerPunctuation in
  (forall i e e',
     nth_error entries i = Some e -> nth_error entries (S i) = Some e' ->
     entry_end e = entry_start e')
  /\ (forall e, nth_error entries 0 = Some e -> entry_start e = 0%Q).
Proof.
  intros Hindex entries. subst entries.
  unfold getCaptionsWithTime, getCaptionsWithTime_result, getCaptionsWithTime_body.
  destruct (tr_text r) as [[|text]|];
    try (split; [intros [|i] e e' H | intros e H]; discriminate).
  destruct (negb (truthy text) || negb (truthy (strip text)));
    try (split; [intros [|i] e e' H | intros e H]; discriminate).
  apply truthy_true_iff in Hindex. rewrite Hindex. simpl.
  destruct (timed_loop_contiguous considerPunctuation (getTimestampMapping r)
              (caption_chunks maxCaptionSize considerPunctuation (strip text)))
    as (Hcons & Hfirst & _).
  split; [exact Hcons|exact Hfirst].
Qed.

(** The end-to-end example of the specification on the normal path. *)
Lemma getCaptionsWithTime_contiguous_witness :
  let entries := getCaptionsWithTime (Analysis quick_brown_fox) 15 false in
  getTimestampMapping quick_brown_fox <> []
  /\ (forall i e e',
        nth_error entries i = Some e -> nth_error entries (S i) = Some e' ->
        entry_end e = entry_start e')
  /\ (forall e, nth_error entries 0 = Some e -> entry_start e = 0%Q).
Proof.
  assert (H : getTimestampMapping quick_brown_fox <> []).
  { vm_compute. discriminate. }
  split; [exact H|].
  exact (getCaptionsWithTime_contiguous quick_brown_fox 15 false H).
Defined.

(** The entries of that example: five chunks, each ending with the last
    word it holds. *)
Example getCaptionsWithTime_quick_brown_fox :
  getCaptionsWithTime (Analysis quick_brown_fox) 15 false
  = [ ((0%Q, (6 # 10)%Q), lit "The quick");
      (((6 # 10)%Q, (12 # 10)%Q), lit "brown fox");
      (((12 # 10)%Q, (18 # 10)%Q), lit "jumps over");
      (((18 # 10)%Q, (24 # 10)%Q), lit "the lazy");
      (((24 # 10)%Q, (27 # 10)%Q), lit "dog") ].
Proof. reflexivity. Qed.

(** ** Words, sentences and chunks of a text that is not blank *)

Lemma in_lstrip x s : In x s -> isspace x = false -> In x (lstrip s).
Proof.
  intros Hin Hx. induction s as [|c s IH]; [contradiction|].
  simpl. destruct (isspace c) eqn:E; [|exact Hin].
  destruct Hin as [-> | Hin]; [congruence|auto].
Qed.

Lemma in_strip x s : In x s -> isspace x = false -> In x (strip s).
Proof.
  intros Hin Hx. unfold strip, rstrip.
  rewrite <- in_rev. apply in_lstrip; [|exact Hx].
  rewrite <- in_rev. now apply in_lstrip.
Qed.

Lemma has_text_strip s : has_text s -> has_text (strip s).
Proof. intros (x & Hin & Hx). exists x. split; [now apply in_strip|exact Hx]. Qed.

Lemma split_from_words s :
  forall cur,
    Forall (fun c => isspace c = false) cur ->
    Forall (fun w => w <> [] /\ Forall (fun c => isspace c = false) w)
      (split_from cur s).
Proof.
  induction s as [|c s IH]; intros cur Hcur; simpl.
  - destruct cur; simpl; constructor; [|constructor].
    split; [discriminate|exact Hcur].
  - destruct (isspace c) eqn:E.
    + destruct cur as [|a cur]; simpl; [now apply IH|].
      constructor; [|now apply IH]. split; [discriminate|exact Hcur].
    + apply IH. apply Forall_app. split; [exact Hcur|now repeat constructor].
Qed.

Lemma split_from_nonempty s :
  forall cur, cur <> [] \/ has_text s -> split_from cur s <> [].
Proof.
  induction s as [|c s IH]; intros cur H; simpl.
  - destruct H as [H | (x & [] & _)]. destruct cur; [congruence|discriminate].
  - destruct (isspace c) eqn:E.
    + destruct cur as [|a cur]; simpl; [|discriminate].
      apply IH. right. destruct H as [H | (x & [-> | Hin] & Hx)];
        [congruence|congruence|].
      now exists x.
    + apply IH. left. now destruct cur.
Qed.

Lemma split_has_text s : Forall has_text (split s).
Proof.
  eapply Forall_impl; [|apply (split_from_words s []); constructor].
  intros w [Hne Hw]. destruct w as [|c w]; [congruence|].
  exists c. split; [now left|]. now inversion Hw.
Qed.

Lemma splitWordsBySize_nonempty words maxCaptionSize :
  words <> [] -> splitWordsBySize words maxCaptionSize <> [].
Proof.
  destruct words as [|w rest]; [congruence|]. intros _.
  rewrite splitWordsBySize_cons. discriminate.
Qed.

(** A chunk of words that have text has text. *)
Lemma splitWordsBySize_has_text words maxCaptionSize :
  Forall has_text words ->
  Forall has_text (splitWordsBySize words maxCaptionSize).
Proof.
  intro Hwords.
  destruct (splitWordsBySize_groups maxCaptionSize words)
    as (groups & Hcat & Hall & ->).
  rewrite <- Hcat in Hwords. apply Forall_concat_inv in Hwords.
  rewrite Forall_forall in Hwords, Hall.
  apply Forall_forall. intros c Hc.
  apply in_map_iff in Hc. destruct Hc as (g & <- & Hg).
  destruct (Hall g Hg) as [Hne _]. specialize (Hwords g Hg).
  destruct g as [|w g]; [congruence|].
  inversion Hwords as [|? ? (x & Hin & Hx) _]; subst.
  exists x. split; [|exact Hx].
  rewrite join_head_tail. apply in_or_app. now left.
Qed.

(** Every character of the text that is not the space is in one of the
    pieces of the sentence split. *)
Lemma re_split_from_covers s x :
  forall in_gap after_end cur,
    In x cur \/ (In x s /\ x <> space) ->
    exists piece, In piece (re_split_from in_gap after_end cur s) /\ In x piece.
Proof.
  induction s as [|c s IH]; intros in_gap after_end cur H.
  - simpl. destruct H as [H | [[] _]]. exists cur. split; [now left|exact H].
  - simpl. destruct (Ascii.eqb c space) eqn:E.
    + apply Ascii.eqb_eq in E. subst c.
      assert (Hrest : In x cur \/ (In x s /\ x <> space)).
      { destruct H as [H | [[<- | Hin] Hx]]; [now left|congruence|now right]. }
      destruct in_gap; [now apply IH|].
      destruct after_end.
      * destruct Hrest as [Hcur | Hs].
        -- exists cur. split; [now left|exact Hcur].
        -- destruct (IH true false [] (or_intror Hs)) as (piece & Hp & Hx).
           exists piece. split; [now right|exact Hx].
      * apply IH. destruct Hrest as [Hcur | Hs]; [left|now right].
        apply in_or_app. now left.
    + apply IH. destruct H as [H | [[<- | Hin] Hx]].
      * left. apply in_or_app. now left.
      * left. apply in_or_app. right. now left.
      * now right.
Qed.

Lemma caption_chunks_nonempty maxCaptionSize considerPunctuation text :
  has_text text -> caption_chunks maxCaptionSize considerPunctuation text <> [].
Proof.
  intros Htext. unfold caption_chunks. destruct considerPunctuation.
  - destruct Htext as (x & Hin & Hx).
    destruct (re_split_from_covers text x false false [])
      as (piece & Hpiece & Hxp).
    { right. split; [exact Hin|]. intros ->. discriminate. }
    assert (Hchunks : splitWordsBySize (split piece) maxCaptionSize <> []).
    { apply splitWordsBySize_nonempty, split_from_nonempty.
      right. now exists x. }
    destruct (splitWordsBySize (split piece) maxCaptionSize) as [|c cs] eqn:E;
      [congruence|].
    intro Hnil.
    assert (Hc : In c (flat_map
                         (fun sentence => splitWordsBySize (split sentence) maxCaptionSize)
                         (re_split_sentences text))).
    { apply in_flat_map. exists piece. split; [exact Hpiece|].
      rewrite E. now left. }
    rewrite Hnil in Hc. contradiction.
  - apply splitWordsBySize_nonempty, split_from_nonempty. now right.
Qed.

Lemma caption_chunks_has_text maxCaptionSize considerPunctuation text :
  Forall has_text (caption_chunks maxCaptionSize considerPunctuation text).
Proof.
  unfold caption_chunks. destruct considerPunctuation.
  - apply Forall_forall. intros c Hc. apply in_flat_map in Hc.
    destruct Hc as (piece & _ & Hc).
    pose proof (splitWordsBySize_has_text _ maxCaptionSize (split_has_text piece)) as H.
    rewrite Forall_forall in H. now apply H.
  - apply splitWordsBySize_has_text, split_has_text.
Qed.

(** ** Rounding *)

Lemma nearest_even_cases m :
  nearest_even m = Qfloor m \/ nearest_even m = Qfloor m + 1.
Proof.
  unfold nearest_even.
  destruct (m - inject_Z (Qfloor m) ?= 1 # 2)%Q; auto.
  destruct (Z.even (Qfloor m)); auto.
Qed.

Lemma nearest_even_int k : nearest_even (inject_Z k) = k.
Proof.
  unfold nearest_even. rewrite Qfloor_Z.
  replace (inject_Z k - inject_Z k ?= 1 # 2)%Q with Lt; [reflexivity|].
  symmetry. apply Qlt_alt. setoid_replace (inject_Z k - inject_Z k)%Q with 0%Q by ring.
  reflexivity.
Qed.

Lemma nearest_even_le a b : (a <= b)%Q -> nearest_even a <= nearest_even b.
Proof.
  intro Hab. pose proof (Qfloor_resp_le _ _ Hab) as Hfloor.
  destruct (Z.eq_dec (Qfloor a) (Qfloor b)) as [Heq|Hne].
  - unfold nearest_even. rewrite <- Heq.
    assert (Hr : (a - inject_Z (Qfloor a) <= b - inject_Z (Qfloor a))%Q) by lra.
    destruct (Qcompare_spec (a - inject_Z (Qfloor a)) (1 # 2)) as [Ha|Ha|Ha];
      destruct (Qcompare_spec (b - inject_Z (Qfloor a)) (1 # 2)) as [Hb|Hb|Hb];
      try destruct (Z.even (Qfloor a)); try lia; exfalso; lra.
  - destruct (nearest_even_cases a) as [-> | ->];
      destruct (nearest_even_cases b) as [-> | ->]; lia.
Qed.

Lemma inject_Z_pos z : 0 < z -> (0 < inject_Z z)%Q.
Proof. intro H. unfold Qlt. simpl. lia. Qed.

Lemma pow2_pos e : (0 < 2 ^ e)%Q.
Proof. now apply Qpower_0_lt. Qed.

Lemma pow2_le a b : a <= b -> (2 ^ a <= 2 ^ b)%Q.
Proof. intro H. apply Qpower_le_compat_l; [exact H|discriminate]. Qed.

Lemma pow2_lt_inv a b : (2 ^ a < 2 ^ b)%Q -> a < b.
Proof. intro H. apply (Qpower_lt_compat_l_inv 2); [exact H|reflexivity]. Qed.

Lemma pow2_int e : 0 <= e -> (2 ^ e == inject_Z (2 ^ e))%Q.
Proof. intro H. now rewrite Zpower_Qpower. Qed.

Lemma pow2_quotient a b : (2 ^ a / 2 ^ b == 2 ^ (a - b))%Q.
Proof. rewrite Qpower_minus; [reflexivity|discriminate]. Qed.

(** A positive rational lies in its binade. *)
Lemma binade_spec x :
  (0 < x)%Q -> (2 ^ binade x <= x < 2 ^ (binade x + 1))%Q.
Proof.
  intro Hx. unfold binade.
  set (n := Qnum x). set (d := Zpos (Qden x)).
  assert (Hn : 0 < n).
  { unfold Qlt in Hx. simpl in Hx. subst n. lia. }
  assert (Hd : 0 < d) by (subst d; lia).
  destruct (Z.log2_spec n Hn) as [Hn1 Hn2].
  destruct (Z.log2_spec d Hd) as [Hd1 Hd2].
  pose proof (Z.log2_nonneg n) as Hln. pose proof (Z.log2_nonneg d) as Hld.
  set (a := Z.log2 n) in *. set (b := Z.log2 d) in *.
  assert (Hxnd : (x == inject_Z n / inject_Z d)%Q).
  { subst n d. destruct x as [xn xd]. simpl. unfold Qeq, Qdiv, Qmult, Qinv, inject_Z.
    simpl. lia. }
  assert (Hdq : (0 < inject_Z d)%Q) by now apply inject_Z_pos.
  assert (Hup : (x < 2 ^ (a - b + 1))%Q).
  { replace (a - b + 1) with (Z.succ a - b) by lia.
    rewrite <- pow2_quotient, (pow2_int (Z.succ a)), (pow2_int b) by lia.
    rewrite Hxnd. apply Qlt_shift_div_l.
    - apply inject_Z_pos. lia.
    - unfold Qdiv. rewrite <- Qmult_assoc, (Qmult_comm (/ inject_Z d)), Qmult_assoc.
      apply Qlt_shift_div_r; [exact Hdq|].
      rewrite <- !inject_Z_mult, <- Zlt_Qlt. nia. }
  assert (Hlow : (2 ^ (a - b - 1) <= x)%Q).
  { replace (a - b - 1) with (a - Z.succ b) by lia.
    rewrite <- pow2_quotient, (pow2_int a), (pow2_int (Z.succ b)) by lia.
    rewrite Hxnd. apply Qle_shift_div_r.
    - apply inject_Z_pos. lia.
    - unfold Qdiv. rewrite <- Qmult_assoc, (Qmult_comm (/ inject_Z d)), Qmult_assoc.
      apply Qle_shift_div_l; [exact Hdq|].
      rewrite <- !inject_Z_mult, <- Zle_Qle. nia. }
  destruct (Qle_bool (2 ^ (a - b)) x) eqn:E.
  - apply Qle_bool_iff in E. split; [exact E|exact Hup].
  - split; [exact Hlow|].
    replace (a - b - 1 + 1) with (a - b) by lia.
    destruct (Qlt_le_dec x (2 ^ (a - b))) as [H|H]; [exact H|].
    apply Qle_bool_iff in H. congruence.
Qed.

Lemma binade_le x y : (0 < x)%Q -> (x <= y)%Q -> binade x <= binade y.
Proof.
  intros Hx Hxy.
  assert (Hy : (0 < y)%Q) by lra.
  destruct (binade_spec x Hx) as [H1 _]. destruct (binade_spec y Hy) as [_ H2].
  assert (H : binade x < binade y + 1).
  { apply pow2_lt_inv. apply (Qle_lt_trans _ _ _ H1), (Qle_lt_trans _ _ _ Hxy), H2. }
  lia.
Qed.

Lemma scale_le x y e : (x <= y)%Q -> (x / 2 ^ e <= y / 2 ^ e)%Q.
Proof.
  intro H. unfold Qdiv. apply Qmult_le_compat_r; [exact H|].
  apply Qlt_le_weak, Qinv_lt_0_compat, pow2_pos.
Qed.

Lemma round_positive_nonneg x : (0 <= x)%Q -> (0 <= round_positive x)%Q.
Proof.
  intro Hx. unfold round_positive.
  apply Qmult_le_0_compat; [|apply Qlt_le_weak, pow2_pos].
  change 0%Q with (inject_Z 0). rewrite <- Zle_Qle.
  rewrite <- (nearest_even_int 0). apply nearest_even_le.
  apply Qle_shift_div_l; [apply pow2_pos|].
  change (inject_Z 0) with 0%Q. rewrite Qmult_0_l. exact Hx.
Qed.

Lemma round_positive_le x y :
  (0 < x)%Q -> (x <= y)%Q -> (round_positive x <= round_positive y)%Q.
Proof.
  intros Hx Hxy. assert (Hy : (0 < y)%Q) by lra.
  pose proof (binade_le x y Hx Hxy) as Hb.
  unfold round_positive.
  destruct (Z.eq_dec (last_place x) (last_place y)) as [Heq|Hne].
  - rewrite Heq. apply Qmult_le_compat_r; [|apply Qlt_le_weak, pow2_pos].
    rewrite <- Zle_Qle. apply nearest_even_le, scale_le, Hxy.
  - assert (Hey : last_place y = binade y - 52) by (unfold last_place in *; lia).
    assert (Hbx : binade x + 1 <= binade y) by (unfold last_place in *; lia).
    assert (Hex : last_place x <= binade y) by (unfold last_place in *; lia).
    destruct (binade_spec x Hx) as [_ Hx2]. destruct (binade_spec y Hy) as [Hy1 _].
    apply (Qle_trans _ (2 ^ binade y)).
    + (* the rounded x is not above the lower end of the binade of y *)
      assert (Hxb : (x <= 2 ^ binade y)%Q).
      { apply Qlt_le_weak, (Qlt_le_trans _ _ _ Hx2), pow2_le, Hbx. }
      assert (Hm : nearest_even (x / 2 ^ last_place x)
                   <= 2 ^ (binade y - last_place x)).
      { rewrite <- (nearest_even_int (2 ^ (binade y - last_place x))).
        apply nearest_even_le.
        rewrite <- pow2_int, <- pow2_quotient by lia. now apply scale_le. }
      rewrite Zle_Qle in Hm. rewrite <- pow2_int in Hm by lia.
      apply (Qmult_le_compat_r _ _ (2 ^ last_place x)) in Hm;
        [|apply Qlt_le_weak, pow2_pos].
      eapply Qle_trans; [exact Hm|].
      rewrite <- Qpower_plus by discriminate.
      replace (binade y - last_place x + last_place x) with (binade y) by lia.
      apply Qle_refl.
    + assert (Hm : 2 ^ 52 <= nearest_even (y / 2 ^ last_place y)).
      { rewrite <- (nearest_even_int (2 ^ 52)) at 1.
        apply nearest_even_le.
        rewrite <- pow2_int by lia.
        replace 52 with (binade y - last_place y) by lia.
        rewrite <- pow2_quotient. now apply scale_le. }
      rewrite Zle_Qle in Hm. rewrite <- pow2_int in Hm by lia.
      apply (Qmult_le_compat_r _ _ (2 ^ last_place y)) in Hm;
        [|apply Qlt_le_weak, pow2_pos].
      eapply Qle_trans; [|exact Hm].
      rewrite <- Qpower_plus by discriminate.
      replace (52 + last_place y) with (binade y) by lia.
      apply Qle_refl.
Qed.

Lemma fl_sign x :
  match Qnum x with
  | Z0 => (x == 0)%Q /\ fl x = 0%Q
  | Zpos _ => (0 < x)%Q /\ (fl x == round_positive x)%Q
  | Zneg _ => (x < 0)%Q /\ (fl x == - round_positive (- x))%Q
  end.
Proof.
  unfold fl. destruct x as [[|p|p] d]; cbn [Qnum].
  - split; reflexivity.
  - split; [reflexivity|apply Qred_correct].
  - split; [reflexivity|apply Qred_correct].
Qed.

(** Rounding keeps the order. *)
Lemma fl_le x y : (x <= y)%Q -> (fl x <= fl y)%Q.
Proof.
  intro Hxy. pose proof (fl_sign x) as Hx. pose proof (fl_sign y) as Hy.
  destruct (Qnum x); destruct (Qnum y);
    destruct Hx as [Hx Hfx]; destruct Hy as [Hy Hfy]; rewrite ?Hfx, ?Hfy;
    try (exfalso; lra).
  - apply Qle_refl.
  - apply round_positive_nonneg. lra.
  - apply round_positive_le; assumption.
  - assert (H : (0 <= round_positive (- x))%Q) by (apply round_positive_nonneg; lra).
    lra.
  - assert (H : (0 <= round_positive (- x))%Q) by (apply round_positive_nonneg; lra).
    assert (H' : (0 <= round_positive y)%Q) by (apply round_positive_nonneg; lra).
    lra.
  - assert (H : (round_positive (- y) <= round_positive (- x))%Q)
      by (apply round_positive_le; lra).
    lra.
Qed.

Lemma fl_nonneg x : (0 <= x)%Q -> (0 <= fl x)%Q.
Proof. intro H. change 0%Q with (fl 0) at 1. now apply fl_le. Qed.

Lemma fl_comp x y : (x == y)%Q -> (fl x == fl y)%Q.
Proof.
  intro H. apply Qle_antisym; apply fl_le; rewrite H; apply Qle_refl.
Qed.

(** ** The rounding error *)

Lemma nearest_even_upper m : (inject_Z (nearest_even m) <= m + (1 # 2))%Q.
Proof.
  unfold nearest_even. pose proof (Qfloor_le m) as Hf.
  destruct (Qcompare_spec (m - inject_Z (Qfloor m)) (1 # 2)) as [H|H|H].
  - destruct (Z.even (Qfloor m)); [lra|]. rewrite inject_Z_plus.
    change (inject_Z 1) with 1%Q. lra.
  - lra.
  - rewrite inject_Z_plus. change (inject_Z 1) with 1%Q. lra.
Qed.

Lemma nearest_even_lower m : (m - (1 # 2) <= inject_Z (nearest_even m))%Q.
Proof.
  unfold nearest_even. pose proof (Qlt_floor m) as Hf.
  rewrite inject_Z_plus in Hf. change (inject_Z 1) with 1%Q in Hf.
  destruct (Qcompare_spec (m - inject_Z (Qfloor m)) (1 # 2)) as [H|H|H].
  - destruct (Z.even (Qfloor m)); [lra|]. rewrite inject_Z_plus.
    change (inject_Z 1) with 1%Q. lra.
  - lra.
  - rewrite inject_Z_plus. change (inject_Z 1) with 1%Q. lra.
Qed.

(** The last place of the binade of [x] is at most [x * 2^-52], or it is
    [2^-1074]. *)
Lemma last_place_le x :
  (0 < x)%Q -> (2 ^ last_place x <= x * (1 # 2 ^ 52) + 2 ^ (-1074))%Q.
Proof.
  intro Hx. destruct (binade_spec x Hx) as [Hb _].
  pose proof (pow2_pos (-1074)) as Hmin.
  pose proof (pow2_pos (binade x - 52)) as Hnorm.
  assert (Hscale : (2 ^ (binade x - 52) == 2 ^ binade x * (1 # 2 ^ 52))%Q).
  { unfold Z.sub. rewrite Qpower_plus by discriminate. reflexivity. }
  assert (Hle : (2 ^ (binade x - 52) <= x * (1 # 2 ^ 52))%Q).
  { rewrite Hscale. apply Qmult_le_compat_r; [exact Hb|discriminate]. }
  unfold last_place.
  destruct (Z.max_spec (binade x - 52) (-1074)) as [[_ ->] | [_ ->]].
  - set (m := (2 ^ (-1074))%Q) in *. clearbody m.
    assert (0 <= x * (1 # 2 ^ 52))%Q by (apply Qmult_le_0_compat; [lra|discriminate]).
    lra.
  - set (m := (2 ^ (-1074))%Q) in *. clearbody m.
    set (p := (2 ^ (binade x - 52))%Q) in *. clearbody p. lra.
Qed.

Lemma round_positive_near x :
  (0 < x)%Q ->
  (x - 2 ^ last_place x * (1 # 2) <= round_positive x
   <= x + 2 ^ last_place x * (1 # 2))%Q.
Proof.
  intro Hx. unfold round_positive.
  pose proof (pow2_pos (last_place x)) as Hp.
  set (p := (2 ^ last_place x)%Q) in *.
  pose proof (nearest_even_upper (x / p)) as Hup.
  pose proof (nearest_even_lower (x / p)) as Hlow.
  set (k := inject_Z (nearest_even (x / p))) in *. clearbody k.
  assert (Hx' : (x == x / p * p)%Q).
  { unfold Qdiv. rewrite <- Qmult_assoc, (Qmult_comm (/ p)), Qmult_inv_r; [ring|].
    intro H. rewrite H in Hp. discriminate. }
  apply (Qmult_le_compat_r _ _ p) in Hup; [|lra].
  apply (Qmult_le_compat_r _ _ p) in Hlow; [|lra].
  set (q := (x / p)%Q) in *. clearbody q. clearbody p.
  split; nra.
Qed.

(** The relative error of rounding is at most [2^-53], but for an absolute
    error of [2^-1075] near zero. *)
Lemma fl_near x :
  (0 <= x)%Q ->
  (x * (1 - (1 # 2 ^ 53)) - 2 ^ (-1075) <= fl x
   <= x * (1 + (1 # 2 ^ 53)) + 2 ^ (-1075))%Q.
Proof.
  intro Hx. pose proof (fl_sign x) as Hs.
  assert (Heta : (2 ^ (-1074) * (1 # 2) == 2 ^ (-1075))%Q) by reflexivity.
  pose proof (pow2_pos (-1075)) as Hpos.
  destruct (Qnum x); destruct Hs as [Hs Hfl]; [| |exfalso; lra].
  - rewrite Hfl, Hs. set (eta := (2 ^ (-1075))%Q) in *. clearbody eta.
    change (1 # 2 ^ 53)%Q with (1 # 9007199254740992)%Q. lra.
  - rewrite Hfl.
    pose proof (round_positive_near x Hs) as [Hlow Hup].
    pose proof (last_place_le x Hs) as Hp.
    set (w := (2 ^ last_place x)%Q) in *. clearbody w.
    set (r := round_positive x) in *. clearbody r.
    set (eta := (2 ^ (-1075))%Q) in *.
    set (eta' := (2 ^ (-1074))%Q) in *. clearbody eta eta'.
    change (1 # 2 ^ 52)%Q with (1 # 4503599627370496)%Q in Hp.
    change (1 # 2 ^ 53)%Q with (1 # 9007199254740992)%Q.
    split; lra.
Qed.


Lemma fl_1 : fl 1 = 1%Q.
Proof. reflexivity. Qed.

Lemma float_of_int_ge_1 n : 1 <= n -> (1 <= float_of_int n)%Q.
Proof.
  intro H. unfold float_of_int. rewrite <- fl_1 at 1. apply fl_le.
  change 1%Q with (inject_Z 1). now rewrite <- Zle_Qle.
Qed.

(** A sum of slices, computed as the code does, against the total: the
    product of the number of slices and the rounded quotient is the
    total, up to the rounding of the quotient and of the product. *)
Lemma slices_near_total (total : Q) (n : Z) :
  (0 <= total)%Q -> 1 <= n ->
  let d := fdiv total (float_of_int n) in
  (total * (1 - (1 # 2 ^ 51)) - inject_Z n * 2 ^ (-1072)
   <= fmul (float_of_int n) d
   <= total * (1 + (1 # 2 ^ 51)) + inject_Z n * 2 ^ (-1072))%Q.
Proof.
  intros Htotal Hn d. subst d. unfold fmul, fdiv.
  pose proof (float_of_int_ge_1 n Hn) as HF1.
  assert (Hn' : (1 <= inject_Z n)%Q).
  { change 1%Q with (inject_Z 1). now rewrite <- Zle_Qle. }
  assert (Heta : (2 ^ (-1075) <= 1 # 2)%Q) by (now apply (pow2_le (-1075) (-1))).
  assert (Heta8 : (2 ^ (-1072) == 8 * 2 ^ (-1075))%Q) by reflexivity.
  pose proof (pow2_pos (-1075)) as Hpos.
  assert (HF2 : (float_of_int n <= 2 * inject_Z n)%Q).
  { unfold float_of_int.
    destruct (fl_near (inject_Z n)) as [_ H]; [lra|].
    change (1 # 2 ^ 53)%Q with (1 # 9007199254740992)%Q in H.
    set (eta := (2 ^ (-1075))%Q) in *. clearbody eta. lra. }
  set (F := float_of_int n) in *. clearbody F.
  set (q := (total / F)%Q).
  assert (Hq : (F * q == total)%Q).
  { subst q. apply Qmult_div_r. intro H. lra. }
  assert (Hq0 : (0 <= q)%Q).
  { subst q. apply Qle_shift_div_l; [lra|]. now rewrite Qmult_0_l. }
  destruct (fl_near q Hq0) as [Hd1 Hd2].
  pose proof (fl_nonneg q Hq0) as Hd0.
  set (d := fl q) in *. clearbody d.
  assert (HP0 : (0 <= F * d)%Q) by (apply Qmult_le_0_compat; lra).
  destruct (fl_near (F * d) HP0) as [He1 He2].
  set (e := fl (F * d)) in *. clearbody e.
  rewrite Heta8.
  change (1 # 2 ^ 53)%Q with (1 # 9007199254740992)%Q in *.
  change (1 # 2 ^ 51)%Q with (1 # 2251799813685248)%Q.
  set (eta := (2 ^ (-1075))%Q) in *. clearbody eta.
  set (m := inject_Z n) in *. clearbody m. clearbody q.
  assert (Hup : (F * d <= total * (1 + (1 # 9007199254740992)) + F * eta)%Q).
  { rewrite <- Hq. nra. }
  assert (Hlow : (total * (1 - (1 # 9007199254740992)) - F * eta <= F * d)%Q).
  { rewrite <- Hq. nra. }
  set (P := (F * d)%Q) in *. clearbody P.
  clear Heta8.
  setoid_replace (m * (8 * eta))%Q with (8 * (m * eta))%Q by ring.
  assert (HFe : (F * eta <= 2 * (m * eta))%Q) by nra.
  assert (Hme : (eta <= m * eta)%Q) by nra.
  set (Fe := (F * eta)%Q) in *. clearbody Fe.
  set (me := (m * eta)%Q) in *. clearbody me.
  split; lra.
Qed.

Lemma float_of_len_pos {A : Type} (l : list A) :
  l <> [] -> (0 < float_of_int (len l))%Q.
Proof.
  intro Hl. unfold float_of_int.
  apply (Qlt_le_trans _ 1); [reflexivity|].
  change 1%Q with (fl 1). apply fl_le.
  change 1%Q with (inject_Z 1). rewrite <- Zle_Qle.
  unfold len. destruct l; [congruence|]. simpl List.length. lia.
Qed.

(** A slice of a duration that is not negative does not end before it
    starts, and not before the slices of smaller index. *)
Lemma float_index_le (d : Q) (i j : Z) :
  (0 <= d)%Q -> i <= j ->
  (fmul (float_of_int i) d <= fmul (float_of_int j) d)%Q.
Proof.
  intros Hd Hij. unfold fmul, float_of_int. apply fl_le.
  apply Qmult_le_compat_r; [|exact Hd].
  apply fl_le. now rewrite <- Zle_Qle.
Qed.

Lemma slice_ordered d i :
  (0 <= d)%Q -> (fst (slice d i) <= snd (slice d i))%Q.
Proof. intro Hd. unfold slice. simpl. apply float_index_le; [exact Hd|lia]. Qed.

(** ** getCaptionsWithTime: the estimated timing *)

Lemma sliced_entries_all considerPunctuation d chunks :
  Forall (fun c => truthy (shown_text considerPunctuation c) = true) chunks ->
  forall i,
    map fst (sliced_entries considerPunctuation d i chunks)
    = map (slice d) (seq i (List.length chunks)).
Proof.
  induction 1 as [|chunk chunks Hc _ IH]; intro i; [reflexivity|].
  simpl. rewrite Hc. simpl. now rewrite IH.
Qed.

Lemma inject_Z_len_nonzero {A : Type} (l : list A) :
  l <> [] -> ~ (inject_Z (len l) == 0)%Q.
Proof.
  intros Hl H. destruct l as [|a l]; [congruence|].
  unfold Qeq, inject_Z, len in H. simpl in H. lia.
Qed.

(** The chunks that keep a text when punctuation is kept: all of them. *)
Lemma chunks_survive_punctuation maxCaptionSize text :
  Forall (fun c => truthy (shown_text true c) = true)
    (caption_chunks maxCaptionSize true text).
Proof.
  eapply Forall_impl; [|apply caption_chunks_has_text].
  intros c Hc. unfold shown_text. now apply strip_truthy_iff.
Qed.

(** C1, as the code has it. For a text that is not blank and an empty time
    index, there is at least one chunk, and [getCaptionsWithTime] returns
    one entry for every chunk whose text is not empty once cleaned and
    stripped, the entry of the chunk of index [i] having the interval
    [(i * d, (i + 1) * d)], where [d] is the total duration divided by the
    number of chunks, the total duration is the last segment's [end] if
    it is there and not zero, else 10, and the quotient and the products
    are those of binary64 numbers.  The first of these intervals starts at
    0, each ends exactly where the next starts, and none ends before it
    starts when the total duration is not negative.  When no chunk is
    dropped, which is always so when punctuation is kept, the list is not
    empty and its intervals are these, in order.  Because the quotient and
    the products are rounded, the intervals need not have the same width
    and the last need not end at the total duration: it ends there but for
    a relative error of at most [2^-51], and [2^-1072] for every chunk
    (for a total duration that is not negative and small enough for no
    product to overflow). *)
Theorem getCaptionsWithTime_estimated (r : TranscriptionResult)
    (maxCaptionSize : Z) (considerPunctuation : bool) (text : str) :
  tr_text r = Some (TextStr text) ->
  has_text text ->
  getTimestampMapping r = [] ->
  let chunks := caption_chunks maxCaptionSize considerPunctuation (strip text) in
  let d := fdiv (total_duration r) (float_of_int (len chunks)) in
  let entries := getCaptionsWithTime (Analysis r) maxCaptionSize considerPunctuation in
  chunks <> []
  /\ entries = sliced_entries considerPunctuation d 0 chunks
  /\ fst (slice d 0) = 0%Q
  /\ (forall i, snd (slice d i) = fst (slice d (S i)))
  /\ ((0 <= total_duration r)%Q ->
      forall i, (fst (slice d i) <= snd (slice d i))%Q)
  /\ ((0 <= total_duration r <= 2 ^ 1023)%Q ->
      (total_duration r * (1 - (1 # 2 ^ 51))
       - inject_Z (len chunks) * 2 ^ (-1072)
       <= snd (slice d (List.length chunks - 1))
       <= total_duration r * (1 + (1 # 2 ^ 51))
          + inject_Z (len chunks) * 2 ^ (-1072))%Q)
  /\ (considerPunctuation = true
      \/ Forall (fun c => has_text (cleanWord c)) chunks ->
      entries <> []
      /\ map fst entries = map (slice d) (seq 0 (List.length chunks))).
Proof.
  intros Htext Hhas Hindex chunks d entries.
  assert (Hchunks : chunks <> []).
  { apply caption_chunks_nonempty, has_text_strip, Hhas. }
  assert (Hentries : entries = sliced_entries considerPunctuation d 0 chunks).
  { subst entries.
    unfold getCaptionsWithTime, getCaptionsWithTime_result, getCaptionsWithTime_body.
    rewrite Htext, Hindex.
    assert (Ht : truthy text = true).
    { destruct Hhas as (x & Hin & _). destruct text; [contradiction|reflexivity]. }
    assert (Hs : truthy (strip text) = true) by now apply strip_truthy_iff.
    rewrite Ht, Hs. simpl.
    unfold estimated_captions. fold chunks.
    replace (truthy chunks) with true
      by (symmetry; now apply truthy_true_iff).
    apply estimated_loop_spec. }
  split; [exact Hchunks|]. split; [exact Hentries|].
  split; [reflexivity|]. split; [|split; [|split]].
  - intro i. unfold slice. cbn [fst snd]. now rewrite Nat2Z.inj_succ.
  - intros Htotal i. apply slice_ordered.
    apply fl_nonneg, Qle_shift_div_l.
    + apply float_of_len_pos, Hchunks.
    + now rewrite Qmult_0_l.
  - intros [Htotal _]. unfold slice. cbn [snd].
    assert (Hlen : 1 <= len chunks).
    { unfold len. destruct chunks; [congruence|]. simpl List.length. lia. }
    replace (Z.of_nat (List.length chunks - 1) + 1) with (len chunks)
      by (unfold len in *; lia).
    now apply slices_near_total.
  - intros Hkeep.
    assert (Hall : Forall (fun c => truthy (shown_text considerPunctuation c) = true)
                     chunks).
    { destruct Hkeep as [-> | Hclean].
      - apply chunks_survive_punctuation.
      - destruct considerPunctuation; [apply chunks_survive_punctuation|].
        eapply Forall_impl; [|exact Hclean].
        intros c Hc. unfold shown_text. now apply strip_truthy_iff. }
    assert (Hmap : map fst entries = map (slice d) (seq 0 (List.length chunks))).
    { rewrite Hentries. now apply sliced_entries_all. }
    split; [|exact Hmap].
    intro Hnil. rewrite Hnil in Hmap. simpl in Hmap.
    destruct chunks; [congruence|discriminate].
Qed.

(** The hypothesis that no chunk is dropped, as a check that runs. *)
Lemma cleaned_chunks_check (chunks : list str) :
  forallb (fun c => truthy (strip (cleanWord c))) chunks = true ->
  Forall (fun c => has_text (cleanWord c)) chunks.
Proof.
  rewrite forallb_forall. intro H. apply Forall_forall. intros c Hc.
  apply strip_truthy_iff. now apply H.
Qed.

(** Two sentences over one segment of 8 seconds without words: five
    chunks, five slices of 8/5 as binary64 numbers. *)
Lemma getCaptionsWithTime_estimated_witness :
  let text := lit "The quick brown fox. Jumps over!  the lazy dog" in
  let r := {| tr_text := Some (TextStr text);
              tr_segments := Some [ {| seg_end := Some 8%Q; seg_words := None |} ] |} in
  let chunks := caption_chunks 15 false (strip text) in
  let d := fdiv (total_duration r) (float_of_int (len chunks)) in
  let entries := getCaptionsWithTime (Analysis r) 15 false in
  (tr_text r = Some (TextStr text) /\ has_text text /\ getTimestampMapping r = [])
  /\ chunks <> []
  /\ entries = sliced_entries false d 0 chunks
  /\ fst (slice d 0) = 0%Q
  /\ (forall i, snd (slice d i) = fst (slice d (S i)))
  /\ (forall i, (fst (slice d i) <= snd (slice d i))%Q)
  /\ (total_duration r * (1 - (1 # 2 ^ 51))
      - inject_Z (len chunks) * 2 ^ (-1072)
      <= snd (slice d (List.length chunks - 1))
      <= total_duration r * (1 + (1 # 2 ^ 51))
         + inject_Z (len chunks) * 2 ^ (-1072))%Q
  /\ entries <> []
  /\ map fst entries = map (slice d) (seq 0 (List.length chunks)).
Proof.
  intros text r chunks d entries.
  assert (Htext : has_text text).
  { exists "T"%char. split; [now left|reflexivity]. }
  split; [split; [reflexivity|split; [exact Htext|reflexivity]]|].
  destruct (getCaptionsWithTime_estimated r 15 false text eq_refl Htext eq_refl)
    as (Hchunks & Hentries & Hzero & Hnext & Hord & Hnear & Hkeep).
  split; [exact Hchunks|]. split; [exact Hentries|]. split; [exact Hzero|].
  split; [exact Hnext|]. split; [apply Hord; vm_compute; discriminate|].
  split; [apply Hnear; split; vm_compute; discriminate|].
  apply Hkeep. right. apply cleaned_chunks_check. vm_compute. reflexivity.
Defined.

(** A chunk of punctuation only before a word: the chunk is dropped and
    the one entry is the second of two slices of 5 seconds. *)
Example getCaptionsWithTime_dropped_chunk :
  getCaptionsWithTime
    (Analysis {| tr_text := Some (TextStr (lit "!!!!!!!!!!!!!!!! hello"));
                 tr_segments := None |}) 15 false
  = [ ((5%Q, 10%Q), lit "hello") ].
Proof. vm_compute. reflexivity. Qed.

(** Three chunks over the default 10 seconds: the slices end at
    [3.3333333333333335], [6.666666666666667] and [10.0], so that the last
    one is shorter than the first. *)
Example getCaptionsWithTime_unequal_slices :
  let entries :=
    getCaptionsWithTime
      (Analysis {| tr_text := Some (TextStr (lit "aaaaaaaa bbbbbbbb cccccccc"));
                   tr_segments := None |}) 15 false in
  map fst entries
  = [ (0, 7505999378950827 # 2251799813685248);
      (7505999378950827 # 2251799813685248,
       7505999378950827 # 1125899906842624);
      (7505999378950827 # 1125899906842624, 10) ]%Q
  /\ (10 - (7505999378950827 # 1125899906842624)
      < (7505999378950827 # 2251799813685248) - 0)%Q.
Proof. split; vm_compute; reflexivity. Qed.

(** Twenty-five chunks over a segment of 7 seconds: the last slice ends
    at [7.000000000000001], after the total duration. *)
Example getCaptionsWithTime_past_total :
  let words := List.concat (repeat (lit "aaaaaaaa ") 25) in
  let r := {| tr_text := Some (TextStr words);
              tr_segments := Some [ {| seg_end := Some 7%Q; seg_words := None |} ] |} in
  let entries := getCaptionsWithTime (Analysis r) 15 false in
  List.length entries = 25%nat
  /\ entry_end (last entries no_entry) = (7881299347898369 # 1125899906842624)%Q
  /\ (total_duration r < entry_end (last entries no_entry))%Q.
Proof. repeat split; vm_compute; reflexivity. Qed.

(** A last segment that ends at 0: the total duration is 10. *)
Example total_duration_zero_end :
  total_duration
    {| tr_text := Some (TextStr (lit "hello"));
       tr_segments := Some [ {| seg_end := Some 0%Q; seg_words := None |} ] |}
  = 10%Q.
Proof. reflexivity. Qed.

(** A text of punctuation only, without segments: the text is not blank
    and the index is empty, yet the one chunk is dropped after cleaning
    and the list returned is empty. *)
Lemma getCaptionsWithTime_estimated_counterexample :
  let text := lit "!!!" in
  let r := {| tr_text := Some (TextStr text); tr_segments := None |} in
  text <> [] /\ has_text text
  /\ getTimestampMapping r = []
  /\ getCaptionsWithTime (Analysis r) 15 false = [].
Proof.
  split; [discriminate|]. split; [|split; reflexivity].
  exists "!"%char. split; [now left|reflexivity].
Qed.


(** ** The index of a transcript with rising end times *)

Lemma usable_in_text words :
  Forall (fun u : str * timestamps => fst u <> []) (usable_in words).
Proof.
  induction words as [|word words IH]; simpl; [constructor|].
  destruct (usable_word word) as [[t ts]|] eqn:E; [|exact IH].
  constructor; [|exact IH]. simpl.
  unfold usable_word in E. destruct word as [|w]; [discriminate|].
  destruct (word_text_of w) as [t'|]; [|discriminate].
  destruct (wt_start w); [|discriminate].
  destruct (wt_end w); [|discriminate].
  destruct (truthy t') eqn:Ht; [|discriminate].
  injection E as <- _. now apply truthy_true_iff.
Qed.

Lemma usable_words_text r :
  Forall (fun u : str * timestamps => fst u <> []) (usable_words r).
Proof.
  unfold usable_words. destruct (tr_segments r) as [segments|]; [|constructor].
  induction segments as [|segment segments IH]; simpl; [constructor|].
  apply Forall_app. split; [|exact IH].
  destruct (seg_words segment); [apply usable_in_text|constructor].
Qed.

Lemma record_ranges_times cursor ws kv :
  In kv (record_ranges cursor ws) -> exists u, In u ws /\ snd kv = snd u.
Proof.
  revert cursor. induction ws as [|[t ts] ws IH]; intro cursor; simpl;
    [contradiction|].
  intros [<- | Hin].
  - exists (t, ts). split; [now left|reflexivity].
  - destruct (IH _ Hin) as (u & Hu & Heq). exists u. split; [now right|exact Heq].
Qed.

(** The ranges recorded from a cursor on start at or after it, are not
    empty, and come one before the other. *)
Lemma record_ranges_sorted ws :
  Forall (fun u : str * timestamps => fst u <> []) ws ->
  StronglySorted Qle (map (fun u => ts_end (snd u)) ws) ->
  forall cursor,
    StronglySorted index_before (record_ranges cursor ws)
    /\ Forall (fun kv => cursor <= fst (fst kv) /\ fst (fst kv) < snd (fst kv))
         (record_ranges cursor ws).
Proof.
  induction ws as [|[t ts] ws IH]; intros Htext Htimes cursor; simpl.
  - split; constructor.
  - inversion Htext as [|? ? Ht Htext']; subst. simpl in Ht.
    simpl in Htimes. apply StronglySorted_inv in Htimes.
    destruct Htimes as [Htimes' Hhead].
    destruct (IH Htext' Htimes' (cursor + len t + 1)) as [Hsorted Hkeys].
    assert (Hlen : 0 < len t).
    { destruct t; [congruence|]. unfold len. simpl. lia. }
    split.
    + constructor; [exact Hsorted|].
      rewrite Forall_forall in Hkeys, Hhead. apply Forall_forall.
      intros kv Hkv. split; simpl.
      * destruct (Hkeys kv Hkv). lia.
      * destruct (record_ranges_times _ _ _ Hkv) as (u & Hu & ->).
        apply Hhead. apply in_map_iff. now exists u.
    + constructor; [simpl; lia|].
      eapply Forall_impl; [|exact Hkeys]. simpl. intros kv [H1 H2]. lia.
Qed.

Lemma StronglySorted_pair {A : Type} (R : A -> A -> Prop) (l : list A) x y :
  StronglySorted R l -> In x l -> In y l -> x = y \/ R x y \/ R y x.
Proof.
  induction 1 as [|a l Hl IH Ha]; [contradiction|].
  rewrite Forall_forall in Ha.
  intros [<- | Hx] [<- | Hy]; auto.
Qed.

(** On a sorted index a lookup at a later position selects an entry whose
    end time is not earlier. *)
Lemma selected_rising d p p' kv kv' :
  StronglySorted index_before d ->
  Forall (fun kv => fst (fst kv) < snd (fst kv)) d ->
  p <= p' -> selected p d kv -> selected p' d kv' ->
  (ts_end (snd kv) <= ts_end (snd kv'))%Q.
Proof.
  intros Hsorted Hranges Hle [Hin Hsel] [Hin' Hsel'].
  destruct (StronglySorted_pair _ _ _ _ Hsorted Hin Hin')
    as [<- | [[_ Htime] | [Hkey _]]]; [apply Qle_refl|exact Htime|].
  exfalso. rewrite Forall_forall in Hranges.
  pose proof (Hranges kv Hin) as Hkv.
  unfold contains, nearest_preceding, precedes in *.
  destruct Hsel as [Hc | [Hnone (_ & Hp & Hmin)]];
    destruct Hsel' as [Hc' | [Hnone' (_ & Hp' & Hmin')]].
  - lia.
  - destruct (Z_lt_ge_dec p' (snd (fst kv))) as [Hlt | Hge].
    + apply (Hnone' kv Hin). lia.
    + specialize (Hmin' kv Hin). lia.
  - lia.
  - specialize (Hmin' kv Hin). lia.
Qed.

(** On an index whose first range starts at 0, a lookup at a position that
    is not negative finds an end time. *)
Lemma lookup_selected d p k0 v0 d0 :
  d = (k0, v0) :: d0 -> fst k0 = 0 -> 0 <= p ->
  exists kv, selected p d kv
             /\ interpolateTimeFromDict p d "end" = Some (ts_end (snd kv)).
Proof.
  intros Hd Hk0 Hp.
  destruct (lookup_cases p d "end") as [(kv & Hsel & Heq) | (Hnone & _)].
  - exists kv. split; [exact Hsel|exact Heq].
  - exfalso. assert (Hin : In (k0, v0) d) by (rewrite Hd; now left).
    destruct (Hnone _ Hin) as [Hc Hprec].
    unfold contains, precedes in *. simpl in *. lia.
Qed.

(** ** getCaptionsWithTime: ordered intervals *)

Lemma timed_round_blank considerPunctuation index i chunk st :
  truthy (strip chunk) = false ->
  timed_round considerPunctuation index i chunk st = st.
Proof. intro H. unfold timed_round. now rewrite H. Qed.

(** A round whose lookup finds an end time moves the position to the end
    of the chunk, and appends nothing or the entry that ends at the time
    found. *)
Lemma timed_round_found considerPunctuation index i chunk st e :
  truthy (strip chunk) = true ->
  interpolateTimeFromDict (next_position i chunk st) index "end" = Some e ->
  let st' := timed_round considerPunctuation index i chunk st in
  text_position st' = next_position i chunk st
  /\ ((CaptionsPairs st' = CaptionsPairs st /\ start_time st' = start_time st)
      \/ exists shown,
           CaptionsPairs st' = CaptionsPairs st ++ [((start_time st, e), shown)]
           /\ start_time st' = e).
Proof.
  intros Hchunk Hfound. unfold timed_round. rewrite Hchunk. simpl.
  fold (next_position i chunk st). rewrite Hfound.
  destruct (truthy (strip (if considerPunctuation then strip chunk
                           else cleanWord (strip chunk)))); simpl.
  - split; [reflexivity|]. right. eexists. split; reflexivity.
  - split; [reflexivity|]. now left.
Qed.

(** The entries of the estimated timing from the index [i] on end at or
    after the end of the slice [i], each starts before it ends, and their
    ends rise. *)
Lemma sliced_entries_ordered considerPunctuation d chunks :
  (0 <= d)%Q ->
  forall i,
    Forall (fun e => (entry_start e <= entry_end e)%Q
                     /\ (snd (slice d i) <= entry_end e)%Q)
      (sliced_entries considerPunctuation d i chunks)
    /\ consecutive (fun e e' => (entry_end e <= entry_end e')%Q)
         (sliced_entries considerPunctuation d i chunks).
Proof.
  intro Hd. induction chunks as [|chunk chunks IH]; intro i; simpl.
  - split; [constructor|]. intros [|j] e e' H; discriminate.
  - destruct (IH (S i)) as [Hall Hcons].
    assert (Hnext : Forall (fun e => (entry_start e <= entry_end e)%Q
                                     /\ (snd (slice d i) <= entry_end e)%Q)
                      (sliced_entries considerPunctuation d (S i) chunks)).
    { eapply Forall_impl; [|exact Hall]. intros e [H1 H2]. split; [exact H1|].
      eapply Qle_trans; [|exact H2].
      unfold slice. cbn [snd]. apply float_index_le; [exact Hd|lia]. }
    destruct (truthy (shown_text considerPunctuation chunk)); simpl;
      [|split; [exact Hnext|exact Hcons]].
    split.
    + constructor; [|exact Hnext]. unfold entry_start, entry_end. simpl.
      split; [now apply slice_ordered|apply Qle_refl].
    + apply consecutive_cons; [exact Hcons|].
      intros y Hy. unfold entry_end at 1. simpl.
      destruct (sliced_entries considerPunctuation d (S i) chunks) as [|y' l];
        [discriminate|].
      simpl in Hy. injection Hy as ->.
      inversion Hnext as [|? ? [_ H] _]; subst. exact H.
Qed.

(** The loop of the normal path on a sorted index whose first range
    starts at 0 and whose end times are not negative. *)
Lemma timed_loop_ordered considerPunctuation index k0 v0 index0 words :
  index = (k0, v0) :: index0 -> fst k0 = 0 ->
  StronglySorted index_before index ->
  Forall (fun kv => fst (fst kv) < snd (fst kv)) index ->
  Forall (fun kv => (0 <= ts_end (snd kv))%Q) index ->
  let st := timed_loop considerPunctuation index 0 words
              {| text_position := 0; start_time := 0%Q; CaptionsPairs := [] |} in
  Forall (fun e => (entry_start e <= entry_end e)%Q) (CaptionsPairs st)
  /\ consecutive (fun e e' => (entry_end e <= entry_end e')%Q) (CaptionsPairs st).
Proof.
  intros Hindex Hk0 Hsorted Hranges Hpos.
  pose (Inv := fun (i : nat) (st : loop_state) =>
    Forall (fun e => (entry_start e <= entry_end e)%Q) (CaptionsPairs st)
    /\ consecutive (fun e e' => (entry_end e <= entry_end e')%Q) (CaptionsPairs st)
    /\ start_time st = entry_end (last (CaptionsPairs st) no_entry)
    /\ 0 <= text_position st
    /\ (i = 0%nat -> text_position st = 0)
    /\ (forall p kv, text_position st <= p -> selected p index kv ->
                     (start_time st <= ts_end (snd kv))%Q)).
  assert (Hend : forall st,
            Inv (0 + List.length words)%nat st ->
            Forall (fun e => (entry_start e <= entry_end e)%Q) (CaptionsPairs st)
            /\ consecutive (fun e e' => (entry_end e <= entry_end e')%Q)
                 (CaptionsPairs st)).
  { intros st (H1 & H2 & _). auto. }
  apply Hend.
  apply (timed_loop_invariant considerPunctuation index Inv).
  - intros i chunk st (Hstart & Hcons & Hlast & Hnonneg & Hfirst & Hlater).
    destruct (truthy (strip chunk)) eqn:Hchunk.
    2:{ rewrite timed_round_blank by exact Hchunk.
        repeat split; auto. discriminate. }
    assert (Hnext : text_position st <= next_position i chunk st).
    { unfold next_position. pose proof (len_nonneg (strip chunk)).
      destruct (i =? 0)%nat eqn:Ei; [|lia].
      apply Nat.eqb_eq in Ei. rewrite (Hfirst Ei). lia. }
    destruct (lookup_selected index (next_position i chunk st) k0 v0 index0
                Hindex Hk0) as (kv & Hsel & Hfound); [lia|].
    destruct (timed_round_found considerPunctuation index i chunk st _
                Hchunk Hfound) as (Hposition & Hcases).
    assert (Hlater' : forall p kv',
              next_position i chunk st <= p -> selected p index kv' ->
              (ts_end (snd kv) <= ts_end (snd kv'))%Q).
    { intros p kv' Hp Hkv'.
      exact (selected_rising index _ p kv kv' Hsorted Hranges Hp Hsel Hkv'). }
    destruct Hcases as [[Hpairs Htime] | (shown & Hpairs & Htime)].
    + unfold Inv. rewrite Hpairs, Htime, Hposition.
      repeat split; auto; [lia|discriminate|].
      intros p kv' Hp. apply Hlater. lia.
    + unfold Inv. rewrite Hpairs, Htime, Hposition.
      assert (Hse : (start_time st <= ts_end (snd kv))%Q).
      { apply (Hlater (next_position i chunk st)); [exact Hnext|exact Hsel]. }
      split; [|split; [|split; [|split; [|split]]]].
      * apply Forall_app. split; [exact Hstart|].
        constructor; [exact Hse|constructor].
      * apply consecutive_snoc; [exact Hcons|]. intros _.
        rewrite <- Hlast. exact Hse.
      * now rewrite last_last.
      * lia.
      * discriminate.
      * exact Hlater'.
  - unfold Inv. simpl. repeat split; auto; try lia.
    + intros [|i] e e' H; discriminate.
    + intros p kv _ [Hin _]. rewrite Forall_forall in Hpos. now apply Hpos.
Qed.


Lemma rising_from_sorted l :
  forall t, rising_from t l = true -> Sorted Qle (t :: l).
Proof.
  induction l as [|x l IH]; intros t H; simpl in H.
  - repeat constructor.
  - apply andb_true_iff in H. destruct H as [Htx Hl].
    constructor; [now apply IH|]. constructor. now apply Qle_bool_iff.
Qed.

(** C2, as the code has it. When the end times of the usable words are
    not negative and do not decrease along the transcript, and the total
    duration of the estimated timing is not negative, every entry starts
    no later than it ends and the ends do not decrease from an entry to
    the next. *)
Theorem getCaptionsWithTime_ordered (r : TranscriptionResult)
    (maxCaptionSize : Z) (considerPunctuation : bool) :
  Sorted Qle (0%Q :: word_end_times r) ->
  (0 <= total_duration r)%Q ->
  let entries := getCaptionsWithTime (Analysis r) maxCaptionSize considerPunctuation in
  Forall (fun e => (entry_start e <= entry_end e)%Q) entries
  /\ (forall i e e',
        nth_error entries i = Some e -> nth_error entries (S i) = Some e' ->
        (entry_end e <= entry_end e')%Q).
Proof.
  intros Htimes Htotal entries. subst entries.
  assert (Hnil : Forall (fun e : CaptionEntry => (entry_start e <= entry_end e)%Q) []
                 /\ (forall i (e e' : CaptionEntry),
                       nth_error [] i = Some e -> nth_error [] (S i) = Some e' ->
                       (entry_end e <= entry_end e')%Q)).
  { split; [constructor|]. intros [|i] e e' H; discriminate. }
  unfold getCaptionsWithTime, getCaptionsWithTime_result, getCaptionsWithTime_body.
  destruct (tr_text r) as [[|text]|]; try exact Hnil.
  destruct (negb (truthy text) || negb (truthy (strip text))); [exact Hnil|].
  destruct (truthy (getTimestampMapping r)) eqn:Hindex; simpl.
  - (* the normal path *)
    apply Sorted_StronglySorted in Htimes; [|exact Qle_trans].
    apply StronglySorted_inv in Htimes. destruct Htimes as [Hrise Hpos].
    unfold word_end_times in Hrise, Hpos.
    destruct (record_ranges_sorted (usable_words r) (usable_words_text r) Hrise 0)
      as [Hsorted Hkeys].
    rewrite <- getTimestampMapping_ranges in Hsorted, Hkeys.
    assert (Hends : Forall (fun kv => (0 <= ts_end (snd kv))%Q)
                      (getTimestampMapping r)).
    { rewrite getTimestampMapping_ranges. apply Forall_forall. intros kv Hkv.
      destruct (record_ranges_times _ _ _ Hkv) as (u & Hu & ->).
      rewrite Forall_forall in Hpos. apply Hpos.
      apply in_map_iff. now exists u. }
    destruct (getTimestampMapping r) as [|[k0 v0] index0] eqn:E; [discriminate|].
    rewrite <- E in *.
    apply (timed_loop_ordered considerPunctuation (getTimestampMapping r)
             k0 v0 index0); auto.
    + rewrite getTimestampMapping_ranges in E.
      destruct (usable_words r) as [|[t ts] us]; [discriminate|].
      simpl in E. now injection E as <- _ _.
    + eapply Forall_impl; [|exact Hkeys]. now intros kv [_ H].
  - (* the estimated timing *)
    unfold estimated_captions. rewrite estimated_loop_spec. simpl.
    set (chunks := caption_chunks maxCaptionSize considerPunctuation (strip text)).
    assert (Hd : (0 <= (if truthy chunks
                        then fdiv (total_duration r) (float_of_int (len chunks))
                        else 1))%Q).
    { destruct (truthy chunks); [|discriminate].
      apply fl_nonneg, Qmult_le_0_compat; [exact Htotal|].
      apply Qinv_le_0_compat, fl_nonneg. change 0%Q with (inject_Z 0).
      rewrite <- Zle_Qle. apply len_nonneg. }
    destruct (sliced_entries_ordered considerPunctuation _ chunks Hd 0%nat)
      as [Hall Hcons].
    split; [|exact Hcons].
    eapply Forall_impl; [|exact Hall]. now intros e [H _].
Qed.

(** The end-to-end example of the specification: rising times. *)
Lemma getCaptionsWithTime_ordered_witness :
  let entries := getCaptionsWithTime (Analysis quick_brown_fox) 15 false in
  (Sorted Qle (0%Q :: word_end_times quick_brown_fox)
   /\ (0 <= total_duration quick_brown_fox)%Q)
  /\ Forall (fun e => (entry_start e <= entry_end e)%Q) entries
  /\ (forall i e e',
        nth_error entries i = Some e -> nth_error entries (S i) = Some e' ->
        (entry_end e <= entry_end e')%Q).
Proof.
  assert (H1 : Sorted Qle (0%Q :: word_end_times quick_brown_fox)).
  { apply rising_from_sorted. vm_compute. reflexivity. }
  assert (H2 : (0 <= total_duration quick_brown_fox)%Q).
  { vm_compute. discriminate. }
  split; [split; [exact H1|exact H2]|].
  exact (getCaptionsWithTime_ordered quick_brown_fox 15 false H1 H2).
Defined.

(** A last segment with a negative end, and no timed word: the one entry
    of the estimated timing ends before it starts. *)
Example getCaptionsWithTime_negative_duration :
  getCaptionsWithTime
    (Analysis {| tr_text := Some (TextStr (lit "hello"));
                 tr_segments :=
                   Some [ {| seg_end := Some (-4)%Q; seg_words := None |} ] |})
    15 false
  = [ (((0 # 1)%Q, (-4 # 1)%Q), lit "hello") ].
Proof. reflexivity. Qed.

(** Two chunks whose words carry times out of order: the second entry
    starts at 6 and ends at 1, before the end of the first. *)
Lemma getCaptionsWithTime_ordered_counterexample :
  let entries := getCaptionsWithTime (Analysis out_of_order) 15 false in
  entries = [ ((0%Q, 6%Q), lit "aaaaaaaa"); ((6%Q, 1%Q), lit "bbbbbbbb") ]
  /\ ~ Forall (fun e => (entry_start e <= entry_end e)%Q) entries
  /\ ~ (forall i e e',
          nth_error entries i = Some e -> nth_error entries (S i) = Some e' ->
          (entry_end e <= entry_end e')%Q).
Proof.
  assert (E : getCaptionsWithTime (Analysis out_of_order) 15 false
              = [ ((0%Q, 6%Q), lit "aaaaaaaa"); ((6%Q, 1%Q), lit "bbbbbbbb") ])
    by reflexivity.
  simpl. rewrite E. split; [reflexivity|]. split.
  - intro H. inversion H as [|? ? _ H']; subst.
    inversion H' as [|? ? Hle _]; subst.
    unfold entry_start, entry_end, Qle in Hle. simpl in Hle. lia.
  - intro H. specialize (H 0%nat _ _ eq_refl eq_refl).
    unfold entry_end, Qle in H. simpl in H. lia.
Qed.


(** * Further properties of the caption functions *)

(** ** Trimmed strings *)

Lemma lstrip_idempotent s : lstrip (lstrip s) = lstrip s.
Proof.
  induction s as [|c s IH]; [reflexivity|].
  simpl. destruct (isspace c) eqn:E; [exact IH|].
  simpl. now rewrite E.
Qed.

Lemma lstrip_snoc s c :
  isspace c = false -> lstrip (s ++ [c]) = lstrip s ++ [c].
Proof.
  intro Hc. induction s as [|a s IH]; simpl.
  - now rewrite Hc.
  - destruct (isspace a); [exact IH|reflexivity].
Qed.

Lemma lstrip_head s :
  lstrip s = [] \/ exists c t, lstrip s = c :: t /\ isspace c = false.
Proof.
  induction s as [|a s IH]; [now left|].
  simpl. destruct (isspace a) eqn:E; [exact IH|].
  right. now exists a, s.
Qed.

Lemma lstrip_incl s c : In c (lstrip s) -> In c s.
Proof.
  induction s as [|a s IH]; [auto|].
  simpl. destruct (isspace a); [|auto]. intro H. right. auto.
Qed.

Lemma strip_incl s c : In c (strip s) -> In c s.
Proof.
  unfold strip, rstrip. rewrite <- in_rev. intro H.
  apply lstrip_incl in H. rewrite <- in_rev in H. now apply lstrip_incl.
Qed.

Lemma trimmed_strip s : trimmed s -> strip s = s.
Proof.
  intros [Hl Hr]. unfold strip, rstrip. rewrite Hl, Hr. apply rev_involutive.
Qed.

Lemma strip_trimmed s : trimmed (strip s).
Proof.
  unfold trimmed, strip, rstrip. split.
  - destruct (lstrip_head s) as [-> | (c & t & -> & Hc)]; [reflexivity|].
    change (rev (c :: t)) with (rev t ++ [c]).
    rewrite lstrip_snoc by exact Hc.
    rewrite rev_app_distr. simpl. now rewrite Hc.
  - rewrite rev_involutive. apply lstrip_idempotent.
Qed.

Lemma strip_idempotent s : strip (strip s) = strip s.
Proof. apply trimmed_strip, strip_trimmed. Qed.

(** A string whose first and last characters are not whitespace is
    trimmed. *)
Lemma trimmed_by_ends s :
  (forall c t, s = c :: t -> isspace c = false) ->
  (forall c t, rev s = c :: t -> isspace c = false) ->
  trimmed s.
Proof.
  intros Hfirst Hlast. split.
  - destruct s as [|c t]; [reflexivity|]. simpl.
    now rewrite (Hfirst c t eq_refl).
  - destruct (rev s) as [|c t]; [reflexivity|]. simpl.
    now rewrite (Hlast c t eq_refl).
Qed.

(** ** The texts of the entries *)

(** What a round appends to the texts: the shown text of the stripped
    chunk, when neither is empty. *)
Lemma timed_round_texts considerPunctuation index i chunk st :
  map entry_text
    (CaptionsPairs (timed_round considerPunctuation index i chunk st))
  = map entry_text (CaptionsPairs st)
    ++ (if truthy (strip chunk)
           && truthy (shown_text considerPunctuation (strip chunk))
        then [shown_text considerPunctuation (strip chunk)]
        else []).
Proof.
  unfold timed_round, shown_text.
  destruct (truthy (strip chunk)); simpl; [|now rewrite app_nil_r].
  set (shown := strip (if considerPunctuation then strip chunk
                       else cleanWord (strip chunk))).
  match goal with
  | |- context [match ?x with Some t => Some t | None => _ end] =>
      destruct x as [t|]; [|destruct (truthy (CaptionsPairs st))]
  end;
    simpl; destruct (truthy shown); simpl;
    solve [ now rewrite app_nil_r | now rewrite map_app ].
Qed.

Lemma timed_loop_texts considerPunctuation index chunks :
  forall i st,
    map entry_text
      (CaptionsPairs (timed_loop considerPunctuation index i chunks st))
    = map entry_text (CaptionsPairs st)
      ++ flat_map (fun chunk =>
                     if truthy (strip chunk)
                        && truthy (shown_text considerPunctuation (strip chunk))
                     then [shown_text considerPunctuation (strip chunk)]
                     else []) chunks.
Proof.
  induction chunks as [|chunk chunks IH]; intros i st; simpl.
  - now rewrite app_nil_r.
  - rewrite IH, timed_round_texts. now rewrite <- app_assoc.
Qed.

Lemma sliced_entries_texts considerPunctuation d chunks :
  forall i,
    map entry_text (sliced_entries considerPunctuation d i chunks)
    = flat_map (fun chunk =>
                  if truthy (shown_text considerPunctuation chunk)
                  then [shown_text considerPunctuation chunk]
                  else []) chunks.
Proof.
  induction chunks as [|chunk chunks IH]; intro i; simpl; [reflexivity|].
  rewrite map_app, IH.
  destruct (truthy (shown_text considerPunctuation chunk)); reflexivity.
Qed.

(** The words of [split] have no whitespace, so their joins are trimmed. *)
Lemma join_trimmed g :
  g <> [] ->
  Forall (fun w : str => w <> [] /\ Forall (fun c => isspace c = false) w) g ->
  trimmed (join [space] g) /\ join [space] g <> [].
Proof.
  intros Hg Hall. induction Hall as [|w g [Hw Hchars] Hall IH]; [congruence|].
  assert (Hne : join [space] (w :: g) <> []).
  { destruct w; [congruence|]. destruct g; simpl; discriminate. }
  split; [|exact Hne].
  apply trimmed_by_ends.
  - intros c t E. destruct w as [|a w]; [congruence|].
    assert (c = a) as ->.
    { destruct g; simpl in E; now injection E. }
    now inversion Hchars.
  - intros c t E. rewrite Forall_forall in Hchars.
    destruct g as [|v g].
    + simpl in E. apply Hchars. rewrite in_rev, E. now left.
    + destruct IH as [[_ Hlast] Hne']; [discriminate|].
      rewrite join_cons_cons, !rev_app_distr in E.
      destruct (rev (join [space] (v :: g))) as [|c' t'] eqn:Erev.
      * exfalso. apply Hne'.
        rewrite <- (rev_involutive (join [space] (v :: g))), Erev. reflexivity.
      * simpl in E, Hlast. injection E as <- _.
        destruct (isspace c') eqn:Ec; [|reflexivity].
        exfalso. clear -Hlast.
        assert (Hlen : (List.length (lstrip t') <= List.length t')%nat).
        { clear. induction t' as [|a t IH]; simpl; [lia|].
          destruct (isspace a); simpl; lia. }
        rewrite Hlast in Hlen. simpl in Hlen. lia.
Qed.

Lemma splitWordsBySize_trimmed words maxCaptionSize :
  Forall (fun w : str => w <> [] /\ Forall (fun c => isspace c = false) w) words ->
  Forall (fun c => trimmed c /\ c <> []) (splitWordsBySize words maxCaptionSize).
Proof.
  intro Hwords.
  destruct (splitWordsBySize_groups maxCaptionSize words)
    as (groups & Hcat & Hall & ->).
  rewrite <- Hcat in Hwords. apply Forall_concat_inv in Hwords.
  rewrite Forall_forall in Hwords, Hall.
  apply Forall_forall. intros c Hc.
  apply in_map_iff in Hc. destruct Hc as (g & <- & Hg).
  destruct (Hall g Hg) as [Hne _].
  apply join_trimmed; auto.
Qed.

Lemma caption_chunks_trimmed maxCaptionSize considerPunctuation text :
  Forall (fun c => trimmed c /\ c <> [])
    (caption_chunks maxCaptionSize considerPunctuation text).
Proof.
  unfold caption_chunks. destruct considerPunctuation.
  - apply Forall_forall. intros c Hc. apply in_flat_map in Hc.
    destruct Hc as (piece & _ & Hc).
    pose proof (splitWordsBySize_trimmed (split piece) maxCaptionSize
                  (split_from_words piece [] (Forall_nil _))) as H.
    rewrite Forall_forall in H. now apply H.
  - apply splitWordsBySize_trimmed, split_from_words. constructor.
Qed.

(** The texts of the entries are the shown texts of the chunks that keep
    one, in the order of the chunks, whatever the timing data. *)
Lemma captions_texts r maxCaptionSize considerPunctuation text :
  tr_text r = Some (TextStr text) -> has_text text ->
  map entry_text (getCaptionsWithTime (Analysis r) maxCaptionSize considerPunctuation)
  = filter (fun t => truthy t)
      (map (shown_text considerPunctuation)
         (caption_chunks maxCaptionSize considerPunctuation (strip text))).
Proof.
  intros Htext Hhas.
  unfold getCaptionsWithTime, getCaptionsWithTime_result, getCaptionsWithTime_body.
  rewrite Htext.
  assert (Ht : truthy text = true).
  { destruct Hhas as (x & Hin & _). destruct text; [contradiction|reflexivity]. }
  assert (Hs : truthy (strip text) = true) by now apply strip_truthy_iff.
  rewrite Ht, Hs. simpl.
  pose proof (caption_chunks_trimmed maxCaptionSize considerPunctuation (strip text))
    as Htrim.
  set (chunks := caption_chunks maxCaptionSize considerPunctuation (strip text)) in *.
  destruct (truthy (getTimestampMapping r)); simpl.
  - rewrite timed_loop_texts. simpl.
    clear -Htrim. induction Htrim as [|chunk chunks [Hc Hne] _ IH]; [reflexivity|].
    simpl. rewrite (trimmed_strip _ Hc), IH.
    replace (truthy chunk) with true
      by (symmetry; now apply truthy_true_iff).
    simpl. destruct (truthy (shown_text considerPunctuation chunk)); reflexivity.
  - unfold estimated_captions. rewrite estimated_loop_spec. simpl.
    rewrite sliced_entries_texts.
    clear. induction chunks as [|chunk chunks IH]; [reflexivity|].
    simpl. rewrite IH.
    destruct (truthy (shown_text considerPunctuation chunk)); reflexivity.
Qed.

(** ** The words of the sentences are the words of the text *)

Lemma split_from_app_space cur x c y :
  isspace c = true ->
  split_from cur (x ++ c :: y) = split_from cur x ++ split y.
Proof.
  intro Hc. revert cur. induction x as [|a x IH]; intro cur; simpl.
  - rewrite Hc. unfold split. destruct (truthy cur); reflexivity.
  - destruct (isspace a).
    + destruct (truthy cur); simpl; now rewrite IH.
    + apply IH.
Qed.

Lemma re_split_from_words s :
  forall in_gap after_end cur,
    (in_gap = true -> cur = []) ->
    flat_map split (re_split_from in_gap after_end cur s) = split (cur ++ s).
Proof.
  induction s as [|c s IH]; intros in_gap after_end cur Hgap; simpl.
  - now rewrite !app_nil_r.
  - destruct (Ascii.eqb c space) eqn:E.
    + apply Ascii.eqb_eq in E. subst c.
      destruct in_gap.
      * rewrite IH by auto. rewrite (Hgap eq_refl). reflexivity.
      * destruct after_end.
        -- simpl. rewrite (IH true false []) by auto. simpl.
           unfold split at 3. now rewrite split_from_app_space.
        -- rewrite IH by discriminate. now rewrite <- app_assoc.
    + rewrite IH by discriminate. now rewrite <- app_assoc.
Qed.

(** In both modes the chunks are the joins of groups of consecutive words
    of the text. *)
Lemma caption_chunks_groups maxCaptionSize considerPunctuation text :
  exists groups,
    List.concat groups = split text
    /\ Forall (chunk_group maxCaptionSize) groups
    /\ caption_chunks maxCaptionSize considerPunctuation text
       = map (join [space]) groups.
Proof.
  unfold caption_chunks. destruct considerPunctuation;
    [|apply splitWordsBySize_groups].
  unfold re_split_sentences.
  assert (Hw : flat_map split (re_split_from false false [] text) = split text).
  { now rewrite re_split_from_words by discriminate. }
  rewrite <- Hw. clear Hw.
  induction (re_split_from false false [] text) as [|piece pieces IH].
  - exists []. simpl. auto.
  - destruct IH as (groups & Hcat & Hall & Heq).
    destruct (splitWordsBySize_groups maxCaptionSize (split piece))
      as (groups0 & Hcat0 & Hall0 & Heq0).
    exists (groups0 ++ groups). split; [|split].
    + rewrite concat_app, Hcat0, Hcat. reflexivity.
    + apply Forall_app. auto.
    + simpl. rewrite Heq0, Heq, map_app. reflexivity.
Qed.

Lemma split_leading_space p s :
  Forall (fun c => isspace c = true) p -> split (p ++ s) = split s.
Proof.
  induction 1 as [|c p Hc _ IH]; [reflexivity|].
  unfold split in *. simpl. now rewrite Hc.
Qed.

Lemma split_from_trailing_space q :
  Forall (fun c => isspace c = true) q ->
  forall cur s, split_from cur (s ++ q) = split_from cur s.
Proof.
  intros Hq.
  assert (Hbase : forall cur, split_from cur q = split_from cur []).
  { induction Hq as [|c q Hc _ IH]; intro cur; [reflexivity|].
    simpl. rewrite Hc, (IH []). simpl. destruct (truthy cur); reflexivity. }
  intros cur s. revert cur. induction s as [|a s IH]; intro cur.
  - apply Hbase.
  - simpl. destruct (isspace a); [|apply IH].
    destruct (truthy cur); now rewrite IH.
Qed.

Lemma lstrip_prefix s :
  exists p, s = p ++ lstrip s /\ Forall (fun c => isspace c = true) p.
Proof.
  induction s as [|c s (p & Hs & Hp)]; [exists []; auto|].
  simpl. destruct (isspace c) eqn:E.
  - exists (c :: p). split; [simpl; congruence|now constructor].
  - exists []. auto.
Qed.

(** Stripping a text does not change its words. *)
Lemma split_strip s : split (strip s) = split s.
Proof.
  unfold strip, rstrip.
  destruct (lstrip_prefix s) as (p & Hs & Hp).
  destruct (lstrip_prefix (rev (lstrip s))) as (q & Hr & Hq).
  rewrite Hs at 2. rewrite split_leading_space by exact Hp.
  apply (f_equal (@rev ascii)) in Hr.
  rewrite rev_involutive, rev_app_distr in Hr.
  rewrite Hr at 2. unfold split.
  rewrite split_from_trailing_space; [reflexivity|].
  now apply Forall_rev.
Qed.

(** X1. The text of every entry [getCaptionsWithTime] returns has no
    whitespace at either end ([text.strip() == text]), and, when
    punctuation is not kept, it holds only characters that [cleanWord]
    keeps. *)
Theorem getCaptionsWithTime_text_form (wa : whisper_analysis)
    (maxCaptionSize : Z) (considerPunctuation : bool) :
  Forall (fun e => strip (entry_text e) = entry_text e
                   /\ (considerPunctuation = false ->
                       Forall (fun c => kept c = true) (entry_text e)))
    (getCaptionsWithTime wa maxCaptionSize considerPunctuation).
Proof.
  assert (Hshown : forall x,
            strip (shown_text considerPunctuation x)
            = shown_text considerPunctuation x
            /\ (considerPunctuation = false ->
                Forall (fun c => kept c = true)
                  (shown_text considerPunctuation x))).
  { intro x. split; [apply strip_idempotent|].
    intros ->. apply Forall_forall. intros c Hc.
    apply strip_incl in Hc. unfold cleanWord in Hc.
    now apply filter_In in Hc. }
  destruct wa as [|r]; [constructor|].
  destruct (tr_text r) as [[|text]|] eqn:Htext;
    try (unfold getCaptionsWithTime, getCaptionsWithTime_result,
           getCaptionsWithTime_body; rewrite Htext; constructor).
  destruct (truthy (strip text)) eqn:Hs.
  - apply strip_truthy_iff in Hs.
    pose proof (captions_texts r maxCaptionSize considerPunctuation text Htext Hs)
      as Htexts.
    apply Forall_forall. intros e He.
    assert (Hin : In (entry_text e)
                    (map entry_text
                       (getCaptionsWithTime (Analysis r) maxCaptionSize
                          considerPunctuation)))
      by now apply in_map.
    rewrite Htexts in Hin. apply filter_In in Hin. destruct Hin as [Hin _].
    apply in_map_iff in Hin. destruct Hin as (chunk & <- & _). apply Hshown.
  - unfold getCaptionsWithTime, getCaptionsWithTime_result,
      getCaptionsWithTime_body.
    rewrite Htext, Hs. rewrite orb_true_r. constructor.
Qed.

(** X2. The texts of the entries are, in order, the chunks of the stripped
    text, each cleaned (unless punctuation is kept) and stripped, without
    those that become empty: the same on the normal path and on the
    estimated path; so there are never more entries than chunks. *)
Theorem getCaptionsWithTime_texts (r : TranscriptionResult)
    (maxCaptionSize : Z) (considerPunctuation : bool) (text : str) :
  tr_text r = Some (TextStr text) -> has_text text ->
  let chunks := caption_chunks maxCaptionSize considerPunctuation (strip text) in
  let entries := getCaptionsWithTime (Analysis r) maxCaptionSize considerPunctuation in
  map entry_text entries
  = filter (fun t => truthy t) (map (shown_text considerPunctuation) chunks)
  /\ (List.length entries <= List.length chunks)%nat.
Proof.
  intros Htext Hhas chunks entries.
  pose proof (captions_texts r maxCaptionSize considerPunctuation text Htext Hhas)
    as Htexts.
  split; [exact Htexts|].
  rewrite <- (length_map entry_text entries). subst entries. rewrite Htexts.
  rewrite <- (length_map (shown_text considerPunctuation) chunks).
  apply filter_length_le.
Qed.

Lemma getCaptionsWithTime_texts_witness :
  let text := lit "The quick brown fox jumps over the lazy dog" in
  let chunks := caption_chunks 15 false (strip text) in
  let entries := getCaptionsWithTime (Analysis quick_brown_fox) 15 false in
  (tr_text quick_brown_fox = Some (TextStr text) /\ has_text text)
  /\ map entry_text entries
     = filter (fun t => truthy t) (map (shown_text false) chunks)
  /\ (List.length entries <= List.length chunks)%nat.
Proof.
  intros text chunks entries.
  assert (Htext : has_text text).
  { exists "T"%char. split; [now left|reflexivity]. }
  split; [split; [reflexivity|exact Htext]|].
  exact (getCaptionsWithTime_texts quick_brown_fox 15 false text eq_refl Htext).
Defined.

(** With punctuation kept, a trimmed chunk is shown as it is. *)
Lemma shown_trimmed_chunks chunks :
  Forall (fun c => trimmed c /\ c <> []) chunks ->
  filter (fun t => truthy t) (map (shown_text true) chunks) = chunks.
Proof.
  induction 1 as [|chunk chunks [Hc Hne] _ IH]; [reflexivity|].
  simpl. unfold shown_text. rewrite (trimmed_strip _ Hc).
  replace (truthy chunk) with true by (symmetry; now apply truthy_true_iff).
  fold (shown_text true). now rewrite IH.
Qed.

(** X3. When punctuation is kept, no word of the text is lost, added or
    moved: the texts of the entries, joined by single spaces, are the
    words of the text joined by single spaces. *)
Theorem getCaptionsWithTime_punctuation_lossless (r : TranscriptionResult)
    (maxCaptionSize : Z) (text : str) :
  tr_text r = Some (TextStr text) -> has_text text ->
  join [space] (map entry_text (getCaptionsWithTime (Analysis r) maxCaptionSize true))
  = join [space] (split text).
Proof.
  intros Htext Hhas.
  rewrite (captions_texts r maxCaptionSize true text Htext Hhas).
  pose proof (caption_chunks_trimmed maxCaptionSize true (strip text)) as Htrim.
  destruct (caption_chunks_groups maxCaptionSize true (strip text))
    as (groups & Hcat & Hall & Heq).
  rewrite (shown_trimmed_chunks _ Htrim), Heq, <- split_strip, <- Hcat.
  apply join_groups.
  eapply Forall_impl; [|exact Hall]. now intros g [Hg _].
Qed.

Lemma getCaptionsWithTime_punctuation_lossless_witness :
  let text := lit "  The quick brown fox. Jumps over!  the lazy dog " in
  let r := {| tr_text := Some (TextStr text);
              tr_segments := Some [ {| seg_end := Some 8%Q; seg_words := None |} ] |} in
  (tr_text r = Some (TextStr text) /\ has_text text)
  /\ join [space] (map entry_text (getCaptionsWithTime (Analysis r) 15 true))
     = join [space] (split text).
Proof.
  intros text r.
  assert (Htext : has_text text).
  { exists "T"%char. split; [right; right; now left|reflexivity]. }
  split; [split; [reflexivity|exact Htext]|].
  exact (getCaptionsWithTime_punctuation_lossless r 15 text eq_refl Htext).
Defined.


(** ** The ranges of the index, and the lookup on them *)

Lemma record_ranges_keys ws :
  Forall (fun u : str * timestamps => fst u <> []) ws ->
  forall cursor,
    StronglySorted key_before (record_ranges cursor ws)
    /\ Forall (fun kv => cursor <= fst (fst kv) /\ fst (fst kv) < snd (fst kv))
         (record_ranges cursor ws)
    /\ (forall i kv kv',
          nth_error (record_ranges cursor ws) i = Some kv ->
          nth_error (record_ranges cursor ws) (S i) = Some kv' ->
          fst (fst kv') = snd (fst kv) + 1).
Proof.
  induction 1 as [|[t ts] ws Ht _ IH]; intro cursor; simpl.
  - split; [constructor|]. split; [constructor|].
    intros [|i] kv kv' H; discriminate.
  - simpl in Ht.
    assert (Hlen : 0 < len t).
    { destruct t; [congruence|]. unfold len. simpl. lia. }
    destruct (IH (cursor + len t + 1)) as (Hsorted & Hkeys & Hnext).
    split; [|split].
    + constructor; [exact Hsorted|].
      eapply Forall_impl; [|exact Hkeys].
      intros kv [H1 H2]. unfold key_before. simpl. lia.
    + constructor; [simpl; lia|].
      eapply Forall_impl; [|exact Hkeys]. simpl. intros kv [H1 H2]. lia.
    + intros [|i] kv kv' Hi HSi; simpl in Hi, HSi.
      * injection Hi as <-. simpl.
        destruct ws as [|[t' ts'] ws]; [discriminate|].
        simpl in HSi. injection HSi as <-. reflexivity.
      * now apply (Hnext i).
Qed.

Lemma selected_last_started d p kv :
  StronglySorted key_before d ->
  Forall (fun kv => fst (fst kv) < snd (fst kv)) d ->
  selected p d kv ->
  fst (fst kv) <= p
  /\ forall kv', In kv' d -> fst (fst kv') <= p -> fst (fst kv') <= fst (fst kv).
Proof.
  intros Hsorted Hranges [Hin Hsel]. rewrite Forall_forall in Hranges.
  pose proof (Hranges kv Hin) as Hkv.
  unfold contains, nearest_preceding, precedes in Hsel.
  split.
  - destruct Hsel as [Hc | [_ (_ & Hp & _)]]; lia.
  - intros kv' Hin' Hs'. pose proof (Hranges kv' Hin') as Hkv'.
    destruct (StronglySorted_pair _ _ _ _ Hsorted Hin Hin')
      as [<- | [Hb | Hb]]; unfold key_before in *; [lia| |lia].
    exfalso. destruct Hsel as [Hc | [Hnone (_ & Hp & Hmin)]]; [lia|].
    destruct (Z_lt_ge_dec p (snd (fst kv'))) as [Hlt | Hge].
    + apply (Hnone kv' Hin'). unfold contains. lia.
    + assert (Hle : snd (fst kv') <= p) by lia.
      specialize (Hmin kv' Hin' Hle). lia.
Qed.

Lemma getTimestampMapping_sorted r :
  StronglySorted key_before (getTimestampMapping r)
  /\ Forall (fun kv => 0 <= fst (fst kv) /\ fst (fst kv) < snd (fst kv))
       (getTimestampMapping r)
  /\ (forall i kv kv',
        nth_error (getTimestampMapping r) i = Some kv ->
        nth_error (getTimestampMapping r) (S i) = Some kv' ->
        fst (fst kv') = snd (fst kv) + 1)
  /\ (forall k v rest, getTimestampMapping r = (k, v) :: rest -> fst k = 0).
Proof.
  rewrite getTimestampMapping_ranges.
  destruct (record_ranges_keys (usable_words r) (usable_words_text r) 0)
    as (H1 & H2 & H3).
  repeat split; auto.
  intros k v rest E. destruct (usable_words r) as [|[t ts] us]; [discriminate|].
  simpl in E. now injection E as <- _ _.
Qed.

(** On the index of a transcript, a lookup at a position that is not
    negative returns the field of the last range that starts at or before
    the position. *)
Lemma lookup_last_started r p search_type :
  getTimestampMapping r <> [] -> 0 <= p ->
  exists kv,
    In kv (getTimestampMapping r)
    /\ fst (fst kv) <= p
    /\ (forall kv', In kv' (getTimestampMapping r) ->
                    fst (fst kv') <= p -> fst (fst kv') <= fst (fst kv))
    /\ interpolateTimeFromDict p (getTimestampMapping r) search_type
       = ts_get search_type (snd kv).
Proof.
  intros Hne Hp.
  destruct (getTimestampMapping_sorted r) as (Hsorted & Hkeys & _ & Hfirst).
  assert (Hranges : Forall (fun kv => fst (fst kv) < snd (fst kv))
                      (getTimestampMapping r)).
  { eapply Forall_impl; [|exact Hkeys]. now intros kv [_ H]. }
  destruct (lookup_cases p (getTimestampMapping r) search_type)
    as [(kv & Hsel & Heq) | (Hnone & _)].
  - exists kv.
    destruct (selected_last_started _ _ _ Hsorted Hranges Hsel) as [H1 H2].
    destruct Hsel as [Hin _]. auto.
  - exfalso. destruct (getTimestampMapping r) as [|[k0 v0] rest] eqn:E;
      [congruence|].
    specialize (Hfirst k0 v0 rest eq_refl).
    destruct (Hnone (k0, v0) (or_introl eq_refl)) as [Hc Hprec].
    unfold contains, precedes in *. simpl in *. lia.
Qed.

(** X4. The ranges of the index [getTimestampMapping] builds are not
    empty, the first one starts at 0, each next one starts one position
    after the previous one ends, and so at most one range contains a
    given position. *)
Theorem getTimestampMapping_ranges_disjoint (r : TranscriptionResult) :
  let index := getTimestampMapping r in
  Forall (fun kv => 0 <= fst (fst kv) /\ fst (fst kv) < snd (fst kv)) index
  /\ (forall k v rest, index = (k, v) :: rest -> fst k = 0)
  /\ (forall i kv kv',
        nth_error index i = Some kv -> nth_error index (S i) = Some kv' ->
        fst (fst kv') = snd (fst kv) + 1)
  /\ (forall p kv kv',
        In kv index -> In kv' index ->
        contains p (fst kv) -> contains p (fst kv') -> kv = kv').
Proof.
  intro index. subst index.
  destruct (getTimestampMapping_sorted r) as (Hsorted & Hkeys & Hnext & Hfirst).
  split; [exact Hkeys|]. split; [exact Hfirst|]. split; [exact Hnext|].
  intros p kv kv' Hin Hin' Hc Hc'.
  destruct (StronglySorted_pair _ _ _ _ Hsorted Hin Hin')
    as [E | [Hb | Hb]]; [exact E| |];
    unfold key_before, contains in *; lia.
Qed.

(** On a sorted index, the last range that starts at or before a position
    inside a range, or just after it, is that range. *)
Lemma last_started_in_range d p kv kv0 :
  StronglySorted key_before d ->
  Forall (fun kv => fst (fst kv) < snd (fst kv)) d ->
  In kv d -> fst (fst kv) <= p <= snd (fst kv) ->
  In kv0 d -> fst (fst kv0) <= p ->
  (forall kv', In kv' d -> fst (fst kv') <= p -> fst (fst kv') <= fst (fst kv0)) ->
  kv0 = kv.
Proof.
  intros Hsorted Hranges Hin Hp Hin0 Hs0 Hlast.
  rewrite Forall_forall in Hranges.
  pose proof (Hranges kv0 Hin0). specialize (Hlast kv Hin (proj1 Hp)).
  destruct (StronglySorted_pair _ _ _ _ Hsorted Hin Hin0)
    as [E | [Hb | Hb]]; [now symmetry| |]; exfalso; unfold key_before in Hb; lia.
Qed.

(** X5. Round trip between [getTimestampMapping] and
    [interpolateTimeFromDict]: a lookup at a position inside the range a
    word was recorded with, or at the position just after it, returns
    that word's time. *)
Theorem lookup_recorded_word (r : TranscriptionResult)
    (kv : (Z * Z) * timestamps) (p : Z) (search_type : string) :
  In kv (getTimestampMapping r) ->
  fst (fst kv) <= p <= snd (fst kv) ->
  interpolateTimeFromDict p (getTimestampMapping r) search_type
  = ts_get search_type (snd kv).
Proof.
  intros Hin Hp.
  destruct (getTimestampMapping_sorted r) as (Hsorted & Hkeys & _ & _).
  destruct (lookup_last_started r p search_type)
    as (kv0 & Hin0 & Hs0 & Hlast & ->).
  { intro E. rewrite E in Hin. contradiction. }
  { rewrite Forall_forall in Hkeys. destruct (Hkeys kv Hin). lia. }
  f_equal. f_equal.
  apply (last_started_in_range (getTimestampMapping r) p); auto.
  eapply Forall_impl; [|exact Hkeys]. now intros x [_ H].
Qed.

(** The word quick of the end-to-end example, at the position after it. *)
Lemma lookup_recorded_word_witness :
  let kv := ((4, 9), {| ts_start := (3 # 10)%Q; ts_end := (6 # 10)%Q |}) in
  (In kv (getTimestampMapping quick_brown_fox) /\ fst (fst kv) <= 9 <= snd (fst kv))
  /\ interpolateTimeFromDict 9 (getTimestampMapping quick_brown_fox) "end"
     = ts_get "end" (snd kv).
Proof.
  intro kv.
  assert (Hin : In kv (getTimestampMapping quick_brown_fox)).
  { right. left. reflexivity. }
  assert (Hp : fst (fst kv) <= 9 <= snd (fst kv)) by (simpl; lia).
  split; [split; [exact Hin|exact Hp]|].
  exact (lookup_recorded_word quick_brown_fox kv 9 "end" Hin Hp).
Defined.

(** X6. On the index of a transcript that has a usable word, a lookup at
    any position that is not negative finds a time (it never returns
    [None]): the start and the end of the last word whose range starts at
    or before the position. *)
Theorem lookup_total (r : TranscriptionResult) (p : Z) :
  getTimestampMapping r <> [] -> 0 <= p ->
  exists kv,
    In kv (getTimestampMapping r)
    /\ fst (fst kv) <= p
    /\ (forall kv', In kv' (getTimestampMapping r) ->
                    fst (fst kv') <= p -> fst (fst kv') <= fst (fst kv))
    /\ interpolateTimeFromDict p (getTimestampMapping r) "start"
       = Some (ts_start (snd kv))
    /\ interpolateTimeFromDict p (getTimestampMapping r) "end"
       = Some (ts_end (snd kv)).
Proof.
  intros Hne Hp.
  destruct (getTimestampMapping_sorted r) as (Hsorted & Hkeys & _ & _).
  rewrite Forall_forall in Hkeys.
  destruct (lookup_last_started r p "start" Hne Hp)
    as (kv & Hin & Hs & Hlast & Hstart).
  destruct (lookup_last_started r p "end" Hne Hp)
    as (kv' & Hin' & Hs' & Hlast' & Hend).
  exists kv. repeat split; auto.
  assert (kv' = kv) as <-; [|exact Hend].
  specialize (Hlast kv' Hin' Hs'). specialize (Hlast' kv Hin Hs).
  destruct (Hkeys kv Hin), (Hkeys kv' Hin').
  destruct (StronglySorted_pair _ _ _ _ Hsorted Hin' Hin)
    as [E | [Hb | Hb]]; [exact E| |]; unfold key_before in Hb; lia.
Qed.

Lemma lookup_total_witness :
  (getTimestampMapping quick_brown_fox <> [] /\ 0 <= 100)
  /\ exists kv,
       In kv (getTimestampMapping quick_brown_fox)
       /\ fst (fst kv) <= 100
       /\ (forall kv', In kv' (getTimestampMapping quick_brown_fox) ->
                       fst (fst kv') <= 100 -> fst (fst kv') <= fst (fst kv))
       /\ interpolateTimeFromDict 100 (getTimestampMapping quick_brown_fox) "start"
          = Some (ts_start (snd kv))
       /\ interpolateTimeFromDict 100 (getTimestampMapping quick_brown_fox) "end"
          = Some (ts_end (snd kv)).
Proof.
  assert (H : getTimestampMapping quick_brown_fox <> []).
  { vm_compute. discriminate. }
  assert (Hp : 0 <= 100) by lia.
  split; [split; [exact H|exact Hp]|].
  exact (lookup_total quick_brown_fox 100 H Hp).
Defined.


(** ** The normal path takes every end time from the index *)

(** A round on a chunk that is not blank, when the lookup finds a time. *)
Lemma timed_round_exact considerPunctuation index i chunk st e :
  truthy (strip chunk) = true ->
  interpolateTimeFromDict (next_position i chunk st) index "end" = Some e ->
  timed_round considerPunctuation index i chunk st
  = if truthy (shown_text considerPunctuation (strip chunk))
    then {| text_position := next_position i chunk st;
            start_time := e;
            CaptionsPairs :=
              CaptionsPairs st
              ++ [((start_time st, e), shown_text considerPunctuation (strip chunk))] |}
    else {| text_position := next_position i chunk st;
            start_time := start_time st;
            CaptionsPairs := CaptionsPairs st |}.
Proof.
  intros Hchunk Hfound. unfold timed_round. rewrite Hchunk. simpl.
  fold (next_position i chunk st). rewrite Hfound.
  unfold shown_text.
  destruct (truthy (strip (if considerPunctuation then strip chunk
                           else cleanWord (strip chunk)))); reflexivity.
Qed.

(** X7. On the normal path the end time of every entry is the end time of
    a usable word of the transcript: the lookup never fails there, so the
    estimate of 0.1 second per character is never used. *)
Theorem getCaptionsWithTime_ends_from_words (r : TranscriptionResult)
    (maxCaptionSize : Z) (considerPunctuation : bool) :
  getTimestampMapping r <> [] ->
  Forall (fun e => In (entry_end e) (word_end_times r))
    (getCaptionsWithTime (Analysis r) maxCaptionSize considerPunctuation).
Proof.
  intro Hne.
  unfold getCaptionsWithTime, getCaptionsWithTime_result, getCaptionsWithTime_body.
  destruct (tr_text r) as [[|text]|]; try constructor.
  destruct (negb (truthy text) || negb (truthy (strip text))); [constructor|].
  replace (truthy (getTimestampMapping r)) with true
    by (symmetry; now apply truthy_true_iff).
  simpl.
  destruct (getTimestampMapping_sorted r) as (_ & _ & _ & Hfirst).
  destruct (getTimestampMapping r) as [|[k0 v0] index0] eqn:E; [congruence|].
  rewrite <- E in *.
  set (Inv := fun (i : nat) (st : loop_state) =>
    0 <= text_position st
    /\ (i = 0%nat -> text_position st = 0)
    /\ Forall (fun e => In (entry_end e) (word_end_times r)) (CaptionsPairs st)).
  assert (Hend : forall st,
            Inv (0 + List.length
                       (caption_chunks maxCaptionSize considerPunctuation (strip text)))%nat
                st ->
            Forall (fun e => In (entry_end e) (word_end_times r)) (CaptionsPairs st)).
  { now intros st (_ & _ & H). }
  apply Hend.
  apply (timed_loop_invariant considerPunctuation (getTimestampMapping r) Inv).
  - intros i chunk st (Hpos & Hzero & Hall).
    destruct (truthy (strip chunk)) eqn:Hchunk.
    2:{ rewrite timed_round_blank by exact Hchunk.
        repeat split; auto. discriminate. }
    assert (Hnext : 0 <= next_position i chunk st).
    { unfold next_position. pose proof (len_nonneg (strip chunk)).
      destruct (i =? 0)%nat; lia. }
    destruct (lookup_selected (getTimestampMapping r) (next_position i chunk st)
                k0 v0 index0 E (Hfirst k0 v0 index0 E) Hnext)
      as (kv & [Hin _] & Hfound).
    rewrite (timed_round_exact _ _ _ _ _ _ Hchunk Hfound).
    destruct (truthy (shown_text considerPunctuation (strip chunk)));
      unfold Inv; simpl; repeat split; auto; try discriminate.
    apply Forall_app. split; [exact Hall|]. constructor; [|constructor].
    unfold entry_end. simpl.
    rewrite getTimestampMapping_ranges in Hin.
    destruct (record_ranges_times _ _ _ Hin) as (u & Hu & ->).
    unfold word_end_times. apply in_map_iff. now exists u.
  - unfold Inv. simpl. repeat split; auto. lia.
Qed.

Lemma getCaptionsWithTime_ends_from_words_witness :
  getTimestampMapping quick_brown_fox <> []
  /\ Forall (fun e => In (entry_end e) (word_end_times quick_brown_fox))
       (getCaptionsWithTime (Analysis quick_brown_fox) 15 false).
Proof.
  assert (H : getTimestampMapping quick_brown_fox <> []).
  { vm_compute. discriminate. }
  split; [exact H|].
  exact (getCaptionsWithTime_ends_from_words quick_brown_fox 15 false H).
Defined.


(** ** A transcript whose text is its words *)

Lemma cursor_after_app cursor ws ws' :
  cursor_after cursor (ws ++ ws') = cursor_after (cursor_after cursor ws) ws'.
Proof.
  revert cursor. induction ws as [|[t ts] ws IH]; intro cursor; simpl;
    [reflexivity|apply IH].
Qed.

Lemma cursor_after_shift cursor ws :
  cursor_after cursor ws = cursor + cursor_after 0 ws.
Proof.
  revert cursor. induction ws as [|[t ts] ws IH]; intro cursor; simpl; [lia|].
  rewrite IH. symmetry. rewrite IH. lia.
Qed.

(** The length of a chunk is the cursor after its words, less the last
    separator. *)
Lemma len_join_words (g : list (str * timestamps)) :
  g <> [] -> len (join [space] (map fst g)) = cursor_after 0 g - 1.
Proof.
  induction g as [|[t ts] g IH]; [congruence|]. intros _.
  destruct g as [|u g].
  - simpl. lia.
  - change (map fst ((t, ts) :: u :: g)) with (t :: fst u :: map fst g).
    rewrite join_cons_cons, !len_app.
    change (fst u :: map fst g) with (map fst (u :: g)).
    rewrite IH by discriminate.
    change (cursor_after 0 ((t, ts) :: u :: g))
      with (cursor_after (0 + len t + 1) (u :: g)).
    rewrite (cursor_after_shift (0 + len t + 1)).
    change (len [space]) with 1. lia.
Qed.

Lemma record_ranges_in cursor pre t ts post :
  In ((cursor_after cursor pre, cursor_after cursor pre + len t), ts)
    (record_ranges cursor (pre ++ (t, ts) :: post)).
Proof.
  rewrite record_ranges_app. apply in_or_app. right. now left.
Qed.

Lemma regroup (groups : list (list str)) :
  forall us : list (str * timestamps),
    List.concat groups = map fst us ->
    exists ugroups,
      List.concat ugroups = us /\ map (map fst) ugroups = groups.
Proof.
  induction groups as [|g groups IH]; intros us Hus; simpl in Hus.
  - destruct us; [|discriminate]. now exists [].
  - symmetry in Hus. apply map_eq_app in Hus.
    destruct Hus as (u1 & u2 & -> & Hg & Hrest).
    destruct (IH u2 (eq_sym Hrest)) as (ugroups & Hcat & Hmap).
    exists (u1 :: ugroups). simpl. now rewrite Hcat, Hmap, Hg.
Qed.

(** The loop of the normal path over the chunks of groups of usable
    words, after the groups [done]. *)
Lemma timed_loop_aligned considerPunctuation r rest :
  forall done i st,
    usable_words r = List.concat done ++ List.concat rest ->
    Forall (fun g => g <> []
                     /\ trimmed (join [space] (map fst g))
                     /\ join [space] (map fst g) <> []) rest ->
    i = List.length done ->
    Forall (fun g : list (str * timestamps) => g <> []) done ->
    (done <> [] -> text_position st = cursor_after 0 (List.concat done) - 1) ->
    CaptionsPairs
      (timed_loop considerPunctuation (getTimestampMapping r) i
         (map (fun g => join [space] (map fst g)) rest) st)
    = CaptionsPairs st ++ aligned_entries considerPunctuation (start_time st) rest.
Proof.
  destruct (getTimestampMapping_sorted r) as (Hsorted & Hkeys & _ & _).
  assert (Hranges : Forall (fun kv => fst (fst kv) < snd (fst kv))
                      (getTimestampMapping r)).
  { eapply Forall_impl; [|exact Hkeys]. now intros kv [_ H]. }
  induction rest as [|g rest IH]; intros done i st Hus Hrest Hi Hdone Hpos.
  - simpl. now rewrite app_nil_r.
  - inversion Hrest as [|? ? (Hg & Htrim & Hne) Hrest']; subst.
    set (chunk := join [space] (map fst g)) in *.
    assert (Hstrip : strip chunk = chunk) by now apply trimmed_strip.
    assert (Hchunk : truthy (strip chunk) = true).
    { rewrite Hstrip. now apply truthy_true_iff. }
    destruct (exists_last Hg) as (g' & [t ts] & Hlast).
    assert (Hnext : next_position (List.length done) chunk st
                    = cursor_after 0 (List.concat done ++ g) - 1).
    { unfold next_position. rewrite Hstrip. unfold chunk.
      rewrite len_join_words by exact Hg.
      rewrite cursor_after_app, (cursor_after_shift (cursor_after 0 _)).
      destruct done as [|d done]; simpl List.length; simpl Nat.eqb.
      - simpl. lia.
      - rewrite Hpos by discriminate. lia. }
    assert (Hin : In ((cursor_after 0 (List.concat done ++ g'),
                       cursor_after 0 (List.concat done ++ g') + len t), ts)
                    (getTimestampMapping r)).
    { rewrite getTimestampMapping_ranges, Hus. simpl List.concat.
      rewrite Hlast, <- !app_assoc. simpl.
      rewrite (app_assoc (List.concat done) g').
      apply record_ranges_in. }
    assert (Hend : cursor_after 0 (List.concat done ++ g) - 1
                   = cursor_after 0 (List.concat done ++ g') + len t).
    { rewrite Hlast, app_assoc, cursor_after_app. simpl. lia. }
    assert (Hfound : interpolateTimeFromDict
                       (next_position (List.length done) chunk st)
                       (getTimestampMapping r) "end"
                     = Some (ts_end ts)).
    { rewrite Hnext, Hend.
      pose proof (len_nonneg t) as Ht.
      destruct (lookup_last_started r
                  (cursor_after 0 (List.concat done ++ g') + len t) "end")
        as (kv0 & Hin0 & Hs0 & Hlast0 & ->).
      { intro E. rewrite E in Hin. contradiction. }
      { pose proof (cursor_after_ge 0 (List.concat done ++ g')). lia. }
      assert (Hp : cursor_after 0 (List.concat done ++ g')
                   <= cursor_after 0 (List.concat done ++ g') + len t
                   <= cursor_after 0 (List.concat done ++ g') + len t) by lia.
      rewrite (last_started_in_range _ _ _ kv0 Hsorted Hranges Hin Hp
                 Hin0 Hs0 Hlast0).
      reflexivity. }
    simpl map. simpl timed_loop. fold chunk.
    rewrite (timed_round_exact _ _ _ _ _ _ Hchunk Hfound).
    rewrite Hstrip. simpl aligned_entries. fold chunk.
    replace (last g no_word) with (t, ts) by (rewrite Hlast; now rewrite last_last).
    simpl snd.
    assert (Hus' : usable_words r
                   = List.concat (done ++ [g]) ++ List.concat rest).
    { rewrite Hus, concat_app. simpl. now rewrite app_nil_r, <- app_assoc. }
    assert (Hdone' : Forall (fun g : list (str * timestamps) => g <> [])
                       (done ++ [g])).
    { apply Forall_app. split; [exact Hdone|]. now repeat constructor. }
    assert (Hlen' : S (List.length done) = List.length (done ++ [g])).
    { rewrite length_app. simpl. lia. }
    assert (Hcat' : List.concat (done ++ [g]) = List.concat done ++ g).
    { rewrite concat_app. simpl. now rewrite app_nil_r. }
    destruct (truthy (shown_text considerPunctuation chunk)).
    + rewrite (IH (done ++ [g]) _ _ Hus' Hrest' Hlen' Hdone').
      * simpl. now rewrite <- app_assoc.
      * intros _. simpl. now rewrite Hcat', Hnext.
    + rewrite (IH (done ++ [g]) _ _ Hus' Hrest' Hlen' Hdone').
      * reflexivity.
      * intros _. simpl. now rewrite Hcat', Hnext.
Qed.

Lemma split_nonempty_has_text s : split s <> [] -> has_text s.
Proof.
  intro H. destruct (strip s) as [|c t] eqn:Es.
  - exfalso. apply H. apply strip_nil_iff in Es.
    rewrite <- (app_nil_r s). now rewrite split_leading_space.
  - apply strip_truthy_iff. now rewrite Es.
Qed.

(** X8. When the words of the text are the texts of the usable words, in
    order (the text is the transcript's words joined by whitespace), every
    chunk is a group of consecutive usable words and every entry ends at
    the end time of the last word of its chunk, and starts where the
    previous entry ends (the first at 0). *)
Theorem getCaptionsWithTime_aligned (r : TranscriptionResult)
    (maxCaptionSize : Z) (considerPunctuation : bool) (text : str) :
  tr_text r = Some (TextStr text) ->
  split text = map fst (usable_words r) ->
  usable_words r <> [] ->
  exists groups,
    List.concat groups = usable_words r
    /\ Forall (fun g => g <> []) groups
    /\ caption_chunks maxCaptionSize considerPunctuation (strip text)
       = map (fun g => join [space] (map fst g)) groups
    /\ getCaptionsWithTime (Analysis r) maxCaptionSize considerPunctuation
       = aligned_entries considerPunctuation 0%Q groups.
Proof.
  intros Htext Hwords Hne.
  assert (Hhas : has_text text).
  { apply split_nonempty_has_text. rewrite Hwords.
    destruct (usable_words r); [congruence|discriminate]. }
  destruct (caption_chunks_groups maxCaptionSize considerPunctuation (strip text))
    as (sgroups & Hcat & Hall & Hchunks).
  rewrite split_strip, Hwords in Hcat.
  destruct (regroup sgroups (usable_words r) Hcat) as (groups & Hcat' & Hmap).
  assert (Hchunks' : caption_chunks maxCaptionSize considerPunctuation (strip text)
                     = map (fun g => join [space] (map fst g)) groups).
  { rewrite Hchunks, <- Hmap, map_map. reflexivity. }
  assert (Hgroups : Forall (fun g : list (str * timestamps) => g <> []) groups).
  { rewrite <- Hmap in Hall. rewrite Forall_map in Hall.
    eapply Forall_impl; [|exact Hall].
    intros g [Hg _] ->. now apply Hg. }
  exists groups. split; [exact Hcat'|]. split; [exact Hgroups|].
  split; [exact Hchunks'|].
  pose proof (caption_chunks_trimmed maxCaptionSize considerPunctuation (strip text))
    as Htrim.
  rewrite Hchunks', Forall_map in Htrim.
  unfold getCaptionsWithTime, getCaptionsWithTime_result, getCaptionsWithTime_body.
  rewrite Htext.
  assert (Ht : truthy text = true).
  { destruct Hhas as (x & Hin & _). destruct text; [contradiction|reflexivity]. }
  assert (Hs : truthy (strip text) = true) by now apply strip_truthy_iff.
  assert (Hindex : truthy (getTimestampMapping r) = true).
  { rewrite getTimestampMapping_ranges.
    destruct (usable_words r) as [|[t ts] us]; [congruence|reflexivity]. }
  rewrite Ht, Hs, Hindex. simpl. rewrite Hchunks'.
  rewrite (timed_loop_aligned considerPunctuation r groups [] 0%nat); simpl; auto.
  - rewrite Forall_forall in Hgroups, Htrim. apply Forall_forall.
    intros g Hg. destruct (Htrim g Hg). auto.
  - congruence.
Qed.

Lemma getCaptionsWithTime_aligned_witness :
  let text := lit "The quick brown fox jumps over the lazy dog" in
  (tr_text quick_brown_fox = Some (TextStr text)
   /\ split text = map fst (usable_words quick_brown_fox)
   /\ usable_words quick_brown_fox <> [])
  /\ exists groups,
       List.concat groups = usable_words quick_brown_fox
       /\ Forall (fun g => g <> []) groups
       /\ caption_chunks 15 false (strip text)
          = map (fun g => join [space] (map fst g)) groups
       /\ getCaptionsWithTime (Analysis quick_brown_fox) 15 false
          = aligned_entries false 0%Q groups.
Proof.
  intro text.
  assert (H1 : split text = map fst (usable_words quick_brown_fox))
    by reflexivity.
  assert (H2 : usable_words quick_brown_fox <> []).
  { vm_compute. discriminate. }
  split; [split; [reflexivity|split; [exact H1|exact H2]]|].
  exact (getCaptionsWithTime_aligned quick_brown_fox 15 false text eq_refl H1 H2).
Defined.


(** ** splitWordsBySize: where the chunks end *)

Lemma grow_caption_why maxCaptionSize words :
  forall caption,
    exists taken,
      words = taken ++ snd (grow_caption maxCaptionSize caption words)
      /\ fst (grow_caption maxCaptionSize caption words)
         = caption ++ List.concat (map (cons space) taken)
      /\ match snd (grow_caption maxCaptionSize caption words) with
         | [] => True
         | w :: _ =>
             maxCaptionSize
             < len (fst (grow_caption maxCaptionSize caption words) ++ space :: w)
             \/ (taken <> []
                 /\ (halfCaptionSize maxCaptionSize
                     <= inject_Z
                          (len (fst (grow_caption maxCaptionSize caption words))))%Q)
         end
      /\ (forall pre suf,
            taken = pre ++ suf -> pre <> [] -> suf <> [] ->
            ~ (halfCaptionSize maxCaptionSize
               <= inject_Z (len (caption ++ List.concat (map (cons space) pre))))%Q).
Proof.
  induction words as [|w rest IH]; intro caption.
  - exists []. simpl. rewrite app_nil_r. repeat split; auto.
    intros pre suf H Hpre _. destruct pre; [congruence|discriminate].
  - simpl.
    destruct (len (caption ++ space :: w) <=? maxCaptionSize) eqn:Hfit.
    + destruct (Qle_bool (halfCaptionSize maxCaptionSize)
                  (inject_Z (len (caption ++ space :: w)))) eqn:Hhalf.
      * destruct (truthy rest) eqn:Hrest; simpl.
        -- exists [w]. simpl. rewrite app_nil_r. repeat split; auto.
           ++ destruct rest as [|v rest']; [discriminate|].
              right. split; [discriminate|]. now apply Qle_bool_iff.
           ++ intros pre suf H Hpre Hsuf.
              destruct pre as [|a [|b pre]]; [congruence| |discriminate].
              destruct suf; [congruence|discriminate].
        -- destruct rest; [|discriminate]. simpl.
           exists [w]. simpl. rewrite app_nil_r. repeat split; auto.
           intros pre suf H Hpre Hsuf.
           destruct pre as [|a [|b pre]]; [congruence| |discriminate].
           destruct suf; [congruence|discriminate].
      * simpl.
        destruct (IH (caption ++ space :: w)) as (taken & Hw & Hc & Hstop & Heager).
        exists (w :: taken). simpl. split; [congruence|]. split; [|split].
        -- rewrite Hc. now rewrite <- app_assoc.
        -- destruct (snd (grow_caption maxCaptionSize (caption ++ space :: w) rest));
             [exact I|].
           destruct Hstop as [H | [_ H]]; [now left|].
           right. split; [discriminate|exact H].
        -- intros pre suf H Hpre Hsuf.
           destruct pre as [|a pre]; [congruence|].
           simpl in H. injection H as <- Htaken.
           destruct pre as [|b pre].
           ++ simpl. rewrite app_nil_r. intro Hle.
              apply Qle_bool_iff in Hle. congruence.
           ++ intro Hle.
              apply (Heager (b :: pre) suf Htaken); [discriminate|exact Hsuf|].
              simpl in *. rewrite <- app_assoc. exact Hle.
    + exists []. simpl. rewrite app_nil_r. repeat split; auto.
      * left. apply Z.leb_gt in Hfit. exact Hfit.
      * intros pre suf H Hpre _. destruct pre; [congruence|discriminate].
Qed.

Lemma split_rounds_boundaries maxCaptionSize fuel :
  forall words,
    (List.length words <= fuel)%nat ->
    exists groups,
      List.concat groups = words
      /\ split_rounds maxCaptionSize fuel words = map (join [space]) groups
      /\ Forall (fun g => g <> [] /\ grows_below_half maxCaptionSize g) groups
      /\ (forall g rest, groups = g :: rest ->
                         exists w ws t, words = w :: ws /\ g = w :: t)
      /\ (forall i g w t,
            nth_error groups i = Some g ->
            nth_error groups (S i) = Some (w :: t) ->
            closes_chunk maxCaptionSize g w).
Proof.
  induction fuel as [|fuel IH]; intros words Hfuel.
  - destruct words; [|simpl in Hfuel; lia].
    exists []. simpl. repeat split; auto; try discriminate;
      try (intros [|i] g w t H; discriminate).
  - destruct words as [|w rest].
    { exists []. simpl. repeat split; auto; try discriminate;
        try (intros [|i] g w t H; discriminate). }
    simpl.
    destruct (grow_caption_why maxCaptionSize rest w)
      as (taken & Hrest & Hcap & Hstop & Heager).
    destruct (grow_caption maxCaptionSize w rest) as [caption words'].
    simpl in Hrest, Hcap, Hstop, Heager.
    destruct (IH words') as (groups & Hcat & Heq & Hall & Hhead & Hadj).
    { simpl in Hfuel. rewrite Hrest, length_app in Hfuel. lia. }
    assert (Hjoin : join [space] (w :: taken) = caption)
      by now rewrite join_head_tail, <- Hcap.
    exists ((w :: taken) :: groups). split; [|split; [|split; [|split]]].
    + simpl. now rewrite Hcat, Hrest.
    + rewrite map_cons, Hjoin, Heq. reflexivity.
    + constructor; [|exact Hall]. split; [discriminate|].
      intros pre suf Hg Hpre Hsuf.
      destruct pre as [|a pre]; [simpl in Hpre; lia|].
      simpl in Hg. injection Hg as <- Htaken.
      rewrite join_head_tail.
      apply (Heager pre suf Htaken); [|exact Hsuf].
      destruct pre; [simpl in Hpre; lia|discriminate].
    + intros g rest' E. injection E as <- _. now exists w, rest, taken.
    + intros [|i] g v t Hi HSi; simpl in Hi, HSi.
      * injection Hi as <-.
        destruct groups as [|g' groups']; [discriminate|].
        simpl in HSi. injection HSi as ->.
        destruct (Hhead _ _ eq_refl) as (w' & ws' & t' & Hw' & Hg').
        injection Hg' as -> ->. subst words'.
        unfold closes_chunk. rewrite Hjoin.
        destruct Hstop as [H | [Htaken H]]; [now left|].
        right. split; [|exact H].
        destruct taken; [congruence|simpl; lia].
      * exact (Hadj i g v t Hi HSi).
Qed.

(** X9. The chunks of [splitWordsBySize] are the joins of groups of
    consecutive words such that a chunk is closed before a next word only
    when that word would not fit behind it, or when the chunk has at least
    two words and has reached half of [maxCaptionSize]; and a chunk never
    grows past the moment it has two words or more and has reached that
    half. *)
Theorem splitWordsBySize_boundaries (words : list str) (maxCaptionSize : Z) :
  exists groups,
    List.concat groups = words
    /\ splitWordsBySize words maxCaptionSize = map (join [space]) groups
    /\ Forall (fun g => g <> [] /\ grows_below_half maxCaptionSize g) groups
    /\ (forall i g w t,
          nth_error groups i = Some g ->
          nth_error groups (S i) = Some (w :: t) ->
          closes_chunk maxCaptionSize g w).
Proof.
  destruct (split_rounds_boundaries maxCaptionSize (List.length words) words
              (Nat.le_refl _))
    as (groups & Hcat & Heq & Hall & _ & Hadj).
  exists groups. unfold splitWordsBySize. auto.
Qed.

Lemma concat_length_ge {A : Type} (groups : list (list A)) :
  Forall (fun g => g <> []) groups ->
  (List.length groups <= List.length (List.concat groups))%nat.
Proof.
  induction 1 as [|g groups Hg _ IH]; [simpl; lia|].
  simpl. rewrite length_app. destruct g; [congruence|simpl; lia].
Qed.

(** X10. [splitWordsBySize] returns no more chunks than there are words,
    returns the empty list exactly on the empty list, and its first chunk
    starts with the first word. *)
Theorem splitWordsBySize_count (words : list str) (maxCaptionSize : Z) :
  (List.length (splitWordsBySize words maxCaptionSize) <= List.length words)%nat
  /\ (splitWordsBySize words maxCaptionSize = [] <-> words = [])
  /\ (forall w rest, words = w :: rest ->
        exists tail chunks,
          splitWordsBySize words maxCaptionSize = (w ++ tail) :: chunks).
Proof.
  destruct (splitWordsBySize_groups maxCaptionSize words)
    as (groups & Hcat & Hall & Heq).
  assert (Hne : Forall (fun g : list str => g <> []) groups).
  { eapply Forall_impl; [|exact Hall]. now intros g [Hg _]. }
  split; [|split].
  - rewrite Heq, length_map, <- Hcat. now apply concat_length_ge.
  - split.
    + intro H. rewrite Heq in H. destruct groups; [|discriminate].
      now rewrite <- Hcat.
    + intros ->. reflexivity.
  - intros w rest ->. rewrite splitWordsBySize_cons.
    destruct (grow_caption_taken maxCaptionSize rest w) as (taken & _ & Hc & _).
    rewrite Hc. eauto.
Qed.


(** ** getTimestampMapping: skipped words and segment boundaries *)

Lemma usable_in_app l l' : usable_in (l ++ l') = usable_in l ++ usable_in l'.
Proof.
  induction l as [|w l IH]; [reflexivity|].
  simpl. destruct (usable_word w); simpl; now rewrite IH.
Qed.

Lemma usable_in_filter l : usable_in (filter word_usable l) = usable_in l.
Proof.
  induction l as [|w l IH]; [reflexivity|].
  simpl. unfold word_usable at 1.
  destruct (usable_word w) eqn:E; simpl; [rewrite E|]; now rewrite IH.
Qed.

Lemma usable_words_all text segments :
  usable_words {| tr_text := text; tr_segments := Some segments |}
  = usable_in (all_words segments).
Proof.
  unfold usable_words, all_words. simpl.
  induction segments as [|segment segments IH]; [reflexivity|].
  simpl. rewrite usable_in_app, IH.
  destruct (seg_words segment); reflexivity.
Qed.

(** X11. The index depends only on the usable words in order: word
    entries that are skipped (not a dict, no text, blank text, a missing
    timestamp) do not shift the ranges of the words after them, and the
    way the words are spread over segments, the segments' [end] and the
    text do not matter.  A result without the key [segments] has the
    empty index. *)
Theorem getTimestampMapping_usable_only :
  (forall text text' seg_end segments,
     getTimestampMapping {| tr_text := text; tr_segments := Some segments |}
     = getTimestampMapping
         {| tr_text := text';
            tr_segments :=
              Some [ {| seg_end := seg_end;
                        seg_words :=
                          Some (filter word_usable (all_words segments)) |} ] |})
  /\ (forall text, getTimestampMapping {| tr_text := text; tr_segments := None |} = []).
Proof.
  split; [|reflexivity].
  intros text text' e segments.
  rewrite !getTimestampMapping_ranges, !usable_words_all.
  unfold all_words at 2. simpl. rewrite app_nil_r.
  now rewrite usable_in_filter.
Qed.

(** ** The estimated timing stays within the total duration, but for rounding *)

Lemma sliced_entries_index considerPunctuation d chunks :
  forall i,
    Forall (fun e => exists j, (i <= j < i + List.length chunks)%nat
                               /\ fst e = slice d j)
      (sliced_entries considerPunctuation d i chunks).
Proof.
  induction chunks as [|chunk chunks IH]; intro i; simpl; [constructor|].
  apply Forall_app. split.
  - destruct (truthy (shown_text considerPunctuation chunk)); constructor;
      [|constructor].
    exists i. split; [lia|reflexivity].
  - eapply Forall_impl; [|apply IH].
    intros e (j & Hj & He). exists j. split; [lia|exact He].
Qed.

Lemma estimated_captions_within considerPunctuation r chunks :
  (0 <= total_duration r)%Q ->
  Forall (fun e => (0 <= entry_start e)%Q
                   /\ (entry_start e <= entry_end e)%Q
                   /\ (entry_end e
                       <= total_duration r * (1 + (1 # 2 ^ 51))
                          + inject_Z (len chunks) * 2 ^ (-1072))%Q)
    (estimated_captions considerPunctuation r chunks).
Proof.
  intro Htotal.
  unfold estimated_captions. rewrite estimated_loop_spec. simpl.
  destruct chunks as [|c cs] eqn:E; [constructor|].
  rewrite <- E. replace (truthy chunks) with true by now rewrite E.
  assert (Hne : chunks <> []) by (rewrite E; discriminate).
  assert (Hlen : 1 <= len chunks).
  { unfold len. rewrite E. simpl List.length. lia. }
  set (d := fdiv (total_duration r) (float_of_int (len chunks))).
  assert (Hd : (0 <= d)%Q).
  { apply fl_nonneg, Qle_shift_div_l.
    - now apply float_of_len_pos.
    - now rewrite Qmult_0_l. }
  eapply Forall_impl; [|apply sliced_entries_index].
  intros e (j & Hj & He). unfold entry_start, entry_end. rewrite He.
  unfold slice. cbn [fst snd].
  split; [|split].
  - apply fl_nonneg, Qmult_le_0_compat; [|exact Hd].
    apply fl_nonneg. change 0%Q with (inject_Z 0). rewrite <- Zle_Qle. lia.
  - apply float_index_le; [exact Hd|lia].
  - apply (Qle_trans _ (fmul (float_of_int (len chunks)) d)).
    + apply float_index_le; [exact Hd|]. unfold len. lia.
    + now apply slices_near_total.
Qed.

(** X12. On the estimated path, when the total duration is not negative
    (and small enough for no product to overflow), the start of every
    entry is not negative and not after its end, and its end is not after
    the total duration but for the rounding of the quotient and of the
    products: a relative excess of at most [2^-51], and [2^-1072] for
    every chunk. *)
Theorem getCaptionsWithTime_estimated_within (r : TranscriptionResult)
    (maxCaptionSize : Z) (considerPunctuation : bool) (text : str) :
  tr_text r = Some (TextStr text) ->
  getTimestampMapping r = [] ->
  (0 <= total_duration r <= 2 ^ 1023)%Q ->
  let chunks := caption_chunks maxCaptionSize considerPunctuation (strip text) in
  Forall (fun e => (0 <= entry_start e)%Q
                   /\ (entry_start e <= entry_end e)%Q
                   /\ (entry_end e
                       <= total_duration r * (1 + (1 # 2 ^ 51))
                          + inject_Z (len chunks) * 2 ^ (-1072))%Q)
    (getCaptionsWithTime (Analysis r) maxCaptionSize considerPunctuation).
Proof.
  intros Htext Hindex [Htotal _] chunks. subst chunks.
  unfold getCaptionsWithTime, getCaptionsWithTime_result, getCaptionsWithTime_body.
  rewrite Htext.
  destruct (negb (truthy text) || negb (truthy (strip text))); [constructor|].
  rewrite Hindex. simpl.
  now apply estimated_captions_within.
Qed.

Lemma getCaptionsWithTime_estimated_within_witness :
  let text := lit "The quick brown fox. Jumps over!" in
  let r := {| tr_text := Some (TextStr text);
              tr_segments := Some [ {| seg_end := Some 8%Q; seg_words := None |} ] |} in
  let chunks := caption_chunks 15 false (strip text) in
  (tr_text r = Some (TextStr text) /\ getTimestampMapping r = []
   /\ (0 <= total_duration r <= 2 ^ 1023)%Q)
  /\ Forall (fun e => (0 <= entry_start e)%Q
                      /\ (entry_start e <= entry_end e)%Q
                      /\ (entry_end e
                          <= total_duration r * (1 + (1 # 2 ^ 51))
                             + inject_Z (len chunks) * 2 ^ (-1072))%Q)
       (getCaptionsWithTime (Analysis r) 15 false).
Proof.
  intros text r chunks.
  assert (H1 : getTimestampMapping r = []) by reflexivity.
  assert (H2 : (0 <= total_duration r <= 2 ^ 1023)%Q)
    by (split; vm_compute; discriminate).
  split; [split; [reflexivity|split; [exact H1|exact H2]]|].
  exact (getCaptionsWithTime_estimated_within r 15 false text eq_refl H1 H2).
Defined.


(** ** The transcription methods *)

Lemma py_max_ge a b : (a <= py_max a b)%Q /\ (b <= py_max a b)%Q.
Proof.
  unfold py_max. destruct (Qle_bool b a) eqn:E.
  - apply Qle_bool_iff in E. split; [apply Qle_refl|exact E].
  - split; [|apply Qle_refl].
    destruct (Qlt_le_dec a b) as [H | H]; [now apply Qlt_le_weak|].
    apply Qle_bool_iff in H. congruence.
Qed.

(** X13. For a text that is not empty, [create_simple_timed_captions]
    returns a result without timed words whose one segment ends at
    [max(len(text) * 0.05, 5.0)], the product being that of binary64
    numbers; so [getCaptionsWithTime] takes the estimated path on it with
    that total duration, which is at least 5 seconds, and no caption starts
    before 0 or after its end.  When the call of the model raises, or the
    text is missing, [None] or empty, it returns [None]. *)
Theorem create_simple_timed_captions_estimated :
  (forall (s : str) maxCaptionSize considerPunctuation,
     s <> [] ->
     exists r,
       create_simple_timed_captions (Returned (Some (TextStr s))) = Some r
       /\ tr_text r = Some (TextStr s)
       /\ getTimestampMapping r = []
       /\ total_duration r
          = py_max (fmul (float_of_int (len s)) (fl (5 # 100))) 5
       /\ (5 <= total_duration r)%Q
       /\ Forall (fun e => (0 <= entry_start e)%Q
                           /\ (entry_start e <= entry_end e)%Q)
            (getCaptionsWithTime (Analysis r) maxCaptionSize considerPunctuation))
  /\ create_simple_timed_captions Raised = None
  /\ create_simple_timed_captions (Returned None) = None
  /\ create_simple_timed_captions (Returned (Some TextNone)) = None
  /\ create_simple_timed_captions (Returned (Some (TextStr []))) = None.
Proof.
  split; [|repeat split].
  intros s m p Hs.
  destruct s as [|c s]; [congruence|].
  eexists. split; [reflexivity|]. split; [reflexivity|]. split; [reflexivity|].
  set (total := py_max (fmul (float_of_int (len (c :: s))) (fl (5 # 100))) 5).
  assert (Hfive : (5 <= total)%Q) by apply py_max_ge.
  assert (Htotal : total_duration
                     {| tr_text := Some (TextStr (c :: s));
                        tr_segments :=
                          Some [ {| seg_end := Some total; seg_words := Some [] |} ] |}
                   = total).
  { unfold total_duration. simpl.
    destruct (Qeq_bool total 0) eqn:E; [|reflexivity].
    apply Qeq_bool_iff in E. rewrite E in Hfive.
    exfalso. revert Hfive. unfold Qle. simpl. lia. }
  split; [exact Htotal|]. split; [now rewrite Htotal|].
  unfold getCaptionsWithTime, getCaptionsWithTime_result, getCaptionsWithTime_body.
  cbn [tr_text].
  destruct (negb (truthy (c :: s)) || negb (truthy (strip (c :: s))));
    [constructor|].
  change (getTimestampMapping _) with (@nil ((Z * Z) * timestamps)).
  cbn [truthy negb returned].
  eapply Forall_impl; [|apply estimated_captions_within].
  - intros e (H1 & H2 & _). split; assumption.
  - rewrite Htotal. eapply Qle_trans; [|exact Hfive]. unfold Qle. simpl. lia.
Qed.

Lemma create_simple_timed_captions_estimated_witness :
  lit "hello world" <> []
  /\ exists r,
       create_simple_timed_captions (Returned (Some (TextStr (lit "hello world"))))
       = Some r
       /\ tr_text r = Some (TextStr (lit "hello world"))
       /\ getTimestampMapping r = []
       /\ total_duration r
          = py_max (fmul (float_of_int (len (lit "hello world"))) (fl (5 # 100))) 5
       /\ (5 <= total_duration r)%Q
       /\ Forall (fun e => (0 <= entry_start e)%Q
                           /\ (entry_start e <= entry_end e)%Q)
            (getCaptionsWithTime (Analysis r) 15 false).
Proof.
  assert (H : lit "hello world" <> []) by discriminate.
  split; [exact H|].
  exact (proj1 create_simple_timed_captions_estimated (lit "hello world") 15 false H).
Defined.

(** A text of 284 characters: the segment ends at [14.200000000000001],
    the binary64 product of 284 and 0.05. *)
Example create_simple_timed_captions_rounded :
  option_map total_duration
    (create_simple_timed_captions
       (Returned (Some (TextStr (repeat "a"%char 284)))))
  = Some (7993889338582631 # 562949953421312)%Q.
Proof. vm_compute. reflexivity. Qed.

(** X14. Whatever [transcribe_with_regular_whisper] returns has the key
    [segments], and it yields the captions the raw result of the model
    yields: the segment it adds to a result without segments changes
    nothing for [getCaptionsWithTime].  When the call raises it returns
    [None]. *)
Theorem transcribe_with_regular_whisper_same_captions :
  (forall result r' maxCaptionSize considerPunctuation,
     transcribe_with_regular_whisper (Returned result) = Some r' ->
     tr_segments r' <> None
     /\ getCaptionsWithTime (Analysis r') maxCaptionSize considerPunctuation
        = getCaptionsWithTime (Analysis result) maxCaptionSize considerPunctuation)
  /\ transcribe_with_regular_whisper Raised = None.
Proof.
  split; [|reflexivity].
  intros result r' m p H. unfold transcribe_with_regular_whisper in H.
  destruct (tr_segments result) as [segments|] eqn:E; injection H as <-.
  - split; [congruence|reflexivity].
  - split; [discriminate|].
    unfold getCaptionsWithTime, getCaptionsWithTime_result,
      getCaptionsWithTime_body.
    cbn [tr_text].
    destruct (tr_text result) as [[|text]|]; try reflexivity.
    destruct (negb (truthy text) || negb (truthy (strip text))); [reflexivity|].
    unfold getTimestampMapping. rewrite E. cbn.
    unfold estimated_captions, total_duration. rewrite E. reflexivity.
Qed.

Lemma transcribe_with_regular_whisper_same_captions_witness :
  let result := {| tr_text := Some (TextStr (lit "hello world")); tr_segments := None |} in
  let r' := {| tr_text := Some (TextStr (lit "hello world"));
               tr_segments := Some [ {| seg_end := Some 10%Q; seg_words := Some [] |} ] |} in
  transcribe_with_regular_whisper (Returned result) = Some r'
  /\ tr_segments r' <> None
  /\ getCaptionsWithTime (Analysis r') 15 false
     = getCaptionsWithTime (Analysis result) 15 false.
Proof.
  intros result r'.
  assert (H : transcribe_with_regular_whisper (Returned result) = Some r')
    by reflexivity.
  split; [exact H|].
  exact (proj1 transcribe_with_regular_whisper_same_captions result r' 15 false H).
Defined.

(** ** What every caption text satisfies *)

Lemma lstrip_length s : (List.length (lstrip s) <= List.length s)%nat.
Proof.
  induction s as [|c s IH]; simpl; [lia|].
  destruct (isspace c); simpl; lia.
Qed.

Lemma strip_length s : (List.length (strip s) <= List.length s)%nat.
Proof.
  unfold strip, rstrip. rewrite length_rev.
  etransitivity; [apply lstrip_length|].
  rewrite length_rev. apply lstrip_length.
Qed.

Lemma shown_text_shrinks considerPunctuation chunk :
  len (shown_text considerPunctuation chunk) <= len chunk
  /\ (forall c, In c (shown_text considerPunctuation chunk) -> In c chunk).
Proof.
  unfold shown_text, len. split.
  - pose proof (strip_length (if considerPunctuation then chunk else cleanWord chunk)).
    destruct considerPunctuation; [lia|].
    pose proof (filter_length_le kept chunk). unfold cleanWord in *. lia.
  - intros c Hc. apply strip_incl in Hc.
    destruct considerPunctuation; [exact Hc|].
    unfold cleanWord in Hc. now apply filter_In in Hc.
Qed.

(** A chunk fits the size or is one word. *)
Lemma caption_chunk_form maxCaptionSize considerPunctuation text chunk :
  In chunk (caption_chunks maxCaptionSize considerPunctuation text) ->
  len chunk <= maxCaptionSize \/ Forall (fun c => isspace c = false) chunk.
Proof.
  intro Hin.
  destruct (caption_chunks_groups maxCaptionSize considerPunctuation text)
    as (groups & Hcat & Hall & Heq).
  rewrite Heq in Hin. apply in_map_iff in Hin. destruct Hin as (g & <- & Hg).
  rewrite Forall_forall in Hall. destruct (Hall g Hg) as [_ [Hone | Hfit]];
    [|now left].
  right. destruct g as [|w [|v g']]; try discriminate. simpl.
  pose proof (split_from_words text [] (Forall_nil _)) as Hwords.
  unfold split in Hcat. rewrite <- Hcat in Hwords.
  apply Forall_concat_inv in Hwords. rewrite Forall_forall in Hwords.
  specialize (Hwords [w] Hg). inversion Hwords as [|? ? [_ H] _]. exact H.
Qed.

Lemma captions_cases wa maxCaptionSize considerPunctuation :
  getCaptionsWithTime wa maxCaptionSize considerPunctuation = []
  \/ exists r text,
       wa = Analysis r /\ tr_text r = Some (TextStr text) /\ has_text text.
Proof.
  destruct wa as [|r]; [now left|].
  destruct (tr_text r) as [[|text]|] eqn:Htext;
    try (left; unfold getCaptionsWithTime, getCaptionsWithTime_result,
           getCaptionsWithTime_body; now rewrite Htext).
  destruct (truthy (strip text)) eqn:Hs.
  - right. exists r, text. repeat split; auto. now apply strip_truthy_iff.
  - left. unfold getCaptionsWithTime, getCaptionsWithTime_result,
      getCaptionsWithTime_body.
    rewrite Htext, Hs. now rewrite orb_true_r.
Qed.

Lemma captions_text_props wa maxCaptionSize considerPunctuation :
  Forall (fun e =>
            entry_text e <> []
            /\ strip (entry_text e) = entry_text e
            /\ (considerPunctuation = false ->
                Forall (fun c => kept c = true) (entry_text e))
            /\ (len (entry_text e) <= maxCaptionSize
                \/ Forall (fun c => isspace c = false) (entry_text e)))
    (getCaptionsWithTime wa maxCaptionSize considerPunctuation).
Proof.
  destruct (captions_cases wa maxCaptionSize considerPunctuation)
    as [-> | (r & text & -> & Htext & Hhas)]; [constructor|].
  pose proof (captions_texts r maxCaptionSize considerPunctuation text Htext Hhas)
    as Htexts.
  apply Forall_forall. intros e He.
  assert (Hin : In (entry_text e)
                  (map entry_text
                     (getCaptionsWithTime (Analysis r) maxCaptionSize
                        considerPunctuation)))
    by now apply in_map.
  rewrite Htexts in Hin. apply filter_In in Hin. destruct Hin as [Hin Htruthy].
  apply in_map_iff in Hin. destruct Hin as (chunk & Heq & Hchunk).
  rewrite <- Heq in *.
  destruct (shown_text_shrinks considerPunctuation chunk) as [Hlen Hincl].
  split; [now apply truthy_true_iff|]. split; [apply strip_idempotent|]. split.
  - intros ->. apply Forall_forall. intros c Hc.
    unfold shown_text in Hc. apply strip_incl in Hc. unfold cleanWord in Hc.
    now apply filter_In in Hc.
  - destruct (caption_chunk_form _ _ _ _ Hchunk) as [Hfit | Hword]; [left; lia|].
    right. rewrite Forall_forall in Hword. apply Forall_forall.
    intros c Hc. apply Hword, Hincl, Hc.
Qed.

(** X15. The text of every entry is at most [maxCaptionSize] characters
    long, unless it is a single word (it has no whitespace). *)
Theorem getCaptionsWithTime_text_fits (wa : whisper_analysis)
    (maxCaptionSize : Z) (considerPunctuation : bool) :
  Forall (fun e => len (entry_text e) <= maxCaptionSize
                   \/ Forall (fun c => isspace c = false) (entry_text e))
    (getCaptionsWithTime wa maxCaptionSize considerPunctuation).
Proof.
  eapply Forall_impl; [|apply captions_text_props].
  intros e (_ & _ & _ & H). exact H.
Qed.

(** ** generate_timed_captions *)

Lemma try_methods_first pre r post :
  Forall (fun m => m = Raised \/ m = Returned None) pre ->
  try_methods (pre ++ Returned (Some r) :: post)
  = getCaptionsWithTime (Analysis r) 15 false.
Proof.
  induction 1 as [|m pre [-> | ->] _ IH]; [reflexivity| |]; exact IH.
Qed.

Lemma try_methods_none ms :
  Forall (fun m => m = Raised \/ m = Returned None) ms -> try_methods ms = [].
Proof.
  induction 1 as [|m ms [-> | ->] _ IH]; [reflexivity| |]; exact IH.
Qed.

Lemma try_methods_props ms :
  Forall (fun e =>
            entry_text e <> []
            /\ strip (entry_text e) = entry_text e
            /\ Forall (fun c => kept c = true) (entry_text e)
            /\ (len (entry_text e) <= 15
                \/ Forall (fun c => isspace c = false) (entry_text e)))
    (try_methods ms).
Proof.
  induction ms as [|[|[r|]] ms IH]; simpl; auto.
  eapply Forall_impl; [|apply (captions_text_props (Analysis r) 15 false)].
  intros e (H1 & H2 & H3 & H4). auto.
Qed.

(** X16. [generate_timed_captions] returns the empty list when the audio
    file is missing or empty or the model does not load, and when every
    method raises or returns nothing.  Otherwise it returns the captions
    of the first method (conservative, basic, regular whisper, simple)
    that returns a result, without consulting the later ones, even when
    these captions are empty.  Whatever the outcome of the calls, every
    caption text it returns is not empty, is stripped, holds only
    characters [cleanWord] keeps, and is at most 15 characters long
    unless it is a single word. *)
Theorem generate_timed_captions_result (calls : transcription_calls) :
  (audio_exists calls = false \/ audio_size calls = 0
   \/ model_loaded calls = Raised ->
   generate_timed_captions calls = [])
  /\ (forall pre r post,
        audio_exists calls = true -> audio_size calls <> 0 ->
        model_loaded calls <> Raised ->
        methods calls = pre ++ Returned (Some r) :: post ->
        Forall (fun m => m = Raised \/ m = Returned None) pre ->
        generate_timed_captions calls = getCaptionsWithTime (Analysis r) 15 false)
  /\ (Forall (fun m => m = Raised \/ m = Returned None) (methods calls) ->
      generate_timed_captions calls = [])
  /\ Forall (fun e =>
               entry_text e <> []
               /\ strip (entry_text e) = entry_text e
               /\ Forall (fun c => kept c = true) (entry_text e)
               /\ (len (entry_text e) <= 15
                   \/ Forall (fun c => isspace c = false) (entry_text e)))
       (generate_timed_captions calls).
Proof.
  unfold generate_timed_captions, generate_timed_captions_body.
  split; [|split; [|split]].
  - intros [-> | [-> | ->]]; [reflexivity| |].
    + destruct (negb (audio_exists calls)); reflexivity.
    + destruct (negb (audio_exists calls)); [reflexivity|].
      destruct (audio_size calls =? 0); reflexivity.
  - intros pre r post -> Hsize Hload Hm Hpre. cbn [negb].
    apply Z.eqb_neq in Hsize. rewrite Hsize.
    destruct (model_loaded calls); [congruence|].
    rewrite Hm. now apply try_methods_first.
  - intro Hnone.
    destruct (negb (audio_exists calls)); [reflexivity|].
    destruct (audio_size calls =? 0); [reflexivity|].
    destruct (model_loaded calls); [reflexivity|].
    now apply try_methods_none.
  - destruct (negb (audio_exists calls)); [constructor|].
    destruct (audio_size calls =? 0); [constructor|].
    destruct (model_loaded calls); [constructor|].
    apply try_methods_props.
Qed.

(** Both timestamped calls fail, the regular call raises, the plain call
    returns a text: the captions are those of the simple method. *)
Lemma generate_timed_captions_result_witness :
  let calls := {| audio_exists := true; audio_size := 1024;
                  model_loaded := Returned tt;
                  timestamped_conservative := Raised;
                  timestamped_basic := Returned None;
                  whisper_words := Raised;
                  whisper_plain := Returned (Some (TextStr (lit "hello world"))) |} in
  let r := {| tr_text := Some (TextStr (lit "hello world"));
              tr_segments :=
                Some [ {| seg_end := Some (py_max (fmul (float_of_int 11) (fl (5 # 100))) 5);
                          seg_words := Some [] |} ] |} in
  (audio_exists calls = true /\ audio_size calls <> 0
   /\ model_loaded calls <> Raised
   /\ methods calls = [Raised; Returned None; Returned None] ++ Returned (Some r) :: []
   /\ Forall (fun m => m = Raised \/ m = Returned None)
        [Raised; Returned None; Returned (@None TranscriptionResult)])
  /\ generate_timed_captions calls = getCaptionsWithTime (Analysis r) 15 false.
Proof.
  intros calls r.
  assert (H1 : audio_size calls <> 0) by (simpl; lia).
  assert (H2 : model_loaded calls <> Raised) by discriminate.
  assert (H3 : methods calls
               = [Raised; Returned None; Returned None] ++ Returned (Some r) :: [])
    by reflexivity.
  assert (H4 : Forall (fun m => m = Raised \/ m = Returned None)
                 [Raised; Returned None; Returned (@None TranscriptionResult)]).
  { constructor; [now left|]. constructor; [now right|].
    constructor; [now right|]. constructor. }
  split;
    [split; [reflexivity|split; [exact H1|split; [exact H2|split; [exact H3|exact H4]]]]|].
  exact (proj1 (proj2 (generate_timed_captions_result calls))
           _ r [] eq_refl H1 H2 H3 H4).
Defined.

(** * merge_empty_intervals *)

Lemma none_run_spec segments :
  segments = fst (none_run segments) ++ snd (none_run segments)
  /\ Forall (fun s : video_segment => snd s = None) (fst (none_run segments))
  /\ (forall interval tl, snd (none_run segments) <> (interval, None) :: tl).
Proof.
  induction segments as [|[interval [url|]] tl IH]; simpl.
  - repeat split; auto. discriminate.
  - repeat split; auto. intros iv tl' H. discriminate.
  - destruct (none_run tl) as [run rest]. simpl in *.
    destruct IH as (Heq & Hrun & Hrest).
    repeat split; auto. now rewrite Heq at 1.
Qed.

Lemma merge_rounds_fuel fuel :
  forall fuel' first segments merged,
    (List.length segments <= fuel)%nat -> (List.length segments <= fuel')%nat ->
    merge_rounds fuel first segments merged
    = merge_rounds fuel' first segments merged.
Proof.
  induction fuel as [|fuel IH]; intros fuel' first segments merged H H'.
  - destruct segments; [|simpl in H; lia]. now destruct fuel'.
  - destruct segments as [|[interval [url|]] tl]; [now destruct fuel'| |];
      (destruct fuel' as [|fuel']; [simpl in H'; lia|]); simpl in *.
    + apply IH; lia.
    + destruct (none_run_spec tl) as (Heq & _).
      destruct (none_run tl) as [run rest]. simpl in Heq.
      assert (List.length rest <= List.length tl)%nat
        by (rewrite Heq, length_app; lia).
      apply IH; lia.
Qed.

(** A property of the remaining segments and the merged list that both
    branches keep holds of the result. *)
Lemma merge_rounds_invariant
    (Inv : bool -> list video_segment -> list video_segment -> Prop) :
  (forall first interval url tl merged,
     Inv first ((interval, Some url) :: tl) merged ->
     Inv false tl (merged ++ [(interval, Some url)])) ->
  (forall first interval tl merged,
     Inv first ((interval, None) :: tl) merged ->
     Inv false (snd (none_run tl))
       (merge_none first interval (fst (none_run tl)) merged)) ->
  forall fuel first segments merged,
    (List.length segments <= fuel)%nat ->
    Inv first segments merged ->
    exists first', Inv first' [] (merge_rounds fuel first segments merged).
Proof.
  intros Hsome Hnone. induction fuel as [|fuel IH];
    intros first segments merged Hfuel Hinv.
  - destruct segments; [|simpl in Hfuel; lia]. now exists first.
  - destruct segments as [|[interval [url|]] tl]; [now exists first| |]; simpl.
    + apply IH; [simpl in Hfuel; lia|]. now apply (Hsome first).
    + pose proof (Hnone first interval tl merged Hinv) as Hstep.
      destruct (none_run_spec tl) as (Heq & _).
      destruct (none_run tl) as [run rest]. simpl in *.
      apply IH; [|exact Hstep].
      rewrite Heq, length_app in Hfuel. lia.
Qed.

Lemma merge_rounds_all_urls segments :
  forall fuel first merged,
    (List.length segments <= fuel)%nat ->
    Forall has_url segments ->
    merge_rounds fuel first segments merged = merged ++ segments.
Proof.
  induction segments as [|[interval [url|]] tl IH];
    intros fuel first merged Hfuel Hall.
  - destruct fuel; simpl; now rewrite app_nil_r.
  - destruct fuel as [|fuel]; [simpl in Hfuel; lia|]. simpl.
    inversion Hall; subst.
    rewrite IH; [now rewrite <- app_assoc|simpl in Hfuel; lia|assumption].
  - inversion Hall as [|? ? H _]; subst. now elim H.
Qed.

(** X17. [merge_empty_intervals] returns a list in which every segment has
    a url unchanged: when no url is missing, the result is the input. *)
Theorem merge_empty_intervals_all_urls (segments : list video_segment) :
  Forall has_url segments -> merge_empty_intervals segments = segments.
Proof.
  intro Hall. unfold merge_empty_intervals.
  destruct segments as [|s tl]; [reflexivity|].
  cbn [truthy negb].
  now rewrite merge_rounds_all_urls.
Qed.

Lemma merge_empty_intervals_all_urls_witness :
  let segments := [ ((0%Q, 3%Q), Some (lit "a")); ((3%Q, 6%Q), Some (lit "b")) ] in
  Forall has_url segments /\ merge_empty_intervals segments = segments.
Proof.
  intro segments.
  assert (H : Forall has_url segments).
  { repeat constructor; discriminate. }
  split; [exact H|].
  exact (merge_empty_intervals_all_urls segments H).
Defined.

Lemma urls_of_app l l' : urls_of (l ++ l') = urls_of l ++ urls_of l'.
Proof.
  induction l as [|[interval [url|]] l IH]; simpl; [reflexivity| |];
    now rewrite IH.
Qed.

Lemma urls_of_none run :
  Forall (fun s : video_segment => snd s = None) run -> urls_of run = [].
Proof.
  induction 1 as [|[interval url] run H _ IH]; [reflexivity|].
  simpl in H. subst url. exact IH.
Qed.

Lemma tl_snoc_has_url (merged : list video_segment) x :
  Forall has_url (tl merged) -> has_url x -> Forall has_url (tl (merged ++ [x])).
Proof.
  intros H Hx. destruct merged as [|h t]; [constructor|].
  simpl in *. apply Forall_app. split; [exact H|now constructor].
Qed.

(** What one [None] branch does to a merged list that is not empty and
    ends with a url: the last segment is stretched, or a segment with the
    last url is appended. *)
Lemma merge_none_cases interval run (init : list video_segment)
      prev_interval url :
  (exists end_time,
     merge_none false interval run (init ++ [(prev_interval, Some url)])
     = init ++ [((fst prev_interval, end_time), Some url)])
  \/ merge_none false interval run (init ++ [(prev_interval, Some url)])
     = (init ++ [(prev_interval, Some url)]) ++ [(interval, Some url)].
Proof.
  unfold merge_none. cbn [negb andb].
  rewrite last_last, removelast_last.
  destruct (Qeq_bool (snd prev_interval) (fst interval)); [left|right];
    destruct init; simpl; eauto.
Qed.

(** X18. [merge_empty_intervals] never returns more segments than it is
    given and returns the empty list only on the empty list; in its result
    only the first segment can lack a url, and none does when the first
    segment given has one; and every url of the result is a url of the
    input. *)
Theorem merge_empty_intervals_urls (segments : list video_segment) :
  let merged := merge_empty_intervals segments in
  (List.length merged <= List.length segments)%nat
  /\ (merged = [] <-> segments = [])
  /\ Forall has_url (List.tl merged)
  /\ (forall interval url rest, segments = (interval, Some url) :: rest ->
                                Forall has_url merged)
  /\ incl (urls_of merged) (urls_of segments).
Proof.
  intro merged. subst merged. unfold merge_empty_intervals.
  destruct segments as [|s0 segments0] eqn:Horig.
  { simpl. split; [lia|]. split; [tauto|]. split; [constructor|].
    split; [discriminate|]. intros x Hx. exact Hx. }
  rewrite <- Horig. replace (negb (truthy segments)) with false
    by (now rewrite Horig).
  set (Inv := fun (first : bool) (segs merged : list video_segment) =>
    (first = true -> merged = [] /\ segs = segments)
    /\ (first = false -> merged <> [])
    /\ Forall has_url (List.tl merged)
    /\ (first = false -> (exists interval rest, segs = (interval, None) :: rest) ->
        has_url (last merged no_segment))
    /\ (List.length merged + List.length segs <= List.length segments)%nat
    /\ incl (urls_of merged) (urls_of segments)
    /\ incl (urls_of segs) (urls_of segments)
    /\ ((exists interval url rest, segments = (interval, Some url) :: rest) ->
        Forall has_url merged)).
  destruct (merge_rounds_invariant Inv) with
    (fuel := List.length segments) (first := true)
    (segments := segments) (merged := @nil video_segment)
    as (first' & H1 & H2 & H3 & _ & H5 & H6 & _ & H8).
  - (* a segment with a url *)
    intros first interval url rest merged (I1 & I2 & I3 & I4 & I5 & I6 & I7 & I8).
    unfold Inv.
    split; [|split; [|split; [|split; [|split; [|split; [|split]]]]]].
    + discriminate.
    + intros _. now destruct merged.
    + apply tl_snoc_has_url; [exact I3|discriminate].
    + intros _ _. rewrite last_last. discriminate.
    + rewrite length_app. simpl in *. lia.
    + rewrite urls_of_app. apply incl_app; [exact I6|].
      intros x [<- | []]. apply I7. now left.
    + intros x Hx. apply I7. now right.
    + intro Hhead. apply Forall_app. split; [now apply I8|].
      constructor; [discriminate|constructor].
  - (* a segment without url *)
    intros first interval tail merged (I1 & I2 & I3 & I4 & I5 & I6 & I7 & I8).
    destruct (none_run_spec tail) as (Heq & Hrun & Hrest).
    destruct (none_run tail) as [run rest]. simpl in Heq, Hrun, Hrest |- *.
    assert (Hlen : (List.length rest <= List.length tail)%nat)
      by (rewrite Heq, length_app; lia).
    assert (Hurls : incl (urls_of rest) (urls_of segments)).
    { intros x Hx. apply I7. simpl. rewrite Heq, urls_of_app.
      apply in_or_app. now right. }
    assert (Hnext : forall m : list video_segment,
               false = false ->
               (exists iv rest', rest = (iv, None) :: rest') ->
               has_url (last m no_segment)).
    { intros m _ (iv & rest' & E). now elim (Hrest iv rest'). }
    destruct first.
    + destruct (I1 eq_refl) as [-> Hsegs]. unfold merge_none. simpl.
      unfold Inv.
      split; [|split; [|split; [|split; [|split; [|split; [|split]]]]]].
      * discriminate.
      * discriminate.
      * constructor.
      * apply Hnext.
      * rewrite <- Hsegs. simpl. apply le_n_S. exact Hlen.
      * intros x [].
      * exact Hurls.
      * intros (iv & url & rest' & E). rewrite <- Hsegs in E. discriminate.
    + specialize (I2 eq_refl).
      destruct (exists_last I2) as (init & [prev_interval prev_url] & Hm).
      assert (Hlast : has_url (last merged no_segment)) by (apply I4; eauto).
      rewrite Hm, last_last in Hlast. unfold has_url in Hlast. simpl in Hlast.
      destruct prev_url as [url|]; [|congruence]. clear Hlast.
      assert (Hu : In url (urls_of segments)).
      { apply I6. rewrite Hm, urls_of_app. apply in_or_app. right. now left. }
      rewrite Hm in I3, I5, I6, I8 |- *.
      destruct (merge_none_cases interval run init prev_interval url)
        as [(end_time & Hc) | Hc]; refine (eq_ind_r (Inv false rest) _ Hc);
        clear Hc; unfold Inv;
        (split; [|split; [|split; [|split; [|split; [|split; [|split]]]]]]).
      * discriminate.
      * intros _. now destruct init.
      * destruct init as [|h t]; [constructor|]. simpl in *.
        apply Forall_app in I3. destruct I3 as [I3 _].
        apply Forall_app. split; [exact I3|]. constructor; [discriminate|constructor].
      * apply Hnext.
      * unfold video_segment in *. rewrite length_app in *. simpl in *. lia.
      * rewrite urls_of_app in *. exact I6.
      * exact Hurls.
      * intro Hhead. specialize (I8 Hhead). apply Forall_app in I8.
        destruct I8 as [I8 _]. apply Forall_app. split; [exact I8|].
        constructor; [discriminate|constructor].
      * discriminate.
      * intros _. now destruct (init ++ [(prev_interval, Some url)]).
      * apply tl_snoc_has_url; [exact I3|discriminate].
      * apply Hnext.
      * unfold video_segment in *. rewrite !length_app in *. simpl in *. lia.
      * rewrite urls_of_app. apply incl_app; [exact I6|].
        intros x [<- | []]. exact Hu.
      * exact Hurls.
      * intro Hhead. apply Forall_app. split; [now apply I8|].
        constructor; [discriminate|constructor].
  - lia.
  - unfold Inv.
    split; [|split; [|split; [|split; [|split; [|split; [|split]]]]]].
    + auto.
    + discriminate.
    + constructor.
    + discriminate.
    + simpl. lia.
    + intros x [].
    + intros x Hx. exact Hx.
    + constructor.
  - simpl in H5. rewrite Nat.add_0_r in H5.
    split; [exact H5|]. split; [|split; [exact H3|split; [|exact H6]]].
    + split; [|intro E; rewrite E in Horig; discriminate]. intro Hnil. exfalso.
      destruct first'.
      * destruct (H1 eq_refl) as [_ E]. rewrite <- E in Horig. discriminate.
      * now apply (H2 eq_refl).
    + intros interval url rest E. apply H8. eauto.
Qed.

Lemma final_end_app t l l' :
  final_end t (l ++ l') = final_end (final_end t l) l'.
Proof.
  revert t. induction l as [|[interval url] l IH]; intro t; simpl;
    [reflexivity|apply IH].
Qed.

Lemma contiguous_from_app t l l' :
  contiguous_from t (l ++ l')
  <-> contiguous_from t l /\ contiguous_from (final_end t l) l'.
Proof.
  revert t. induction l as [|[interval url] l IH]; intro t; simpl.
  - tauto.
  - rewrite IH. tauto.
Qed.

(** The end of a run that follows an interval ending at [t], as the code
    reads it: the end of [segments[j-1]] when the run has more than the
    one interval, the end of that interval otherwise. *)
Lemma final_end_last t (run : list video_segment) :
  (if truthy run then snd (fst (last run no_segment)) else t)
  = final_end t run.
Proof.
  revert t. induction run as [|[interval url] run IH]; intro t;
    [reflexivity|].
  simpl final_end. rewrite <- IH.
  destruct run as [|s run]; reflexivity.
Qed.

(** A run without url that starts where the last merged segment ends
    stretches that segment to the end of the run. *)
Lemma merge_none_adjacent interval run (init : list video_segment)
      prev_interval url :
  (snd prev_interval == fst interval)%Q ->
  merge_none false interval run (init ++ [(prev_interval, Some url)])
  = init ++ [((fst prev_interval, final_end (snd interval) run), Some url)].
Proof.
  intro Hadj. apply Qeq_bool_iff in Hadj.
  unfold merge_none. cbn [negb andb].
  rewrite last_last, removelast_last, Hadj, final_end_last.
  now destruct init.
Qed.

(** X19. When the intervals given to [merge_empty_intervals] follow one
    another without gap from [t] on and the first one has a url, the result
    covers the same time: its intervals follow one another from [t] on and
    end where the input ends, every one of them has a url, and the urls
    are those of the input, in order, each once. *)
Theorem merge_empty_intervals_contiguous (t : Q) interval url
    (tail : list video_segment) :
  let segments := (interval, Some url) :: tail in
  let merged := merge_empty_intervals segments in
  contiguous_from t segments ->
  Forall has_url merged
  /\ contiguous_from t merged
  /\ final_end t merged = final_end t segments
  /\ urls_of merged = urls_of segments.
Proof.
  intros segments merged Hcont. subst merged.
  unfold merge_empty_intervals.
  replace (negb (truthy segments)) with false by reflexivity.
  set (Inv := fun (first : bool) (segs merged : list video_segment) =>
    (first = true -> segs = segments)
    /\ Forall has_url merged
    /\ (first = false -> merged <> [])
    /\ contiguous_from t merged
    /\ contiguous_from (final_end t merged) segs
    /\ final_end (final_end t merged) segs = final_end t segments
    /\ urls_of merged ++ urls_of segs = urls_of segments).
  destruct (merge_rounds_invariant Inv) with
    (fuel := List.length segments) (first := true)
    (segments := segments) (merged := @nil video_segment)
    as (first' & _ & H2 & _ & H4 & _ & H6 & H7).
  - (* a segment with a url *)
    intros first iv u rest merged (I1 & I2 & I3 & I4 & I5 & I6 & I7).
    unfold Inv. simpl in I5, I6, I7. destruct I5 as [I5 I5'].
    split; [|split; [|split; [|split; [|split; [|split]]]]].
    + discriminate.
    + apply Forall_app. split; [exact I2|].
      constructor; [discriminate|constructor].
    + intros _. now destruct merged.
    + apply contiguous_from_app. simpl. tauto.
    + rewrite final_end_app. exact I5'.
    + rewrite final_end_app. exact I6.
    + rewrite urls_of_app, <- app_assoc. exact I7.
  - (* a segment without url *)
    intros first iv rest0 merged (I1 & I2 & I3 & I4 & I5 & I6 & I7).
    destruct first; [specialize (I1 eq_refl); discriminate|].
    specialize (I3 eq_refl).
    destruct (exists_last I3) as (init & [prev_interval prev_url] & Hm).
    rewrite Hm in I2, I4, I5, I6, I7 |- *.
    assert (Hlast : has_url (prev_interval, prev_url)).
    { apply Forall_app in I2. destruct I2 as [_ I2]. now inversion I2. }
    destruct prev_url as [u|]; [clear Hlast|now elim Hlast].
    destruct (none_run_spec rest0) as (Heq & Hrun & _).
    destruct (none_run rest0) as [run rest]. simpl in Heq, Hrun |- *.
    rewrite final_end_app in I5, I6. simpl in I5, I6, I7.
    destruct I5 as [Hadj I5]. rewrite Heq in I5, I6, I7.
    apply contiguous_from_app in I5. destruct I5 as [_ I5].
    rewrite final_end_app in I6.
    rewrite (urls_of_app run rest), (urls_of_none run Hrun) in I7.
    simpl in I7.
    refine (eq_ind_r (Inv false rest) _
              (merge_none_adjacent iv run init prev_interval u Hadj)).
    unfold Inv.
    split; [|split; [|split; [|split; [|split; [|split]]]]].
    + discriminate.
    + apply Forall_app in I2. destruct I2 as [I2 _].
      apply Forall_app. split; [exact I2|].
      constructor; [discriminate|constructor].
    + intros _. now destruct init.
    + apply contiguous_from_app in I4. destruct I4 as [I4 I4'].
      apply contiguous_from_app. split; [exact I4|]. exact I4'.
    + rewrite final_end_app. exact I5.
    + rewrite final_end_app. exact I6.
    + rewrite urls_of_app in *. exact I7.
  - apply le_n.
  - unfold Inv.
    split; [|split; [|split; [|split; [|split; [|split]]]]]; auto.
    + discriminate.
    + exact I.
  - simpl in H6, H7. rewrite app_nil_r in H7. tauto.
Qed.

Lemma merge_empty_intervals_contiguous_check :
  contiguous_from 0%Q
    [((0%Q, 3%Q), Some (lit "a")); ((3%Q, 6%Q), None);
     ((6%Q, 9%Q), None); ((9%Q, 12%Q), Some (lit "b"))].
Proof. simpl. repeat split; reflexivity. Qed.

Lemma merge_empty_intervals_contiguous_witness :
  let segments :=
    [((0%Q, 3%Q), Some (lit "a")); ((3%Q, 6%Q), None);
     ((6%Q, 9%Q), None); ((9%Q, 12%Q), Some (lit "b"))] in
  let merged := merge_empty_intervals segments in
  Forall has_url merged
  /\ contiguous_from 0%Q merged
  /\ final_end 0%Q merged = final_end 0%Q segments
  /\ urls_of merged = urls_of segments.
Proof.
  exact (merge_empty_intervals_contiguous 0%Q (0%Q, 3%Q) (lit "a")
           [((3%Q, 6%Q), None); ((6%Q, 9%Q), None);
            ((9%Q, 12%Q), Some (lit "b"))]
           merge_empty_intervals_contiguous_check).
Defined.

Lemma none_run_app (run rest : list video_segment) :
  Forall (fun s : video_segment => snd s = None) run ->
  (forall interval tl, rest <> (interval, None) :: tl) ->
  none_run (run ++ rest) = (run, rest).
Proof.
  intros Hrun Hrest. induction Hrun as [|[interval url] run H _ IH]; simpl.
  - destruct rest as [|[interval [url|]] tl]; try reflexivity.
    now elim (Hrest interval tl).
  - simpl in H. subst url. now rewrite IH.
Qed.

Lemma merge_none_prefix interval run p (merged : list video_segment) :
  merged <> [] ->
  merge_none false interval run (p :: merged)
  = p :: merge_none false interval run merged.
Proof.
  intro Hne. destruct (exists_last Hne) as (init & s & ->).
  unfold merge_none. cbn [negb andb].
  change (p :: init ++ [s]) with ((p :: init) ++ [s]).
  rewrite !last_last, !removelast_last.
  replace (truthy ((p :: init) ++ [s])) with true by reflexivity.
  replace (truthy (init ++ [s])) with true by (now destruct init).
  destruct s as [prev_interval [url|]]; [|reflexivity].
  destruct (Qeq_bool (snd prev_interval) (fst interval)); reflexivity.
Qed.

(** After the first round, what lies before the last merged segment is
    left alone. *)
Lemma merge_rounds_prefix p :
  forall fuel segments (merged : list video_segment),
    merged <> [] ->
    merge_rounds fuel false segments (p :: merged)
    = p :: merge_rounds fuel false segments merged.
Proof.
  induction fuel as [|fuel IH]; intros segments merged Hne; [reflexivity|].
  destruct segments as [|[interval [url|]] tl]; simpl; [reflexivity| |].
  - change (p :: merged ++ [(interval, Some url)])
      with (p :: (merged ++ [(interval, Some url)])).
    apply IH. now destruct merged.
  - destruct (none_run tl) as [run rest].
    rewrite merge_none_prefix by exact Hne. apply IH.
    destruct (exists_last Hne) as (init & [prev_interval prev_url] & ->).
    unfold merge_none. cbn [negb andb].
    rewrite last_last, removelast_last.
    replace (truthy (init ++ [(prev_interval, prev_url)])) with true
      by (now destruct init).
    destruct prev_url as [url|];
      [destruct (Qeq_bool (snd prev_interval) (fst interval))|];
      now destruct init.
Qed.

(** X20. Of a run of segments without url at the very start,
    [merge_empty_intervals] keeps the first one only, still without url:
    the other intervals of the run are in no segment of the result, and
    what follows the run is merged as if it were given alone. *)
Theorem merge_empty_intervals_leading_run interval
    (run rest : list video_segment) :
  Forall (fun s : video_segment => snd s = None) run ->
  (forall next tl, rest <> (next, None) :: tl) ->
  merge_empty_intervals ((interval, None) :: run ++ rest)
  = (interval, None) :: merge_empty_intervals rest.
Proof.
  intros Hrun Hrest. unfold merge_empty_intervals at 1.
  cbn [truthy negb]. simpl merge_rounds.
  rewrite (none_run_app run rest Hrun Hrest).
  unfold merge_none. cbn [negb andb app].
  destruct rest as [|[next [url|]] tl].
  - now destruct (List.length (run ++ [])).
  - unfold merge_empty_intervals. cbn [truthy negb List.length].
    rewrite (merge_rounds_fuel _ (S (List.length tl)))
      by (rewrite ?length_app; simpl; lia).
    simpl. apply merge_rounds_prefix. discriminate.
  - now elim (Hrest next tl).
Qed.

Lemma merge_empty_intervals_leading_run_witness :
  merge_empty_intervals
    ((0%Q, 3%Q, None) :: [(3%Q, 6%Q, None)] ++ [(6%Q, 9%Q, Some (lit "b"))])
  = (0%Q, 3%Q, None) :: merge_empty_intervals [(6%Q, 9%Q, Some (lit "b"))].
Proof.
  apply (merge_empty_intervals_leading_run (0%Q, 3%Q) [(3%Q, 6%Q, None)]
           [(6%Q, 9%Q, Some (lit "b"))]).
  - repeat constructor.
  - intros next tl H. discriminate.
Defined.

(** * create_fallback_search_terms *)

Lemma seconds_S k : (seconds (S k) == seconds k + 1)%Q.
Proof.
  unfold seconds. rewrite Nat2Z.inj_succ, <- Z.add_1_r, inject_Z_plus.
  reflexivity.
Qed.

Lemma py_min_Qmin a b : (py_min a b == Qmin a b)%Q.
Proof.
  unfold py_min. destruct (Qle_bool a b) eqn:E; symmetry.
  - apply Q.min_l. now apply Qle_bool_iff.
  - apply Q.min_r. destruct (Qlt_le_dec b a) as [Hlt|Hle].
    + now apply Qlt_le_weak.
    + apply Qle_bool_iff in Hle. congruence.
Qed.

Section FallbackProperties.

Variable unique_words : list str.

Lemma next_keyword_spec k i keywords :
  (i < 3)%nat ->
  next_keyword unique_words
    (keywords, Nat.min (3 * k + i) (List.length unique_words)) i
  = (keywords ++ [keyword_at unique_words (3 * k + i)],
     Nat.min (S (3 * k + i)) (List.length unique_words)).
Proof.
  intro Hi. unfold next_keyword, keyword_at.
  change (List.length generic_terms) with 3%nat.
  replace ((3 * k + i) mod 3)%nat with (i mod 3)%nat
    by (now rewrite Nat.add_comm, Nat.mul_comm, Nat.Div0.mod_add).
  destruct (Nat.ltb_spec (3 * k + i) (List.length unique_words)) as [Hlt|Hge].
  - rewrite (Nat.min_l (3 * k + i)) by lia.
    rewrite (Nat.min_l (S (3 * k + i))) by lia.
    destruct (Nat.ltb_spec (3 * k + i) (List.length unique_words));
      [reflexivity|lia].
  - rewrite (Nat.min_r (3 * k + i)) by lia.
    rewrite (Nat.min_r (S (3 * k + i))) by lia.
    destruct (Nat.ltb_spec (List.length unique_words)
                (List.length unique_words)); [lia|reflexivity].
Qed.

(** The three keywords of segment number [k], and the words used up after
    it. *)
Lemma segment_keywords_spec k :
  segment_keywords unique_words (Nat.min (3 * k) (List.length unique_words))
  = (map (keyword_at unique_words) (seq (3 * k) 3),
     Nat.min (3 * S k) (List.length unique_words)).
Proof.
  unfold segment_keywords. change (seq 0 3) with [0; 1; 2]%nat.
  cbn [fold_left].
  replace (3 * k)%nat with (3 * k + 0)%nat at 1 by lia.
  rewrite next_keyword_spec by lia.
  replace (S (3 * k + 0)) with (3 * k + 1)%nat by lia.
  rewrite next_keyword_spec by lia.
  replace (S (3 * k + 1)) with (3 * k + 2)%nat by lia.
  rewrite next_keyword_spec by lia.
  replace (S (3 * k + 2)) with (3 * S k)%nat by lia.
  cbn [seq map app].
  now replace (3 * k + 0)%nat with (3 * k)%nat by lia;
    replace (3 * k + 1)%nat with (S (3 * k)) by lia;
    replace (3 * k + 2)%nat with (S (S (3 * k))) by lia.
Qed.

Lemma fallback_rounds_done fuel total current word_index terms :
  (total <= current)%Q ->
  fallback_rounds unique_words fuel total current word_index terms = terms.
Proof.
  intro Hle. apply Qle_bool_iff in Hle.
  destruct fuel; [reflexivity|]. simpl. now rewrite Hle.
Qed.

(** The segments the loop adds from round [k] on, when the fuel is enough
    for what is left of [total]. *)
Lemma fallback_rounds_spec fuel :
  forall total current k terms,
    (current == 3 * seconds k)%Q ->
    (total <= 3 * seconds (k + fuel))%Q ->
    exists new,
      fallback_rounds unique_words fuel total current
        (Nat.min (3 * k) (List.length unique_words)) terms = terms ++ new
      /\ (total <= 3 * seconds (k + List.length new))%Q
      /\ forall j, (j < List.length new)%nat ->
           exists s e,
             nth j new no_terms
             = ((s, e), map (keyword_at unique_words) (seq (3 * (k + j)) 3))
             /\ (s == 3 * seconds (k + j))%Q /\ (s < total)%Q
             /\ (e == Qmin (s + 3) total)%Q.
Proof.
  induction fuel as [|fuel IH]; intros total current k terms Hcur Hfuel.
  - exists []. simpl. rewrite app_nil_r.
    split; [reflexivity|]. split; [exact Hfuel|]. intros j Hj. lia.
  - cbn [fallback_rounds].
    destruct (Qle_bool total current) eqn:Etest; cbn [negb].
    + apply Qle_bool_iff in Etest. exists []. rewrite app_nil_r.
      split; [reflexivity|]. simpl List.length. rewrite Nat.add_0_r.
      split; [now rewrite <- Hcur|]. intros j Hj. simpl in Hj. lia.
    + assert (Hlt : (current < total)%Q).
      { destruct (Qlt_le_dec current total) as [H|H]; [exact H|].
        apply Qle_bool_iff in H. congruence. }
      rewrite segment_keywords_spec. cbv beta iota zeta.
      set (end_time := py_min (current + 3) total).
      set (segment := ((current, end_time),
                       map (keyword_at unique_words) (seq (3 * k) 3))
                      : search_terms).
      assert (Hend : (end_time == Qmin (current + 3) total)%Q)
        by apply py_min_Qmin.
      assert (Hfirst :
        exists s e,
          segment
          = ((s, e), map (keyword_at unique_words) (seq (3 * (k + 0)) 3))
          /\ (s == 3 * seconds (k + 0))%Q /\ (s < total)%Q
          /\ (e == Qmin (s + 3) total)%Q).
      { exists current, end_time. rewrite Nat.add_0_r. auto. }
      destruct (Qlt_le_dec (current + 3) total) as [Hmore|Hlast].
      * (* another round follows *)
        assert (Hnext : (end_time == 3 * seconds (S k))%Q).
        { rewrite Hend, Q.min_l by now apply Qlt_le_weak.
          rewrite seconds_S, Hcur. ring. }
        destruct (IH total end_time (S k) (terms ++ [segment]) Hnext)
          as (new & Heq & Hlen & Hnth).
        { rewrite Nat.add_succ_r in Hfuel. exact Hfuel. }
        exists (segment :: new). rewrite <- app_assoc in Heq.
        split; [exact Heq|]. simpl List.length.
        split; [now rewrite Nat.add_succ_r|].
        intros [|j] Hj; [exact Hfirst|]. simpl in Hj.
        rewrite Nat.add_succ_r. apply Hnth. lia.
      * (* the last round *)
        assert (Hnext : (total <= end_time)%Q).
        { rewrite Hend, Q.min_r by exact Hlast. apply Qle_refl. }
        rewrite fallback_rounds_done by exact Hnext.
        exists [segment]. split; [reflexivity|]. simpl List.length.
        split.
        -- rewrite Nat.add_1_r, seconds_S. rewrite Hcur in Hlast.
           apply (Qle_trans _ _ _ Hlast). apply Qle_lteq. right. ring.
        -- intros [|j] Hj; [exact Hfirst|]. simpl in Hj. lia.
Qed.

Lemma fallback_fuel_enough total :
  (total <= 3 * seconds (fallback_fuel total))%Q.
Proof.
  unfold fallback_fuel, seconds.
  set (rounds := Qceiling (total / 3)).
  assert (H1 : (total / 3 <= inject_Z rounds)%Q) by apply Qle_ceiling.
  assert (H2 : (inject_Z rounds <= inject_Z (Z.of_nat (Z.to_nat rounds)))%Q).
  { rewrite <- Zle_Qle. lia. }
  assert (H3 : (total == 3 * (total / 3))%Q).
  { symmetry. apply Qmult_div_r. discriminate. }
  rewrite H3 at 1. apply Qmult_le_l; [reflexivity|].
  now apply (Qle_trans _ _ _ H1).
Qed.

(** X21. With captions, [create_fallback_search_terms] cuts the time up
    to the end of the last caption into segments of three seconds, the
    last one shorter when the time is no multiple of three: segment
    number [k] goes from [3k] to [3k + 3] or to the end, and there are as
    many segments as it takes to reach the end, none when the end is not
    positive.  Every segment has three keywords: the words of
    [unique_words] in order, three to a segment, and once they are used up
    the generic terms, each at its own place. *)
Theorem create_fallback_search_terms_segments
    (captions_timed : list CaptionEntry) :
  captions_timed <> [] ->
  let total := entry_end (last captions_timed no_entry) in
  let terms := create_fallback_search_terms unique_words captions_timed in
  (total <= 3 * seconds (List.length terms))%Q
  /\ ((total <= 0)%Q -> terms = [])
  /\ forall k, (k < List.length terms)%nat ->
       exists s e,
         nth k terms no_terms
         = ((s, e), map (keyword_at unique_words) (seq (3 * k) 3))
         /\ (s == 3 * seconds k)%Q /\ (s < total)%Q
         /\ (e == Qmin (s + 3) total)%Q.
Proof.
  intros Hne total terms. subst terms. unfold create_fallback_search_terms.
  replace (truthy captions_timed) with true by (now destruct captions_timed).
  fold total.
  destruct (fallback_rounds_spec (fallback_fuel total) total 0%Q 0 [])
    as (new & Heq & Hlen & Hnth).
  - reflexivity.
  - apply fallback_fuel_enough.
  - simpl in Heq. rewrite Heq.
    split; [exact Hlen|]. split; [|exact Hnth].
    intro Hle. destruct new as [|segment new]; [reflexivity|].
    destruct (Hnth 0%nat) as (s & e & _ & Hs & Hlt & _); [simpl; lia|].
    exfalso. simpl in Hs. apply (Qlt_irrefl total).
    apply (Qle_lt_trans _ 0%Q); [exact Hle|]. rewrite Hs in Hlt.
    exact Hlt.
Qed.

End FallbackProperties.

Lemma create_fallback_search_terms_segments_witness :
  let unique_words := [lit "ocean"; lit "Whale"; lit "deep"; lit "blue"] in
  let captions_timed : list CaptionEntry := [((0%Q, 7%Q), lit "x")] in
  let total := entry_end (last captions_timed no_entry) in
  let terms := create_fallback_search_terms unique_words captions_timed in
  (total <= 3 * seconds (List.length terms))%Q
  /\ ((total <= 0)%Q -> terms = [])
  /\ forall k, (k < List.length terms)%nat ->
       exists s e,
         nth k terms no_terms
         = ((s, e), map (keyword_at unique_words) (seq (3 * k) 3))
         /\ (s == 3 * seconds k)%Q /\ (s < total)%Q
         /\ (e == Qmin (s + 3) total)%Q.
Proof.
  apply (create_fallback_search_terms_segments
           [lit "ocean"; lit "Whale"; lit "deep"; lit "blue"]
           [((0%Q, 7%Q), lit "x")]).
  discriminate.
Defined.
